(** * qxtags: the class registry, the class extractor, the directory
      index and the tag emitter of [qxtags.js], embedded in Rocq.

    The program keeps two insertion-ordered maps ([SrcMgr.srcs] and
    [SrcMgr.classes]), fills them from the syntax tree of every checked
    file and prints them as a ctags file.  The syntax tree, the parser,
    the code generator and path resolution belong to libraries; they
    enter the model through the class [Collaborators]. *)

From Stdlib Require Import List String Ascii Bool Arith Lia.
From Stdlib Require Import Permutation Sorted DecimalString.
Import ListNotations.
Open Scope string_scope.
Open Scope list_scope.

Set Warnings "-register-all".

(* ================================================================== *)
(** ** JavaScript values that can end up as a name *)

(** A member name or a class name is read from a syntax node with
    [node.name] or [node.value]; it is a string for ordinary sources,
    but a numeric key, a boolean or [null] literal, or a node without
    the probed field ([undefined]) are possible too.  A number is
    carried by its canonical text [String(n)], which identifies it. *)
Inductive JsVal : Type :=
| VUndefined
| VNull
| VBool (b : bool)
| VNumber (repr : string)
| VString (s : string).

Class EqDec (A : Type) := eq_dec : forall x y : A, {x = y} + {x <> y}.

#[export] Instance string_EqDec : EqDec string := string_dec.

#[export] Instance JsVal_EqDec : EqDec JsVal.
Proof.
  unfold EqDec. decide equality; (apply string_dec || apply bool_dec).
Defined.

(** [String(v)], the conversion done by [+] with a string. *)
Definition toString (v : JsVal) : string :=
  match v with
  | VUndefined => "undefined"
  | VNull => "null"
  | VBool true => "true"
  | VBool false => "false"
  | VNumber r => r
  | VString s => s
  end.

(** The conversion [Array.prototype.join] applies to an element. *)
Definition join_elem (v : JsVal) : string :=
  match v with
  | VUndefined | VNull => ""
  | _ => toString v
  end.

(** [String(n)] for a line number. *)
Definition string_of_nat (n : nat) : string :=
  NilEmpty.string_of_uint (Nat.to_uint n).

(* ================================================================== *)
(** ** Syntax trees (esprima) *)

(** One variant per node kind the program tells apart, and [OtherNode]
    for every other kind (a member expression such as the callee
    [qx.Class.define], an operator, ...), which carries its source
    text.  Every node carries [loc.start.line].  The entries of an
    object literal all have the type [Property], which is what the
    assertion in the loop of [_parseClass] checks; an entry is the pair
    of its key and its value.  An array literal holds its elements in
    order, with [None] for a hole, which esprima gives as [null]: the
    literal [[A, , B]] has one.  A spread element is a node of another
    kind. *)
Inductive Ast : Type :=
| Identifier (line : nat) (name : string)
| Literal (line : nat) (value : JsVal)
| ArrayExpression (line : nat) (elements : list (option Ast))
| ObjectExpression (line : nat) (properties : list (Ast * Ast))
| FunctionExpression (line : nat) (params : list Ast) (body : string)
| ArrowFunctionExpression (line : nat) (params : list Ast) (body : string)
| CallExpression (line : nat) (callee : Ast) (arguments : list Ast)
| OtherNode (line : nat) (source : string).

Inductive Statement : Type :=
| ExpressionStatement (expression : Ast)
| OtherStatement (source : string).

Definition Program : Type := list Statement.

(** [t.loc.start.line] *)
Definition start_line (t : Ast) : nat :=
  match t with
  | Identifier l _ | Literal l _ | ArrayExpression l _
  | ObjectExpression l _ | FunctionExpression l _ _
  | ArrowFunctionExpression l _ _ | CallExpression l _ _
  | OtherNode l _ => l
  end.

(** [t.name]: only an identifier has one. *)
Definition node_name (t : Ast) : option string :=
  match t with Identifier _ n => Some n | _ => None end.

(** [t.value]: only a literal has one. *)
Definition node_value (t : Ast) : JsVal :=
  match t with Literal _ v => v | _ => VUndefined end.

(** [t.params] *)
Definition node_params (t : Ast) : option (list Ast) :=
  match t with
  | FunctionExpression _ ps _ | ArrowFunctionExpression _ ps _ => Some ps
  | _ => None
  end.

(** [t.properties] *)
Definition node_properties (t : Ast) : option (list (Ast * Ast)) :=
  match t with ObjectExpression _ ps => Some ps | _ => None end.

(** [esquery.query(t, 'Program>ExpressionStatement>CallExpression')] *)
Definition query (t : Program) : list Ast :=
  flat_map (fun s =>
    match s with
    | ExpressionStatement (CallExpression _ _ _ as e) => [e]
    | _ => []
    end) t.

(* ================================================================== *)
(** ** Errors and completions *)

Inductive Exn : Type :=
| AssertionError
| SystemError (code : string)
| SyntaxError
| TypeError
| DuplicateClassName.

Inductive Completion (A : Type) : Type :=
| Normal (v : A)
| Throw (e : Exn).

Arguments Normal {A} v.
Arguments Throw {A} e.

(** [fs.readFileSync(path, 'utf8')]: the text, or an error with a
    [code]. *)
Inductive ReadResult : Type :=
| ReadOk (src : string)
| ReadFail (code : string).

Definition FileSystem : Type := string -> ReadResult.

(** The libraries the program calls. [parseScript] is [None] when
    esprima throws on malformed text. *)
Class Collaborators : Type := {
  parseScript : string -> option Program;
  generate : Ast -> string;
  resolve : string -> string
}.

(* ================================================================== *)
(** ** [Map]: insertion-ordered, one entry per key *)

Module JsMap.
Section Ops.
Context {K V : Type} `{EqDec K}.

Fixpoint get (k : K) (m : list (K * V)) : option V :=
  match m with
  | [] => None
  | (k', v) :: m' => if eq_dec k k' then Some v else get k m'
  end.

(** A present key keeps its place and takes the new value; a new key
    goes to the end. *)
Fixpoint set (k : K) (v : V) (m : list (K * V)) : list (K * V) :=
  match m with
  | [] => [(k, v)]
  | (k', v') :: m' =>
      if eq_dec k k' then (k', v) :: m' else (k', v') :: set k v m'
  end.

Definition delete (k : K) (m : list (K * V)) : list (K * V) :=
  filter (fun kv => if eq_dec k (fst kv) then false else true) m.

Definition keys (m : list (K * V)) : list K := map fst m.
Definition values (m : list (K * V)) : list V := map snd m.
End Ops.
End JsMap.

(* ================================================================== *)
(** ** The records of [qxtags.js] *)

Record Tag : Type := {
  tag_name : JsVal;
  tag_t : Ast;
  tag_signature : option string
}.

Record ClassInfo : Type := {
  srcPath : string;
  name : JsVal;
  bodyT : Ast;
  type : option string;
  extend : option Tag;
  include : list Tag;
  implement : list Tag;
  methods : list Tag;
  properties : list Tag;
  statics : list Tag;
  events : list Tag
}.

Record SrcInfo : Type := { clsnames : list JsVal }.

Record SrcMgr : Type := {
  srcs : list (string * SrcInfo);
  classes : list (JsVal * ClassInfo)
}.

(** [new SrcMgr()] *)
Definition new_SrcMgr : SrcMgr := {| srcs := []; classes := [] |}.

(* ================================================================== *)
(** ** The class extractor: [SrcMgr._parseClass] *)

Definition set_extend (cls : ClassInfo) (x : option Tag) : ClassInfo :=
  {| srcPath := srcPath cls; name := name cls; bodyT := bodyT cls;
     type := type cls; extend := x; include := include cls;
     implement := implement cls; methods := methods cls;
     properties := properties cls; statics := statics cls;
     events := events cls |}.

Definition set_include (cls : ClassInfo) (x : list Tag) : ClassInfo :=
  {| srcPath := srcPath cls; name := name cls; bodyT := bodyT cls;
     type := type cls; extend := extend cls; include := x;
     implement := implement cls; methods := methods cls;
     properties := properties cls; statics := statics cls;
     events := events cls |}.

Definition set_implement (cls : ClassInfo) (x : list Tag) : ClassInfo :=
  {| srcPath := srcPath cls; name := name cls; bodyT := bodyT cls;
     type := type cls; extend := extend cls; include := include cls;
     implement := x; methods := methods cls;
     properties := properties cls; statics := statics cls;
     events := events cls |}.

Definition set_type (cls : ClassInfo) (x : option string) : ClassInfo :=
  {| srcPath := srcPath cls; name := name cls; bodyT := bodyT cls;
     type := x; extend := extend cls; include := include cls;
     implement := implement cls; methods := methods cls;
     properties := properties cls; statics := statics cls;
     events := events cls |}.

(** [cls.methods.push(x)] *)
Definition push_methods (cls : ClassInfo) (x : Tag) : ClassInfo :=
  {| srcPath := srcPath cls; name := name cls; bodyT := bodyT cls;
     type := type cls; extend := extend cls; include := include cls;
     implement := implement cls; methods := methods cls ++ [x];
     properties := properties cls; statics := statics cls;
     events := events cls |}.

(** [cls.properties.push(x)] *)
Definition push_properties (cls : ClassInfo) (x : Tag) : ClassInfo :=
  {| srcPath := srcPath cls; name := name cls; bodyT := bodyT cls;
     type := type cls; extend := extend cls; include := include cls;
     implement := implement cls; methods := methods cls;
     properties := properties cls ++ [x]; statics := statics cls;
     events := events cls |}.

(** [cls.statics.push(x)] *)
Definition push_statics (cls : ClassInfo) (x : Tag) : ClassInfo :=
  {| srcPath := srcPath cls; name := name cls; bodyT := bodyT cls;
     type := type cls; extend := extend cls; include := include cls;
     implement := implement cls; methods := methods cls;
     properties := properties cls; statics := statics cls ++ [x];
     events := events cls |}.

(** [cls.events.push(x)] *)
Definition push_events (cls : ClassInfo) (x : Tag) : ClassInfo :=
  {| srcPath := srcPath cls; name := name cls; bodyT := bodyT cls;
     type := type cls; extend := extend cls; include := include cls;
     implement := implement cls; methods := methods cls;
     properties := properties cls; statics := statics cls;
     events := events cls ++ [x] |}.

(** A loop whose body may throw. *)
Fixpoint foldM {A B : Type} (f : A -> B -> Exn + A) (l : list B) (a : A)
  : Exn + A :=
  match l with
  | [] => inr a
  | x :: l' =>
      match f a x with
      | inl e => inl e
      | inr a' => foldM f l' a'
      end
  end.

(** [l.map(f)] with a callback that may throw. *)
Fixpoint mapM {A B : Type} (f : A -> Exn + B) (l : list A)
  : Exn + list B :=
  match l with
  | [] => inr []
  | x :: l' =>
      match f x with
      | inl e => inl e
      | inr y =>
          match mapM f l' with
          | inl e => inl e
          | inr ys => inr (y :: ys)
          end
      end
  end.

(** [prop.key.type==='Identifier' ? prop.key.name : prop.key.value] *)
Definition key_name (key : Ast) : JsVal :=
  match key with
  | Identifier _ n => VString n
  | k => node_value k
  end.

Section Extractor.
Context `{Collaborators}.

(** [{name: escodegen.generate(t), t: t}] *)
Definition ref_tag (t : Ast) : Tag :=
  {| tag_name := VString (generate t); tag_t := t;
     tag_signature := None |}.

(** The callback of [valT.elements.map]: on the [null] of a hole
    [escodegen.generate] throws. *)
Definition ref_element (t : option Ast) : Exn + Tag :=
  match t with
  | Some t => inr (ref_tag t)
  | None => inl TypeError
  end.

(** The value of [include] and [implement]: an array of references
    or a single one. *)
Definition ref_tags (valT : Ast) : Exn + list Tag :=
  match valT with
  | ArrayExpression _ elements => mapM ref_element elements
  | _ => inr [ref_tag valT]
  end.

(** ['('+params.map(t => escodegen.generate(t)).join(', ')+')'] *)
Definition params_signature (params : list Ast) : string :=
  ("(" ++ String.concat ", " (map generate params) ++ ")")%string.

(** The tag of [construct] and [destruct]; [valT.params.map] throws
    when [valT] has no [params]. *)
Definition special_method (display : string) (valT : Ast) : Exn + Tag :=
  match node_params valT with
  | None => inl TypeError
  | Some params =>
      inr {| tag_name := VString display; tag_t := valT;
             tag_signature := Some (params_signature params) |}
  end.

(** The tag of an entry of [statics], [properties] and [events]. *)
Definition plain_tag (prop : Ast * Ast) : Tag :=
  {| tag_name := key_name (fst prop); tag_t := snd prop;
     tag_signature := None |}.

Definition method_tag (prop : Ast * Ast) (params : list Ast) : Tag :=
  {| tag_name := key_name (fst prop); tag_t := snd prop;
     tag_signature := Some (params_signature params) |}.

Definition property_tag (prop : Ast * Ast) : Tag :=
  {| tag_name := key_name (fst prop); tag_t := snd prop;
     tag_signature := Some ("(=" ++ generate (snd prop) ++ ")")%string |}.

(** The body of the loop over the entries of [members]: the test
    [prop.value.type === 'FunctionExpression'] and its two branches. *)
Definition members_entry (cls : ClassInfo) (prop : Ast * Ast)
  : ClassInfo :=
  match snd prop with
  | FunctionExpression _ params _ =>
      push_methods cls (method_tag prop params)
  | _ => push_properties cls (property_tag prop)
  end.

(** [for (let prop of valT.properties) ...]: iterating [undefined]
    throws. *)
Definition each_property (valT : Ast)
    (body : ClassInfo -> Ast * Ast -> ClassInfo) (cls : ClassInfo)
  : Exn + ClassInfo :=
  match node_properties valT with
  | None => inl TypeError
  | Some props => inr (fold_left body props cls)
  end.

(** One turn of the loop over [bodyT.properties]: the [switch] on
    [t.key.name].  The second [case 'include'] of the source can never
    be taken; the [default] case only prints a warning. *)
Definition parse_section (cls : ClassInfo) (t : Ast * Ast)
  : Exn + ClassInfo :=
  let valT := snd t in
  match node_name (fst t) with
  | None => inr cls
  | Some key =>
      if key =? "extend" then inr (set_extend cls (Some (ref_tag valT)))
      else if key =? "include" then
        match ref_tags valT with
        | inl e => inl e
        | inr tags => inr (set_include cls tags)
        end
      else if key =? "implement" then
        match ref_tags valT with
        | inl e => inl e
        | inr tags => inr (set_implement cls tags)
        end
      else if key =? "construct" then
        match special_method "[constructor]" valT with
        | inl e => inl e
        | inr m => inr (push_methods cls m)
        end
      else if key =? "destruct" then
        match special_method "[destructor]" valT with
        | inl e => inl e
        | inr m => inr (push_methods cls m)
        end
      else if key =? "statics" then
        each_property valT
          (fun c prop => push_statics c (plain_tag prop)) cls
      else if key =? "members" then each_property valT members_entry cls
      else if key =? "properties" then
        each_property valT
          (fun c prop => push_properties c (plain_tag prop)) cls
      else if key =? "events" then
        each_property valT
          (fun c prop => push_events c (plain_tag prop)) cls
      else if key =? "type" then inr (set_type cls (Some (generate valT)))
      else if key =? "environment" then inr cls
      else if key =? "defer" then inr cls
      else inr cls
  end.

(** The record [_parseClass] starts from. *)
Definition empty_class (srcPath : string) (name : JsVal) (bodyT : Ast)
  : ClassInfo :=
  {| srcPath := srcPath; name := name; bodyT := bodyT;
     type := None; extend := None; include := []; implement := [];
     methods := []; properties := []; statics := []; events := [] |}.

(** [bodyT] is [candidate.arguments[1]], [undefined] when the call has
    fewer arguments. *)
Definition _parseClass (srcPath : string) (name : JsVal)
    (bodyT : option Ast) : Exn + ClassInfo :=
  match bodyT with
  | None => inl TypeError
  | Some b =>
      match node_properties b with
      | None => inl TypeError
      | Some props => foldM parse_section props (empty_class srcPath name b)
      end
  end.

(* ================================================================ *)
(** ** The registry: [SrcMgr] *)

(** The loop of [_parseClasses]; [table] is [this.classes], [acc] the
    local array [classes]. *)
Fixpoint parse_candidates (path : string)
    (table : list (JsVal * ClassInfo)) (candidates : list Ast)
    (acc : list ClassInfo) : Exn + list ClassInfo :=
  match candidates with
  | [] => inr acc
  | candidate :: rest =>
      match candidate with
      | CallExpression _ callee arguments =>
          if negb (generate callee =? "qx.Class.define") then
            parse_candidates path table rest acc
          else
            match nth_error arguments 0 with
            | None => inl TypeError
            | Some arg0 =>
                let name := node_value arg0 in
                match _parseClass path name (nth_error arguments 1) with
                | inl e => inl e
                | inr cls =>
                    match JsMap.get name table with
                    | Some prev =>
                        if negb (srcPath prev =? path)
                        then inl DuplicateClassName
                        else parse_candidates path table rest (acc ++ [cls])
                    | None =>
                        parse_candidates path table rest (acc ++ [cls])
                    end
                end
            end
      | _ => inl TypeError
      end
  end.

Definition _parseClasses (path : string) (t : Program)
    (table : list (JsVal * ClassInfo)) : Exn + list ClassInfo :=
  parse_candidates path table (query t) [].

(** [for (let cls of classes) this.classes.set(cls.name, cls)] *)
Definition set_classes (classes : list ClassInfo)
    (table : list (JsVal * ClassInfo)) : list (JsVal * ClassInfo) :=
  fold_left (fun m cls => JsMap.set (name cls) cls m) classes table.

(** [for (let clsname of si.clsnames) this.classes.delete(clsname)] *)
Definition delete_classes (clsnames : list JsVal)
    (table : list (JsVal * ClassInfo)) : list (JsVal * ClassInfo) :=
  fold_left (fun m clsname => JsMap.delete clsname m) clsnames table.

Definition _removeSrc (path : string) (s : SrcMgr) : bool * SrcMgr :=
  match JsMap.get path (srcs s) with
  | None => (false, s)
  | Some si =>
      (true, {| srcs := JsMap.delete path (srcs s);
                classes := delete_classes (clsnames si) (classes s) |})
  end.

Definition _addSrc (path src : string) (s : SrcMgr)
  : Completion JsVal * SrcMgr :=
  match parseScript src with
  | None => (Throw SyntaxError, s)
  | Some t =>
      match _parseClasses path t (classes s) with
      | inl e => (Throw e, s)
      | inr classes' =>
          let srcInfo := {| clsnames := map name classes' |} in
          (Normal VUndefined,
           {| srcs := JsMap.set path srcInfo (srcs s);
              classes := set_classes classes' (classes s) |})
      end
  end.

(** [checkFile] returns [false] for a missing file and nothing
    ([undefined]) after a file was read and registered. *)
Definition checkFile (fs : FileSystem) (path : string) (s : SrcMgr)
  : Completion JsVal * SrcMgr :=
  if negb (path =? resolve path) then (Throw AssertionError, s)
  else
    let s1 := snd (_removeSrc path s) in
    match fs path with
    | ReadFail code =>
        if code =? "ENOENT" then (Normal (VBool false), s1)
        else (Throw (SystemError code), s1)
    | ReadOk src => _addSrc path src s1
    end.
End Extractor.

(* ================================================================== *)
(** ** The tag emitter: [SrcMgr.genCtags] *)

Definition tab : string := String (ascii_of_nat 9) EmptyString.
Definition newline : string := String (ascii_of_nat 10) EmptyString.
Definition dquote : string := String (ascii_of_nat 34) EmptyString.

(** The first element pushed on [buf]. *)
Definition header : string :=
  ("!_TAG_FILE_FORMAT" ++ tab ++ "2" ++ newline ++
   "!_TAG_FILE_SORTED" ++ tab ++ "1" ++ tab ++ "/0=unsorted, 1=sorted/"
     ++ newline ++
   "!_TAG_PROGRAM_NAME" ++ tab ++ "qxtags" ++ newline ++
   "!_TAG_PROGRAM_VERSION" ++ tab ++ "0.1" ++ newline)%string.

(** An element of the local array [members]. *)
Record Member : Type := {
  kind : string;
  member_name : JsVal;
  lineno : nat;
  signature : option string
}.

Definition member_of (kind : string) (m : Tag) : Member :=
  {| kind := kind; member_name := tag_name m;
     lineno := start_line (tag_t m); signature := tag_signature m |}.

(** The six loops that fill [members]. *)
Definition collect_members (cls : ClassInfo) : list Member :=
  map (member_of "n") (include cls) ++
  map (member_of "i") (implement cls) ++
  map (member_of "m") (methods cls) ++
  map (member_of "p") (properties cls) ++
  map (member_of "s") (statics cls) ++
  map (member_of "e") (events cls).

(** [members.sort((a, b) => a.lineno - b.lineno)].  The sort of an
    array is stable, and the result of a stable sort is fixed by the
    array and the comparison; insertion from the right computes it. *)
Fixpoint insert_member (x : Member) (l : list Member) : list Member :=
  match l with
  | [] => [x]
  | y :: l' =>
      if (lineno x <=? lineno y)%nat then x :: y :: l'
      else y :: insert_member x l'
  end.

Definition sort_members (l : list Member) : list Member :=
  fold_right insert_member [] l.

(** [entry.name.startsWith(...)] throws unless the name is a string. *)
Definition access_of (name : JsVal) : Exn + string :=
  match name with
  | VString s =>
      inr (if prefix "__" s then "protected"
           else if prefix "_" s then "private"
           else "public")
  | _ => inl TypeError
  end.

Definition line_field (n : nat) : string :=
  (string_of_nat n ++ ";" ++ dquote)%string.

(** The array joined for the class itself. *)
Definition class_tags (cls : ClassInfo) : list string :=
  [ join_elem (name cls); srcPath cls;
    line_field (start_line (bodyT cls)); "c";
    ("line:" ++ string_of_nat (start_line (bodyT cls)))%string;
    "type:class" ].

(** The array joined for [cls.extend]. *)
Definition extend_tags (cls : ClassInfo) (x : Tag) : list string :=
  [ join_elem (tag_name x); srcPath cls;
    line_field (start_line (tag_t x)); "x";
    ("line:" ++ string_of_nat (start_line (tag_t x)))%string;
    ("ctype:" ++ toString (name cls))%string ].

(** The array [tags] of a member. *)
Definition member_tags (cls : ClassInfo) (entry : Member)
  : Exn + list string :=
  match access_of (member_name entry) with
  | inl e => inl e
  | inr access =>
      inr ([ join_elem (member_name entry); srcPath cls;
             line_field (lineno entry); kind entry;
             ("line:" ++ string_of_nat (lineno entry))%string;
             ("ctype:" ++ toString (name cls))%string;
             ("access:" ++ access)%string ]
           ++ match signature entry with
              | Some sg => [("signature:" ++ sg)%string]
              | None => []
              end)
  end.

Definition extend_records (cls : ClassInfo) : list (list string) :=
  match extend cls with
  | Some x => [extend_tags cls x]
  | None => []
  end.

(** The arrays joined during one turn of the loop over
    [this.classes.values()], in the order they are pushed. *)
Definition class_records (cls : ClassInfo) : Exn + list (list string) :=
  match mapM (member_tags cls) (sort_members (collect_members cls)) with
  | inl e => inl e
  | inr ms => inr (class_tags cls :: extend_records cls ++ ms)
  end.

(** [tags.join('\t')+'\n'] *)
Definition record_line (tags : list string) : string :=
  (String.concat tab tags ++ newline)%string.

(** All arrays joined by [genCtags], class after class. *)
Definition genCtags_records (s : SrcMgr) : Exn + list (list string) :=
  match mapM class_records (JsMap.values (classes s)) with
  | inl e => inl e
  | inr rs => inr (List.concat rs)
  end.

(** The elements of [buf] at [return]. *)
Definition genCtags_buf (s : SrcMgr) : Exn + list string :=
  match genCtags_records s with
  | inl e => inl e
  | inr rs => inr (header :: map record_line rs)
  end.

Definition genCtags (s : SrcMgr) : Completion string :=
  match genCtags_buf s with
  | inl e => Throw e
  | inr buf => Normal (String.concat "" buf)
  end.

(* ================================================================== *)
(** ** The directory index: [DirMgr] *)

Inductive Event : Type :=
| EvAdd (path : string)
| EvRm (path : string).

(** [dirs] is a [Set]: insertion-ordered, without repetition. *)
Record DirMgr : Type := {
  dirs : list string;
  srcm : SrcMgr
}.

Section Directories.
Context `{Collaborators}.

(** [for (let srcPath of rmSrcs) this.srcm.checkFile(srcPath)] *)
Fixpoint check_each (fs : FileSystem) (paths : list string) (s : SrcMgr)
  : Completion unit * SrcMgr :=
  match paths with
  | [] => (Normal tt, s)
  | p :: rest =>
      match checkFile fs p s with
      | (Throw e, s') => (Throw e, s')
      | (Normal _, s') => check_each fs rest s'
      end
  end.

(** [_rm]: the completion, the index afterwards and the events
    emitted, in order. *)
Definition _rm (fs : FileSystem) (path : string) (d : DirMgr)
  : Completion bool * DirMgr * list Event :=
  if negb (existsb (String.eqb path) (dirs d)) then (Normal false, d, [])
  else
    let dirs' := filter (fun s => negb (prefix path s)) (dirs d) in
    let rmSrcs := filter (fun s => prefix path s)
                         (JsMap.keys (srcs (srcm d))) in
    match check_each fs rmSrcs (srcm d) with
    | (Throw e, s') => (Throw e, {| dirs := dirs'; srcm := s' |}, [])
    | (Normal _, s') =>
        (Normal true, {| dirs := dirs'; srcm := s' |}, [EvRm path])
    end.
End Directories.

(* ================================================================== *)
(** ** Properties the registry is checked against *)

Section RegistryProperties.
Context `{Collaborators}.

(** Every path of [srcs] lists exactly the names whose record it
    owns. *)
Definition ownership_exact (s : SrcMgr) : Prop :=
  forall p si, JsMap.get p (srcs s) = Some si ->
  forall n, In n (clsnames si) <->
            exists c, JsMap.get n (classes s) = Some c /\ srcPath c = p.

(** Every record of [classes] is owned by a path of [srcs]. *)
Definition owners_tracked (s : SrcMgr) : Prop :=
  forall n c, JsMap.get n (classes s) = Some c ->
  exists si, JsMap.get (srcPath c) (srcs s) = Some si.

(** Every path of [srcs] passed the assertion of [checkFile]. *)
Definition paths_resolved (s : SrcMgr) : Prop :=
  forall p si, JsMap.get p (srcs s) = Some si -> resolve p = p.

Record Inv (s : SrcMgr) : Prop := {
  inv_exact : ownership_exact s;
  inv_tracked : owners_tracked s;
  inv_resolved : paths_resolved s
}.

(** The registries a program can hold: a new one, and what any call
    of [checkFile] leaves behind, however the call ends and whatever
    the files hold at that time. *)
Inductive Reachable : SrcMgr -> Prop :=
| reach_new : Reachable new_SrcMgr
| reach_checkFile : forall fs path s,
    Reachable s -> Reachable (snd (checkFile fs path s)).

(** [candidate] is a call of [qx.Class.define]. *)
Definition is_define_call (candidate : Ast) : bool :=
  match candidate with
  | CallExpression _ callee _ => generate callee =? "qx.Class.define"
  | _ => false
  end.

(** [candidate.arguments[0].value] *)
Definition call_name (candidate : Ast) : option JsVal :=
  match candidate with
  | CallExpression _ _ (arg0 :: _) => Some (node_value arg0)
  | _ => None
  end.

(** What the extractor makes of a candidate: nothing for a call of
    another function, else the record or the error of
    [_parseClass]. *)
Definition extract_call (path : string) (candidate : Ast)
  : option (Exn + ClassInfo) :=
  match candidate with
  | CallExpression _ callee arguments =>
      if negb (generate callee =? "qx.Class.define") then None
      else match nth_error arguments 0 with
           | None => Some (inl TypeError)
           | Some arg0 =>
               Some (_parseClass path (node_value arg0)
                                 (nth_error arguments 1))
           end
  | _ => Some (inl TypeError)
  end.

(** The extractor raises no error on [candidate]. *)
Definition extracts (path : string) (candidate : Ast) : bool :=
  match extract_call path candidate with
  | Some (inl _) => false
  | _ => true
  end.

(** The records of the calls of [qx.Class.define] among
    [candidates], in order. *)
Definition extracted (path : string) (candidates : list Ast)
  : list ClassInfo :=
  flat_map (fun c => match extract_call path c with
                     | Some (inr cls) => [cls]
                     | _ => []
                     end) candidates.

(** [candidate] defines a class whose name [table] holds under
    another path. *)
Definition conflicting (path : string)
    (table : list (JsVal * ClassInfo)) (candidate : Ast) : Prop :=
  is_define_call candidate = true /\
  exists n prev, call_name candidate = Some n /\
                 JsMap.get n table = Some prev /\ srcPath prev <> path.

(** The last record of [l] named [n]. *)
Fixpoint last_named (n : JsVal) (l : list ClassInfo) : option ClassInfo :=
  match l with
  | [] => None
  | c :: l' =>
      match last_named n l' with
      | Some c' => Some c'
      | None => if eq_dec n (name c) then Some c else None
      end
  end.

(** The test [prev != null && prev.srcPath !== path]. *)
Definition conflictb (path : string) (table : list (JsVal * ClassInfo))
    (cls : ClassInfo) : bool :=
  match JsMap.get (name cls) table with
  | Some prev => negb (srcPath prev =? path)
  | None => false
  end.

(** The claim that the records extracted before a conflicting call
    stay in the class table when [checkFile] raises the duplicate
    error. *)
Definition earlier_records_remain (fs : FileSystem) (path : string)
    (s : SrcMgr) : Prop :=
  fst (checkFile fs path s) = Throw DuplicateClassName ->
  forall src t before call after,
    fs path = ReadOk src ->
    parseScript src = Some t ->
    query t = before ++ call :: after ->
    conflicting path (classes s) call ->
    forall cls, In cls (extracted path before) ->
      JsMap.get (name cls) (classes (snd (checkFile fs path s)))
      = Some cls.

(** The retraction of several paths, one after the other. *)
Definition retract_all (paths : list string) (s : SrcMgr) : SrcMgr :=
  fold_left (fun s q => snd (_removeSrc q s)) paths s.

(** [c'] is a record of the same class as [c]. *)
Definition same_identity (c c' : ClassInfo) : Prop :=
  srcPath c' = srcPath c /\ name c' = name c /\ bodyT c' = bodyT c.

(** The methods a list of [members] entries yields. *)
Definition member_methods (ps : list (Ast * Ast)) : list Tag :=
  flat_map (fun prop =>
    match snd prop with
    | FunctionExpression _ params _ =>
        [{| tag_name := key_name (fst prop); tag_t := snd prop;
            tag_signature :=
              Some ("(" ++ String.concat ", " (map generate params)
                        ++ ")")%string |}]
    | _ => []
    end) ps.

(** The properties a list of [members] entries yields. *)
Definition member_properties (ps : list (Ast * Ast)) : list Tag :=
  flat_map (fun prop =>
    match snd prop with
    | FunctionExpression _ _ _ => []
    | v =>
        [{| tag_name := key_name (fst prop); tag_t := v;
            tag_signature := Some ("(=" ++ generate v ++ ")")%string |}]
    end) ps.

End RegistryProperties.

(* ================================================================== *)
(** ** The record layout of the tag file *)

Definition optional_field (label : string) (x : option string)
  : list string :=
  match x with
  | Some v => [(label ++ v)%string]
  | None => []
  end.


(** Every member name of the registry is a string. *)
Definition string_named (m : Tag) : Prop :=
  exists s, tag_name m = VString s.

Definition members_string_named (cls : ClassInfo) : Prop :=
  Forall string_named
    (include cls ++ implement cls ++ methods cls ++ properties cls ++
     statics cls ++ events cls).



(** The members of a class and their records, in the order of the
    emitter. *)
Definition members_emitted (cls : ClassInfo) (ms : list (list string))
  : Prop :=
  Forall2 (fun m r => member_tags cls m = inr r)
          (sort_members (collect_members cls)) ms.

(* ================================================================== *)
(** ** The tag file as the format description has it *)

(** The fields of a record with a tab, the character of code 9,
    between them. *)
Definition spec_fields (fields : list string) : string :=
  String.concat (String "009"%char EmptyString) fields.

(** A record as it is written: its fields and a line feed, the
    character of code 10. *)
Definition spec_line (fields : list string) : string :=
  (spec_fields fields ++ String "010"%char EmptyString)%string.

(** The header: four lines. *)
Definition spec_header : string :=
  String.concat ""
    (map spec_line
       [ ["!_TAG_FILE_FORMAT"; "2"];
         ["!_TAG_FILE_SORTED"; "1"; "/0=unsorted, 1=sorted/"];
         ["!_TAG_PROGRAM_NAME"; "qxtags"];
         ["!_TAG_PROGRAM_VERSION"; "0.1"] ]).

(** The third field: the line, a semicolon and a double quote, the
    character of code 34. *)
Definition spec_line_mark (n : nat) : string :=
  (string_of_nat n ++ ";" ++ String "034"%char EmptyString)%string.

(** A member entry as the emitter needs it: the kind character and,
    of the entry, the name, the line of its node and the signature
    when it has one. *)
Definition spec_entry (kindChar : string) (t : Tag) : Member :=
  {| kind := kindChar; member_name := tag_name t;
     lineno := start_line (tag_t t); signature := tag_signature t |}.

(** The member entries of a class in the order of encounter:
    includes, implements, methods, properties, statics and events,
    each list in the order of extraction. *)
Definition encountered (cls : ClassInfo) : list Member :=
  map (spec_entry "n") (include cls) ++
  map (spec_entry "i") (implement cls) ++
  map (spec_entry "m") (methods cls) ++
  map (spec_entry "p") (properties cls) ++
  map (spec_entry "s") (statics cls) ++
  map (spec_entry "e") (events cls).

(** The record of the class itself. *)
Definition spec_class_record (cls : ClassInfo) : list string :=
  [ join_elem (name cls); srcPath cls;
    spec_line_mark (start_line (bodyT cls)); "c";
    ("line:" ++ string_of_nat (start_line (bodyT cls)))%string;
    "type:class" ].

(** The record of the superclass reference [x]. *)
Definition spec_extends_record (cls : ClassInfo) (x : Tag) : list string :=
  [ join_elem (tag_name x); srcPath cls;
    spec_line_mark (start_line (tag_t x)); "x";
    ("line:" ++ string_of_nat (start_line (tag_t x)))%string;
    ("ctype:" ++ toString (name cls))%string ].

(** The level inferred from the underscores a name starts with. *)
Definition spec_access (nm : string) : string :=
  if prefix "__" nm then "protected"
  else if prefix "_" nm then "private"
  else "public".

(** The record of the member [m], whose name is the string [nm]: the
    signature field is there exactly when the entry has a
    signature. *)
Definition spec_member_record (cls : ClassInfo) (m : Member) (nm : string)
  : list string :=
  [ nm; srcPath cls; spec_line_mark (lineno m); kind m;
    ("line:" ++ string_of_nat (lineno m))%string;
    ("ctype:" ++ toString (name cls))%string;
    ("access:" ++ spec_access nm)%string ]
  ++ optional_field "signature:" (signature m).






(* ================================================================== *)
(** ** The extractor, section by section *)

(** [t.key.name === key] *)
Definition key_is (key : string) (t : Ast * Ast) : bool :=
  match node_name (fst t) with
  | Some k => k =? key
  | None => false
  end.

(** The value of the last entry of [props] under [key]. *)
Fixpoint last_value (key : string) (props : list (Ast * Ast))
  : option Ast :=
  match props with
  | [] => None
  | t :: rest =>
      match last_value key rest with
      | Some v => Some v
      | None => if key_is key t then Some (snd t) else None
      end
  end.

(** [valT] is no array literal with a hole. *)
Definition no_hole (valT : Ast) : bool :=
  match valT with
  | ArrayExpression _ elements =>
      forallb (fun t => match t with Some _ => true | None => false end)
              elements
  | _ => true
  end.

(** The sections whose handler reads [valT.params] or iterates
    [valT.properties] need these fields, and those whose handler maps
    over [valT.elements] need every element. *)
Definition section_ok (t : Ast * Ast) : bool :=
  if key_is "construct" t || key_is "destruct" t then
    match node_params (snd t) with Some _ => true | None => false end
  else if key_is "statics" t || key_is "members" t
          || key_is "properties" t || key_is "events" t then
    match node_properties (snd t) with Some _ => true | None => false end
  else if key_is "include" t || key_is "implement" t then no_hole (snd t)
  else true.

(** The entries of the value of a section, none when it is not an
    object literal. *)
Definition entries (valT : Ast) : list (Ast * Ast) :=
  match node_properties valT with
  | Some props => props
  | None => []
  end.

(** The key of an object entry gives a string as name: an identifier
    or a string literal. *)
Definition string_key (key : Ast) : bool :=
  match key with
  | Identifier _ _ => true
  | Literal _ (VString _) => true
  | _ => false
  end.

(** The entries that become members: those of the sections [statics],
    [members], [properties] and [events]. *)
Definition member_entries (props : list (Ast * Ast)) : list (Ast * Ast) :=
  flat_map (fun t =>
    if key_is "statics" t || key_is "members" t
       || key_is "properties" t || key_is "events" t
    then entries (snd t) else []) props.

(** The record is that of a class: its fourth field is [c]. *)
Definition class_kind (fields : list string) : bool :=
  match nth_error fields 3 with
  | Some k => k =? "c"
  | None => false
  end.

Section SectionLists.
Context `{Collaborators}.

(** What one section adds to the methods. *)
Definition section_methods (t : Ast * Ast) : list Tag :=
  if key_is "construct" t then
    match special_method "[constructor]" (snd t) with
    | inr m => [m]
    | inl _ => []
    end
  else if key_is "destruct" t then
    match special_method "[destructor]" (snd t) with
    | inr m => [m]
    | inl _ => []
    end
  else if key_is "members" t then member_methods (entries (snd t))
  else [].

(** What one section adds to the properties. *)
Definition section_properties (t : Ast * Ast) : list Tag :=
  if key_is "members" t then member_properties (entries (snd t))
  else if key_is "properties" t then map plain_tag (entries (snd t))
  else [].

(** What one section adds to the statics. *)
Definition section_statics (t : Ast * Ast) : list Tag :=
  if key_is "statics" t then map plain_tag (entries (snd t)) else [].

(** What one section adds to the events. *)
Definition section_events (t : Ast * Ast) : list Tag :=
  if key_is "events" t then map plain_tag (entries (snd t)) else [].

(** What one turn of the loop of [_parseClass] does to the record. *)
Definition section_effect (c : ClassInfo) (t : Ast * Ast) (c1 : ClassInfo)
  : Prop :=
  srcPath c1 = srcPath c /\ name c1 = name c /\ bodyT c1 = bodyT c /\
  type c1 = (if key_is "type" t then Some (generate (snd t)) else type c) /\
  extend c1 = (if key_is "extend" t then Some (ref_tag (snd t))
               else extend c) /\
  (if key_is "include" t then ref_tags (snd t) = inr (include c1)
   else include c1 = include c) /\
  (if key_is "implement" t then ref_tags (snd t) = inr (implement c1)
   else implement c1 = implement c) /\
  methods c1 = methods c ++ section_methods t /\
  properties c1 = properties c ++ section_properties t /\
  statics c1 = statics c ++ section_statics t /\
  events c1 = events c ++ section_events t.

(** What the whole loop does, from the record [c] it starts with. *)
Definition sections_effect (c : ClassInfo) (props : list (Ast * Ast))
    (c' : ClassInfo) : Prop :=
  srcPath c' = srcPath c /\ name c' = name c /\ bodyT c' = bodyT c /\
  type c' = match last_value "type" props with
            | Some v => Some (generate v)
            | None => type c
            end /\
  extend c' = match last_value "extend" props with
              | Some v => Some (ref_tag v)
              | None => extend c
              end /\
  match last_value "include" props with
  | Some v => ref_tags v = inr (include c')
  | None => include c' = include c
  end /\
  match last_value "implement" props with
  | Some v => ref_tags v = inr (implement c')
  | None => implement c' = implement c
  end /\
  methods c' = methods c ++ flat_map section_methods props /\
  properties c' = properties c ++ flat_map section_properties props /\
  statics c' = statics c ++ flat_map section_statics props /\
  events c' = events c ++ flat_map section_events props.
End SectionLists.


(* ================================================================== *)
(** ** The directory index: [DirMgr.scan] *)

(** [fs.readdirSync(path)]: the names, or an error with a [code]. *)
Inductive ReaddirResult : Type :=
| ReaddirOk (names : list string)
| ReaddirFail (code : string).

(** What [scan] asks of the result of [fs.statSync]: [isDirectory()],
    else [isFile()]. *)
Inductive StatKind : Type :=
| IsDirectory
| IsFile
| IsOther.

Inductive StatResult : Type :=
| StatOk (st : StatKind)
| StatFail (code : string).

(** The three calls of [fs] that [scan] reaches. *)
Record Disk : Type := {
  readFileSync : FileSystem;
  readdirSync : string -> ReaddirResult;
  statSync : string -> StatResult
}.

(** [pathlib.join] *)
Class PathLib : Type := {
  join : string -> string -> string
}.

(** [s.endsWith(suffix)] *)
Definition endsWith (s suffix : string) : bool :=
  (String.length suffix <=? String.length s)%nat &&
  (substring (String.length s - String.length suffix)
             (String.length suffix) s =? suffix).

(** [this.dirs.add(path)] *)
Definition dirs_add (path : string) (dirs : list string) : list string :=
  if existsb (String.eqb path) dirs then dirs else dirs ++ [path].

Section Scan.
Context `{Collaborators} `{PathLib}.

(** [for (let name of names)]: the completion, the queue and the
    registry afterwards. *)
Fixpoint scan_names (disk : Disk) (path : string) (names : list string)
    (dirQ : list string) (s : SrcMgr)
  : Completion unit * list string * SrcMgr :=
  match names with
  | [] => (Normal tt, dirQ, s)
  | name :: rest =>
      let path2 := join path name in
      match statSync disk path2 with
      | StatFail code => (Throw (SystemError code), dirQ, s)
      | StatOk IsDirectory =>
          scan_names disk path rest (dirQ ++ [path2]) s
      | StatOk IsFile =>
          if endsWith path2 ".js" then
            match checkFile (readFileSync disk) path2 s with
            | (Throw e, s') => (Throw e, dirQ, s')
            | (Normal _, s') => scan_names disk path rest dirQ s'
            end
          else scan_names disk path rest dirQ s
      | StatOk IsOther => scan_names disk path rest dirQ s
      end
  end.

(** [while (true)], at most [fuel] turns of it: [None] when the loop
    has not ended by then, else the completion, the index and the
    events emitted so far. *)
Fixpoint scan_loop (fuel : nat) (disk : Disk) (dirQ : list string)
    (d : DirMgr) (emitted : list Event)
  : option (Completion unit * DirMgr * list Event) :=
  match fuel with
  | 0 => None
  | S fuel' =>
      match dirQ with
      | [] => Some (Normal tt, d, emitted)
      | path :: dirQ' =>
          if path =? "" then Some (Normal tt, d, emitted)
          else
            match readdirSync disk path with
            | ReaddirFail code =>
                if code =? "ENOENT" then
                  match _rm (readFileSync disk) path d with
                  | (Throw e, d', evs) => Some (Throw e, d', emitted ++ evs)
                  | (Normal _, d', evs) =>
                      scan_loop fuel' disk dirQ' d' (emitted ++ evs)
                  end
                else Some (Throw (SystemError code), d, emitted)
            | ReaddirOk names =>
                if existsb (String.eqb path) (dirs d) then
                  scan_loop fuel' disk dirQ' d emitted
                else
                  match scan_names disk path names dirQ' (srcm d) with
                  | (Throw e, _, s') =>
                      Some (Throw e, {| dirs := dirs d; srcm := s' |},
                            emitted)
                  | (Normal _, dirQ'', s') =>
                      let newlyAdded :=
                        negb (existsb (String.eqb path) (dirs d)) in
                      scan_loop fuel' disk dirQ''
                        {| dirs := dirs_add path (dirs d); srcm := s' |}
                        (if newlyAdded then emitted ++ [EvAdd path]
                         else emitted)
                  end
            end
      end
  end.

Definition scan (fuel : nat) (disk : Disk) (path : string) (d : DirMgr)
  : option (Completion unit * DirMgr * list Event) :=
  if negb (path =? resolve path) then Some (Throw AssertionError, d, [])
  else scan_loop fuel disk [path] d [].
End Scan.

(* ================================================================== *)
(** ** The program: one [checkFile] per argument, then the tags *)

Section Main.
Context `{Collaborators}.

(** The registry after the loop over [process.argv.slice(2)]. *)
Definition main_registry (fs : FileSystem) (args : list string)
  : Completion unit * SrcMgr :=
  check_each fs (map resolve args) new_SrcMgr.

(** What the program prints: the tags and the line end of
    [console.log]. *)
Definition main (fs : FileSystem) (args : list string)
  : Completion string :=
  match main_registry fs args with
  | (Throw e, _) => Throw e
  | (Normal _, sm) =>
      match genCtags sm with
      | Throw e => Throw e
      | Normal text => Normal (text ++ newline)%string
      end
  end.
End Main.

(** The files [scan] checks in a directory: the entries that are
    files and whose path ends in [.js]. *)
Definition js_files `{PathLib} (disk : Disk) (path : string)
    (names : list string) : list string :=
  filter (fun path2 =>
            match statSync disk path2 with
            | StatOk IsFile => endsWith path2 ".js"
            | _ => false
            end)
         (map (join path) names).

(* ================================================================== *)
(** ** A small world to run the definitions in *)

Module Sample.

(** The text of a plain parameter. *)
Definition param_text (p : Ast) : string :=
  match node_name p with
  | Some n => n
  | None => ""
  end.

(** A stand-in for the code generator: the text of names, literals,
    opaque nodes and functions with plain parameters. *)
Definition sample_generate (t : Ast) : string :=
  match t with
  | Identifier _ n => n
  | Literal _ v => toString v
  | OtherNode _ src => src
  | FunctionExpression _ params body =>
      ("function (" ++ String.concat ", " (map param_text params)
         ++ ") " ++ body)%string
  | ArrowFunctionExpression _ params body =>
      ("(" ++ String.concat ", " (map param_text params)
         ++ ") => " ++ body)%string
  | _ => ""
  end.

(** The call [qx.Class.define("clsname", body)] at [line]. *)
Definition define_call (line : nat) (clsname : string) (body : Ast)
  : Ast :=
  CallExpression line (OtherNode line "qx.Class.define")
    [Literal line (VString clsname); body].

(** The statement made of that call. *)
Definition define (line : nat) (clsname : string) (body : Ast)
  : Statement :=
  ExpressionStatement (define_call line clsname body).

Definition prog_F1 : Program :=
  [define 1 "X" (ObjectExpression 1 [])].

Definition prog_F2 : Program :=
  [define 1 "A" (ObjectExpression 1 []);
   define 3 "X" (ObjectExpression 3 [])].

Definition twice_body1 : Ast :=
  ObjectExpression 1
    [(Identifier 2 "type", Literal 2 (VString "abstract"))].

Definition twice_body2 : Ast := ObjectExpression 5 [].

Definition prog_twice : Program :=
  [define 1 "X" twice_body1; define 5 "X" twice_body2].

(** The records of the two calls of [prog_twice]. *)
Definition twice_cls1 : ClassInfo :=
  {| srcPath := "/twice.js"; name := VString "X"; bodyT := twice_body1;
     type := Some "abstract"; extend := None; include := [];
     implement := []; methods := []; properties := []; statics := [];
     events := [] |}.

Definition twice_cls2 : ClassInfo :=
  {| srcPath := "/twice.js"; name := VString "X"; bodyT := twice_body2;
     type := None; extend := None; include := []; implement := [];
     methods := []; properties := []; statics := []; events := [] |}.

(** The record [/F1.js] registers. *)
Definition F1_cls : ClassInfo :=
  {| srcPath := "/F1.js"; name := VString "X";
     bodyT := ObjectExpression 1 [];
     type := None; extend := None; include := []; implement := [];
     methods := []; properties := []; statics := []; events := [] |}.

(** The record of the first call of [prog_F2]. *)
Definition F2_cls_A : ClassInfo :=
  {| srcPath := "/F2.js"; name := VString "A";
     bodyT := ObjectExpression 1 [];
     type := None; extend := None; include := []; implement := [];
     methods := []; properties := []; statics := []; events := [] |}.

Definition prog_Foo : Program :=
  [define 1 "app.Foo"
     (ObjectExpression 1
        [(Identifier 2 "extend", OtherNode 2 "qx.core.Object");
         (Identifier 3 "members",
          ObjectExpression 3
            [(Identifier 4 "bar", FunctionExpression 4 [] "{}");
             (Identifier 5 "baz", Literal 5 VNull)])])].

Definition prog_Q : Program :=
  [define 1 "Q" (ObjectExpression 1 [])].

(** A class [X] whose constructor is given by name:
    [construct: Ctor]. *)
Definition named_ctor_body : Ast :=
  ObjectExpression 1 [(Identifier 2 "construct", Identifier 2 "Ctor")].

Definition prog_named_ctor : Program := [define 1 "X" named_ctor_body].

(** The member [f: (x) => x]. *)
Definition arrow_member : Ast * Ast :=
  (Identifier 4 "f", ArrowFunctionExpression 4 [Identifier 4 "x"] "x").

Definition prog_R : Program :=
  [define 1 "R" (ObjectExpression 1 [])].

Definition prog_S : Program :=
  [define 1 "S" (ObjectExpression 1 [])].

(** A class whose members are not written in the order of the
    emitter: the mixin of line 6 is collected first; the properties
    [a] of line 3 and [c] of line 5 are collected after the methods
    [b] of line 4 and [d] of line 5; [c] and [d] share line 5, where
    [c] is written first. *)
Definition prog_Mix : Program :=
  [define 1 "Mix"
     (ObjectExpression 1
        [(Identifier 2 "members",
          ObjectExpression 2
            [(Identifier 3 "a", Literal 3 VNull);
             (Identifier 4 "b", FunctionExpression 4 [] "{}");
             (Identifier 5 "c", Literal 5 VNull);
             (Identifier 5 "d", FunctionExpression 5 [] "{}")]);
         (Identifier 6 "include", OtherNode 6 "MA")])].

(** A class with the numeric member key [1]. *)
Definition prog_Num : Program :=
  [define 1 "N"
     (ObjectExpression 1
        [(Identifier 2 "members",
          ObjectExpression 2
            [(Literal 3 (VNumber "1"), FunctionExpression 3 [] "{}")])])].

(** A class with a static member whose quoted key holds a line feed
    between [a] and [b]. *)
Definition prog_Brk : Program :=
  [define 1 "B"
     (ObjectExpression 1
        [(Identifier 2 "statics",
          ObjectExpression 2
            [(Literal 3 (VString (String "a" (String "010"%char "b"))),
              Literal 3 VNull)])])].

(** A stand-in for the parser: the texts it knows. *)
Definition sample_parse (src : string) : option Program :=
  if src =? "F1" then Some prog_F1
  else if src =? "F2" then Some prog_F2
  else if src =? "twice" then Some prog_twice
  else if src =? "Foo" then Some prog_Foo
  else if src =? "Q" then Some prog_Q
  else if src =? "named_ctor" then Some prog_named_ctor
  else if src =? "R" then Some prog_R
  else if src =? "S" then Some prog_S
  else if src =? "Mix" then Some prog_Mix
  else if src =? "Num" then Some prog_Num
  else if src =? "Brk" then Some prog_Brk
  else None.

Definition collab : Collaborators :=
  {| parseScript := sample_parse;
     generate := sample_generate;
     resolve := fun path => path |}.

Definition sample_fs : FileSystem := fun path =>
  if path =? "/F1.js" then ReadOk "F1"
  else if path =? "/F2.js" then ReadOk "F2"
  else if path =? "/twice.js" then ReadOk "twice"
  else if path =? "/Foo.js" then ReadOk "Foo"
  else if path =? "/named_ctor.js" then ReadOk "named_ctor"
  else if path =? "/r/sub/f.js" then ReadOk "Q"
  else if path =? "/r/other/g.js" then ReadOk "R"
  else if path =? "/r/sub2/h.js" then ReadOk "S"
  else if path =? "/locked.js" then ReadFail "EACCES"
  else if path =? "/Mix.js" then ReadOk "Mix"
  else if path =? "/Num.js" then ReadOk "Num"
  else if path =? "/Brk.js" then ReadOk "Brk"
  else ReadFail "ENOENT".

(** [sample_fs] after the directory [/r/sub] was deleted, with only
    [/r/other] beside it. *)
Definition sample_fs_after : FileSystem := fun path =>
  if path =? "/r/other/g.js" then ReadOk "R"
  else ReadFail "ENOENT".


(** The registry after [checkFile("/F1.js")]. *)
Definition after_F1 : SrcMgr :=
  snd (@checkFile collab sample_fs "/F1.js" new_SrcMgr).

(** The registry after [checkFile("/Foo.js")]. *)
Definition after_Foo : SrcMgr :=
  snd (@checkFile collab sample_fs "/Foo.js" new_SrcMgr).




(** The index after a scan of [/r]. *)
Definition after_scan : DirMgr :=
  {| dirs := ["/r/sub"; "/r/other"; "/r"];
     srcm := snd (@checkFile collab sample_fs "/r/other/g.js"
                    (snd (@checkFile collab sample_fs "/r/sub/f.js"
                            new_SrcMgr))) |}.


(** [pathlib.join] on a directory and a name. *)
Definition sample_join : PathLib :=
  {| join := fun dir entry => (dir ++ "/" ++ entry)%string |}.

(** The tree under [/r]: the directories [sub] with [f.js] and
    [other] with [g.js] and [notes.txt]. *)
Definition sample_disk : Disk :=
  {| readFileSync := sample_fs;
     readdirSync := fun path =>
       if path =? "/r" then ReaddirOk ["sub"; "other"]
       else if path =? "/r/sub" then ReaddirOk ["f.js"]
       else if path =? "/r/other" then ReaddirOk ["g.js"; "notes.txt"]
       else ReaddirFail "ENOENT";
     statSync := fun path =>
       if (path =? "/r/sub") || (path =? "/r/other") then StatOk IsDirectory
       else if (path =? "/r/sub/f.js") || (path =? "/r/other/g.js")
               || (path =? "/r/other/notes.txt") then StatOk IsFile
       else StatFail "ENOENT" |}.

(** A new index. *)
Definition new_DirMgr : DirMgr := {| dirs := []; srcm := new_SrcMgr |}.

(** The index a scan of [/r] builds from a new one. *)
Definition scanned : DirMgr :=
  {| dirs := ["/r"; "/r/sub"; "/r/other"];
     srcm := snd (@checkFile collab sample_fs "/r/other/g.js"
                    (snd (@checkFile collab sample_fs "/r/sub/f.js"
                            new_SrcMgr))) |}.

(** The index after a scan of [/r/sub] alone. *)
Definition scanned_sub : DirMgr :=
  {| dirs := ["/r/sub"];
     srcm := snd (@checkFile collab sample_fs "/r/sub/f.js" new_SrcMgr) |}.

(** The body of [app.Foo] in [prog_Foo]. *)
Definition Foo_props : list (Ast * Ast) :=
  [(Identifier 2 "extend", OtherNode 2 "qx.core.Object");
   (Identifier 3 "members",
    ObjectExpression 3
      [(Identifier 4 "bar", FunctionExpression 4 [] "{}");
       (Identifier 5 "baz", Literal 5 VNull)])].

(** The record of [app.Foo]. *)
Definition Foo_cls : ClassInfo :=
  {| srcPath := "/Foo.js"; name := VString "app.Foo";
     bodyT := ObjectExpression 1 Foo_props;
     type := None;
     extend := Some {| tag_name := VString "qx.core.Object";
                       tag_t := OtherNode 2 "qx.core.Object";
                       tag_signature := None |};
     include := []; implement := [];
     methods := [{| tag_name := VString "bar";
                    tag_t := FunctionExpression 4 [] "{}";
                    tag_signature := Some "()" |}];
     properties := [{| tag_name := VString "baz";
                       tag_t := Literal 5 VNull;
                       tag_signature := Some "(=null)" |}];
     statics := []; events := [] |}.

(** The registry after [checkFile("/F1.js")] and
    [checkFile("/Foo.js")]. *)
Definition after_F1_Foo : SrcMgr :=
  snd (@checkFile collab sample_fs "/Foo.js" after_F1).

End Sample.

(* ================================================================== *)
(** * Proofs *)

(** ** The ordered map *)

Section JsMapFacts.
Context {K V : Type} `{EqDec K}.
Implicit Types (k : K) (v : V) (m : list (K * V)).

Lemma get_set_same k v m : JsMap.get k (JsMap.set k v m) = Some v.
Proof.
  induction m as [|[k' v'] m IH]; simpl.
  - destruct (eq_dec k k); congruence.
  - destruct (eq_dec k k') as [->|Hne]; simpl.
    + destruct (eq_dec k' k'); congruence.
    + destruct (eq_dec k k'); congruence.
Qed.

Lemma get_set_other k k' v m :
  k <> k' -> JsMap.get k' (JsMap.set k v m) = JsMap.get k' m.
Proof.
  intros Hne. induction m as [|[k0 v0] m IH]; simpl.
  - destruct (eq_dec k' k); congruence.
  - destruct (eq_dec k k0) as [->|Hk]; simpl.
    + destruct (eq_dec k' k0); congruence.
    + destruct (eq_dec k' k0); congruence.
Qed.

Lemma get_delete_same k m : JsMap.get k (JsMap.delete k m) = None.
Proof.
  unfold JsMap.delete.
  induction m as [|[k' v'] m IH]; simpl; [reflexivity|].
  destruct (eq_dec k k') as [->|Hne]; simpl; [exact IH|].
  destruct (eq_dec k k'); congruence.
Qed.

Lemma get_delete_other k k' m :
  k <> k' -> JsMap.get k' (JsMap.delete k m) = JsMap.get k' m.
Proof.
  intros Hne. unfold JsMap.delete.
  induction m as [|[k0 v0] m IH]; simpl; [reflexivity|].
  destruct (eq_dec k k0) as [->|Hk]; simpl.
  - destruct (eq_dec k' k0); congruence.
  - destruct (eq_dec k' k0); congruence.
Qed.

Lemma delete_absent k m : JsMap.get k m = None -> JsMap.delete k m = m.
Proof.
  unfold JsMap.delete.
  induction m as [|[k' v'] m IH]; simpl; [reflexivity|].
  destruct (eq_dec k k') as [->|Hne]; [discriminate|].
  intros Hg. now rewrite IH.
Qed.

Lemma set_absent k v m :
  JsMap.get k m = None -> JsMap.set k v m = m ++ [(k, v)].
Proof.
  induction m as [|[k' v'] m IH]; simpl; [reflexivity|].
  destruct (eq_dec k k') as [->|Hne]; [discriminate|].
  intros Hg. now rewrite IH.
Qed.

Lemma delete_app k m1 m2 :
  JsMap.delete k (m1 ++ m2) = JsMap.delete k m1 ++ JsMap.delete k m2.
Proof. unfold JsMap.delete. apply filter_app. Qed.

Lemma delete_set_absent k v m :
  JsMap.get k m = None -> JsMap.delete k (JsMap.set k v m) = m.
Proof.
  intros Hg. rewrite (set_absent k v m Hg), delete_app, (delete_absent k m Hg).
  unfold JsMap.delete; simpl.
  destruct (eq_dec k k); [apply app_nil_r | congruence].
Qed.

(** Deleting [k] undoes every entry written under [k]. *)
Lemma delete_set k v m :
  JsMap.delete k (JsMap.set k v m) = JsMap.delete k m.
Proof.
  unfold JsMap.delete.
  induction m as [|[k' v'] m IH]; simpl.
  - destruct (eq_dec k k); [reflexivity | congruence].
  - destruct (eq_dec k k') as [->|Hne]; simpl.
    + destruct (eq_dec k' k'); [reflexivity | congruence].
    + destruct (eq_dec k k'); [congruence | now rewrite IH].
Qed.

Lemma delete_comm k k' m :
  JsMap.delete k (JsMap.delete k' m) = JsMap.delete k' (JsMap.delete k m).
Proof.
  unfold JsMap.delete.
  induction m as [|[k0 v0] m IH]; simpl; [reflexivity|].
  destruct (eq_dec k' k0), (eq_dec k k0); simpl;
    repeat match goal with
           | |- context [eq_dec ?a ?b] => destruct (eq_dec a b)
           end; congruence.
Qed.

Lemma delete_set_other k k' v m :
  k <> k' ->
  JsMap.delete k (JsMap.set k' v m) = JsMap.set k' v (JsMap.delete k m).
Proof.
  intros Hne. unfold JsMap.delete.
  induction m as [|[k0 v0] m IH]; simpl.
  - destruct (eq_dec k k'); [congruence | reflexivity].
  - destruct (eq_dec k' k0) as [->|Hk]; simpl.
    + destruct (eq_dec k k0); [congruence|]. simpl.
      destruct (eq_dec k0 k0); congruence.
    + destruct (eq_dec k k0) as [->|Hk0]; simpl; [exact IH|].
      destruct (eq_dec k' k0); [congruence|]. now rewrite IH.
Qed.


Lemma in_keys_get k m :
  In k (JsMap.keys m) -> exists v, JsMap.get k m = Some v.
Proof.
  unfold JsMap.keys.
  induction m as [|[k' v'] m IH]; simpl; [tauto|].
  intros [<-|Hin].
  - destruct (eq_dec k' k'); [eauto | congruence].
  - destruct (eq_dec k k'); eauto.
Qed.
End JsMapFacts.

(** ** The extractor keeps the identity of the record it fills *)

Section ExtractorFacts.
Context `{Collaborators}.

Lemma same_identity_refl c : same_identity c c.
Proof. repeat split. Qed.

Lemma same_identity_trans c1 c2 c3 :
  same_identity c1 c2 -> same_identity c2 c3 -> same_identity c1 c3.
Proof. unfold same_identity. intuition congruence. Qed.

Lemma fold_left_same_identity (body : ClassInfo -> Ast * Ast -> ClassInfo)
    props :
  (forall c p, same_identity c (body c p)) ->
  forall c, same_identity c (fold_left body props c).
Proof.
  intros Hbody. induction props as [|p props IH]; intros c; simpl.
  - apply same_identity_refl.
  - eapply same_identity_trans; [apply Hbody | apply IH].
Qed.

Lemma members_entry_same_identity c p :
  same_identity c (members_entry c p).
Proof.
  unfold members_entry. destruct (snd p); repeat split.
Qed.

Lemma each_property_same_identity valT body c c' :
  (forall c p, same_identity c (body c p)) ->
  each_property valT body c = inr c' -> same_identity c c'.
Proof.
  intros Hbody. unfold each_property.
  destruct (node_properties valT); [|discriminate].
  intros [= <-]. now apply fold_left_same_identity.
Qed.

Lemma parse_section_same_identity c t c' :
  parse_section c t = inr c' -> same_identity c c'.
Proof.
  unfold parse_section.
  destruct (node_name (fst t)) as [key|];
    [|intros [= <-]; apply same_identity_refl].
  repeat match goal with
         | |- context [if ?b then _ else _] => destruct b
         end;
    try (intros [= <-]; repeat split);
    try (apply each_property_same_identity; intros; try repeat split;
         apply members_entry_same_identity).
  - destruct (ref_tags _); [discriminate|].
    intros [= <-]; repeat split.
  - destruct (ref_tags _); [discriminate|].
    intros [= <-]; repeat split.
  - destruct (special_method _ _); [discriminate|].
    intros [= <-]; repeat split.
  - destruct (special_method _ _); [discriminate|].
    intros [= <-]; repeat split.
Qed.

Lemma foldM_parse_section_same_identity props :
  forall c c', foldM parse_section props c = inr c' -> same_identity c c'.
Proof.
  induction props as [|t props IH]; intros c c'; simpl.
  - intros [= <-]. apply same_identity_refl.
  - destruct (parse_section c t) as [e|c1] eqn:E; [discriminate|].
    intros Hrest. eapply same_identity_trans.
    + apply (parse_section_same_identity _ _ _ E).
    + now apply IH.
Qed.

Lemma _parseClass_identity path n body cls :
  _parseClass path n body = inr cls ->
  srcPath cls = path /\ name cls = n.
Proof.
  unfold _parseClass. destruct body as [b|]; [|discriminate].
  destruct (node_properties b) as [props|]; [|discriminate].
  intros Hf. apply foldM_parse_section_same_identity in Hf.
  destruct Hf as (Hp & Hn & _). simpl in *. auto.
Qed.

Lemma extract_call_identity path candidate cls :
  extract_call path candidate = Some (inr cls) ->
  srcPath cls = path /\ call_name candidate = Some (name cls) /\
  is_define_call candidate = true.
Proof.
  unfold extract_call, call_name, is_define_call.
  destruct candidate as [| | | | | |l callee args|]; try discriminate.
  destruct (generate callee =? "qx.Class.define"); simpl; [|discriminate].
  destruct args as [|arg0 args]; simpl; [discriminate|].
  intros [= Hp]. apply _parseClass_identity in Hp as [Hp Hn].
  rewrite Hn. auto.
Qed.

Lemma extracted_srcPath path candidates c :
  In c (extracted path candidates) -> srcPath c = path.
Proof.
  unfold extracted. rewrite in_flat_map. intros (cand & _ & Hc).
  destruct (extract_call path cand) as [[e|cls]|] eqn:E;
    simpl in Hc; try tauto.
  destruct Hc as [<-|[]]. now apply extract_call_identity in E.
Qed.

Lemma extracted_app path l1 l2 :
  extracted path (l1 ++ l2) = extracted path l1 ++ extracted path l2.
Proof. unfold extracted. apply flat_map_app. Qed.
End ExtractorFacts.

(** ** The loop of [_parseClasses] *)

Section LoopFacts.
Context `{Collaborators}.

Lemma parse_candidates_cons path table candidate rest acc :
  parse_candidates path table (candidate :: rest) acc =
  match extract_call path candidate with
  | None => parse_candidates path table rest acc
  | Some (inl e) => inl e
  | Some (inr cls) =>
      if conflictb path table cls then inl DuplicateClassName
      else parse_candidates path table rest (acc ++ [cls])
  end.
Proof.
  unfold extract_call, conflictb.
  destruct candidate as [| | | | | |l callee args|]; try reflexivity.
  simpl. destruct (generate callee =? "qx.Class.define"); simpl;
    [|reflexivity].
  destruct args as [|arg0 args]; simpl; [reflexivity|].
  destruct (_parseClass path (node_value arg0) _)
    as [e|cls] eqn:E; [reflexivity|].
  apply _parseClass_identity in E as [_ ->].
  destruct (JsMap.get (node_value arg0) table) as [prev|]; [|reflexivity].
  destruct (negb (srcPath prev =? path)); reflexivity.
Qed.

Lemma special_method_error display valT e :
  special_method display valT = inl e -> e = TypeError.
Proof.
  unfold special_method. destruct (node_params valT); congruence.
Qed.

Lemma ref_tags_error valT e : ref_tags valT = inl e -> e = TypeError.
Proof.
  unfold ref_tags. destruct valT as [| |l elements| | | | |];
    try discriminate.
  induction elements as [|t elements IH]; simpl; [discriminate|].
  destruct t as [t|]; simpl; [|congruence].
  destruct (mapM ref_element elements); [|discriminate].
  intros [= <-]. now apply IH.
Qed.

Lemma parse_section_error c t e :
  parse_section c t = inl e -> e = TypeError.
Proof.
  unfold parse_section, each_property.
  destruct (node_name (fst t)) as [key|]; [|discriminate].
  repeat match goal with
         | |- context [if ?b then _ else _] => destruct b
         end; try discriminate;
    try (destruct (node_properties (snd t)); congruence).
  - destruct (ref_tags _) eqn:E; [|discriminate].
    intros [= <-]. eapply ref_tags_error, E.
  - destruct (ref_tags _) eqn:E; [|discriminate].
    intros [= <-]. eapply ref_tags_error, E.
  - destruct (special_method _ _) eqn:E; [|discriminate].
    intros [= <-]. eapply special_method_error, E.
  - destruct (special_method _ _) eqn:E; [|discriminate].
    intros [= <-]. eapply special_method_error, E.
Qed.

Lemma foldM_parse_section_error props :
  forall c e, foldM parse_section props c = inl e -> e = TypeError.
Proof.
  induction props as [|t props IH]; intros c e; simpl; [discriminate|].
  destruct (parse_section c t) as [e1|c1] eqn:E.
  - intros [= <-]. eapply parse_section_error, E.
  - apply IH.
Qed.

Lemma extract_call_error path candidate e :
  extract_call path candidate = Some (inl e) -> e = TypeError.
Proof.
  unfold extract_call, _parseClass.
  destruct candidate as [| | | | | |l callee args|]; try congruence.
  destruct (negb _); [discriminate|].
  destruct (nth_error args 0); [|congruence].
  destruct (nth_error args 1) as [b|]; [|congruence].
  destruct (node_properties b); [|congruence].
  intros [= E]. eapply foldM_parse_section_error, E.
Qed.

Lemma conflictb_conflicting path table candidate cls :
  extract_call path candidate = Some (inr cls) ->
  (conflictb path table cls = true <-> conflicting path table candidate).
Proof.
  intros E. apply extract_call_identity in E as (_ & Hn & Hd).
  unfold conflictb, conflicting. split.
  - destruct (JsMap.get (name cls) table) as [prev|] eqn:G;
      [|discriminate].
    rewrite negb_true_iff, String.eqb_neq. intros Hne.
    split; [exact Hd|]. exists (name cls), prev. auto.
  - intros (_ & n & prev & Hn' & G & Hne).
    assert (n = name cls) as -> by congruence.
    rewrite G. now rewrite negb_true_iff, String.eqb_neq.
Qed.

Lemma conflicting_is_define path table candidate :
  conflicting path table candidate ->
  exists r, extract_call path candidate = Some r.
Proof.
  intros (Hd & _). unfold is_define_call in Hd. unfold extract_call.
  destruct candidate as [| | | | | |l callee args|]; try discriminate.
  rewrite Hd. simpl. destruct args; simpl; eauto.
Qed.

(** The loop ends normally exactly when every call extracts and none
    conflicts; it then returns the extracted records in order. *)
Lemma parse_candidates_inr path table candidates :
  forall acc classes',
  parse_candidates path table candidates acc = inr classes' ->
  classes' = acc ++ extracted path candidates /\
  Forall (fun c => extracts path c = true) candidates /\
  Forall (fun cls => conflictb path table cls = false)
         (extracted path candidates).
Proof.
  induction candidates as [|cand rest IH]; intros acc classes'.
  - simpl. intros [= <-]. rewrite app_nil_r. auto.
  - rewrite parse_candidates_cons.
    change (extracted path (cand :: rest))
      with (match extract_call path cand with
            | Some (inr cls) => [cls]
            | _ => []
            end ++ extracted path rest).
    unfold extracts at 1.
    destruct (extract_call path cand) as [[e|cls]|] eqn:E.
    + discriminate.
    + destruct (conflictb path table cls) eqn:C; [discriminate|].
      intros Hrest. apply IH in Hrest as (-> & Hex & Hc).
      rewrite <- app_assoc. simpl. repeat split; auto.
      constructor; auto. unfold extracts. now rewrite E.
    + intros Hrest. apply IH in Hrest as (-> & Hex & Hc).
      simpl. repeat split; auto.
      constructor; auto. unfold extracts. now rewrite E.
Qed.

Lemma parse_candidates_complete path table candidates :
  forall acc,
  Forall (fun c => extracts path c = true) candidates ->
  Forall (fun cls => conflictb path table cls = false)
         (extracted path candidates) ->
  parse_candidates path table candidates acc =
  inr (acc ++ extracted path candidates).
Proof.
  induction candidates as [|cand rest IH]; intros acc Hex Hc.
  - simpl. now rewrite app_nil_r.
  - rewrite parse_candidates_cons.
    inversion Hex as [|? ? Hx Hex']; subst.
    change (extracted path (cand :: rest))
      with (match extract_call path cand with
            | Some (inr cls) => [cls]
            | _ => []
            end ++ extracted path rest) in *.
    unfold extracts in Hx.
    destruct (extract_call path cand) as [[e|cls]|] eqn:E.
    + discriminate.
    + simpl in Hc. inversion Hc as [|? ? Hc1 Hc']; subst.
      rewrite Hc1, IH by assumption. now rewrite <- app_assoc.
    + simpl in *. now apply IH.
Qed.

(** The duplicate error comes from a conflicting call only. *)
Lemma parse_candidates_duplicate path table candidates :
  forall acc,
  parse_candidates path table candidates acc = inl DuplicateClassName ->
  Exists (conflicting path table) candidates.
Proof.
  induction candidates as [|cand rest IH]; intros acc; [discriminate|].
  rewrite parse_candidates_cons.
  destruct (extract_call path cand) as [[e|cls]|] eqn:E.
  - intros [= ->]. apply extract_call_error in E. discriminate.
  - destruct (conflictb path table cls) eqn:C.
    + intros _. apply Exists_cons_hd.
      now apply (conflictb_conflicting path table cand cls E).
    + intros Hrest. apply Exists_cons_tl. eapply IH, Hrest.
  - intros Hrest. apply Exists_cons_tl. eapply IH, Hrest.
Qed.

(** A conflicting call is reported when every call extracts. *)
Lemma parse_candidates_conflict path table candidates :
  forall acc,
  Forall (fun c => extracts path c = true) candidates ->
  Exists (conflicting path table) candidates ->
  parse_candidates path table candidates acc = inl DuplicateClassName.
Proof.
  induction candidates as [|cand rest IH]; intros acc Hex Hconf.
  - inversion Hconf.
  - rewrite parse_candidates_cons.
    inversion Hex as [|? ? Hx Hex']; subst.
    unfold extracts in Hx.
    destruct (extract_call path cand) as [[e|cls]|] eqn:E.
    + discriminate.
    + destruct (conflictb path table cls) eqn:C; [reflexivity|].
      inversion Hconf as [? ? Hhd|? ? Htl]; subst.
      * apply (conflictb_conflicting path table cand cls E) in Hhd.
        congruence.
      * now apply IH.
    + inversion Hconf as [? ? Hhd|? ? Htl]; subst.
      * apply conflicting_is_define in Hhd as [r Hr]. congruence.
      * now apply IH.
Qed.
End LoopFacts.

(** ** Retraction and registration on the class table *)

Section TableFacts.
Context `{Collaborators}.
Implicit Types (table : list (JsVal * ClassInfo)) (n : JsVal).

Lemma get_delete_classes_absent l :
  forall table n,
  JsMap.get n table = None ->
  JsMap.get n (delete_classes l table) = None.
Proof.
  unfold delete_classes.
  induction l as [|a l IH]; intros table n Hg; simpl; [exact Hg|].
  apply IH. destruct (eq_dec a n) as [->|Hne].
  - apply get_delete_same.
  - now rewrite get_delete_other.
Qed.

Lemma get_delete_classes_in l :
  forall table n,
  In n l -> JsMap.get n (delete_classes l table) = None.
Proof.
  induction l as [|a l IH]; intros table n; simpl; [tauto|].
  destruct (eq_dec a n) as [->|Hne].
  - intros _. apply (get_delete_classes_absent l), get_delete_same.
  - intros [Heq|Hin]; [congruence|]. now apply (IH _ _ Hin).
Qed.

Lemma get_delete_classes_other l :
  forall table n,
  ~ In n l -> JsMap.get n (delete_classes l table) = JsMap.get n table.
Proof.
  unfold delete_classes.
  induction l as [|a l IH]; intros table n Hnin; simpl; [reflexivity|].
  rewrite IH by (simpl in Hnin; tauto).
  apply get_delete_other. simpl in Hnin. tauto.
Qed.

Lemma get_delete_classes_some l table n c :
  JsMap.get n (delete_classes l table) = Some c ->
  ~ In n l /\ JsMap.get n table = Some c.
Proof.
  intros Hg. destruct (in_dec eq_dec n l) as [Hin|Hnin].
  - rewrite get_delete_classes_in in Hg by assumption. discriminate.
  - now rewrite get_delete_classes_other in Hg.
Qed.

Lemma last_named_some n l c :
  last_named n l = Some c -> In c l /\ name c = n.
Proof.
  induction l as [|a l IH]; simpl; [discriminate|].
  destruct (last_named n l) as [c'|].
  - intros [= <-]. destruct IH as [Hin Hn]; auto.
  - destruct (eq_dec n (name a)); [|discriminate].
    intros [= <-]. auto.
Qed.

Lemma last_named_none n l :
  last_named n l = None <-> ~ In n (map name l).
Proof.
  induction l as [|a l IH]; simpl; [tauto|].
  destruct (last_named n l) as [c'|].
  - split; [discriminate|]. intros Hnin. exfalso.
    assert (Hn : ~ In n (map name l)) by tauto.
    apply IH in Hn. discriminate.
  - destruct (eq_dec n (name a)) as [->|Hne].
    + split; [discriminate|tauto].
    + split; [|reflexivity]. intros _ [Heq|Hin]; [congruence|].
      now apply IH in Hin.
Qed.

Lemma get_set_classes l :
  forall table n,
  JsMap.get n (set_classes l table) =
  match last_named n l with
  | Some c => Some c
  | None => JsMap.get n table
  end.
Proof.
  unfold set_classes.
  induction l as [|a l IH]; intros table n; simpl; [reflexivity|].
  rewrite IH. destruct (last_named n l); [reflexivity|].
  destruct (eq_dec n (name a)) as [->|Hne].
  - apply get_set_same.
  - apply get_set_other. congruence.
Qed.

(** Deleting the names of [l] undoes the registration of [l]. *)
Lemma delete_classes_cons a l table :
  delete_classes (a :: l) table = delete_classes l (JsMap.delete a table).
Proof. reflexivity. Qed.

Lemma delete_classes_delete l :
  forall a table,
  delete_classes l (JsMap.delete a table) =
  JsMap.delete a (delete_classes l table).
Proof.
  induction l as [|b l IH]; intros a table; [reflexivity|].
  rewrite !delete_classes_cons, <- IH. f_equal. apply delete_comm.
Qed.

Lemma delete_classes_set l :
  forall table c,
  In (name c) l ->
  delete_classes l (JsMap.set (name c) c table) = delete_classes l table.
Proof.
  induction l as [|a l IH]; intros table c Hin; [destruct Hin|].
  rewrite !delete_classes_cons.
  destruct (eq_dec a (name c)) as [->|Hne].
  - now rewrite delete_set.
  - destruct Hin as [Heq|Hin]; [congruence|].
    rewrite delete_set_other by assumption. now apply IH.
Qed.

Lemma delete_classes_set_classes l :
  forall names table,
  incl (map name l) names ->
  delete_classes names (set_classes l table) = delete_classes names table.
Proof.
  unfold set_classes.
  induction l as [|c l IH]; intros names table Hincl; [reflexivity|].
  simpl. rewrite IH by (intros x Hx; apply Hincl; now right).
  apply delete_classes_set. apply Hincl. now left.
Qed.

Lemma delete_classes_absent l :
  forall table,
  (forall n, In n l -> JsMap.get n table = None) ->
  delete_classes l table = table.
Proof.
  induction l as [|a l IH]; intros table Hg; [reflexivity|].
  rewrite delete_classes_cons, delete_absent by (apply Hg; now left).
  apply IH. intros n Hn. apply Hg. now right.
Qed.
End TableFacts.

(** ** The invariant of the registry *)

Section InvariantFacts.
Context `{Collaborators}.

Lemma get_delete_some {K V : Type} `{EqDec K} (k k' : K) (v : V) m :
  JsMap.get k' (JsMap.delete k m) = Some v ->
  k <> k' /\ JsMap.get k' m = Some v.
Proof.
  intros Hg. destruct (eq_dec k k') as [->|Hne].
  - rewrite get_delete_same in Hg. discriminate.
  - now rewrite get_delete_other in Hg.
Qed.

Lemma Inv_new : Inv new_SrcMgr.
Proof. split; intros ? ? Hg; discriminate Hg. Qed.

Lemma _removeSrc_untracked path s :
  JsMap.get path (srcs s) = None -> snd (_removeSrc path s) = s.
Proof. unfold _removeSrc. now intros ->. Qed.

Lemma _removeSrc_srcs path s :
  JsMap.get path (srcs (snd (_removeSrc path s))) = None.
Proof.
  unfold _removeSrc.
  destruct (JsMap.get path (srcs s)) as [si|] eqn:G; simpl;
    [apply get_delete_same | exact G].
Qed.

(** After the retraction no record is owned by [path]. *)
Lemma _removeSrc_no_owner path s :
  Inv s ->
  forall n c, JsMap.get n (classes (snd (_removeSrc path s))) = Some c ->
              srcPath c <> path.
Proof.
  intros [Hex Htr _] n c. unfold _removeSrc.
  destruct (JsMap.get path (srcs s)) as [si|] eqn:G; simpl.
  - intros Hg Hp. apply get_delete_classes_some in Hg as [Hnin Hg].
    apply Hnin. apply (Hex path si G). eauto.
  - intros Hg Hp. apply Htr in Hg as [si Hsi]. congruence.
Qed.

Lemma _removeSrc_Inv path s : Inv s -> Inv (snd (_removeSrc path s)).
Proof.
  intros HI. pose proof HI as [Hex Htr Hres]. unfold _removeSrc.
  destruct (JsMap.get path (srcs s)) as [si|] eqn:G; simpl; [|exact HI].
  split.
  - intros p si' Hp n. simpl in *.
    apply get_delete_some in Hp as [Hne Hp]. split.
    + intros Hin. apply (Hex p si' Hp) in Hin as (c & Hc & Hown).
      exists c. split; [|exact Hown].
      rewrite get_delete_classes_other; [exact Hc|].
      intros Hin'. apply (Hex path si G) in Hin' as (c' & Hc' & Hown').
      congruence.
    + intros (c & Hc & Hown).
      apply get_delete_classes_some in Hc as [_ Hc].
      apply (Hex p si' Hp). eauto.
  - intros n c Hc. simpl in *.
    apply get_delete_classes_some in Hc as [Hnin Hc].
    destruct (Htr n c Hc) as [si0 Hsi0]. exists si0.
    rewrite get_delete_other; [exact Hsi0|].
    intros Heq. apply Hnin. apply (Hex path si G). eauto.
  - intros p si' Hp. simpl in *.
    apply get_delete_some in Hp as [_ Hp]. eapply Hres, Hp.
Qed.

(** What a successful loop tells about the extracted records. *)
Lemma _parseClasses_inr path t table classes' :
  _parseClasses path t table = inr classes' ->
  classes' = extracted path (query t) /\
  Forall (fun c => extracts path c = true) (query t) /\
  Forall (fun cls => conflictb path table cls = false) classes'.
Proof.
  unfold _parseClasses. intros Hp.
  apply parse_candidates_inr in Hp as (-> & Hex & Hc). simpl. auto.
Qed.

Lemma fresh_names path table classes' :
  (forall n c, JsMap.get n table = Some c -> srcPath c <> path) ->
  Forall (fun cls => conflictb path table cls = false) classes' ->
  forall n, In n (map name classes') -> JsMap.get n table = None.
Proof.
  intros Hno Hc n Hin. apply in_map_iff in Hin as (cls & <- & Hin).
  rewrite Forall_forall in Hc. specialize (Hc cls Hin).
  unfold conflictb in Hc.
  destruct (JsMap.get (name cls) table) as [prev|] eqn:G; [|reflexivity].
  apply negb_false_iff, String.eqb_eq in Hc.
  now apply Hno in G.
Qed.

Lemma _addSrc_Inv path src s :
  Inv s -> resolve path = path ->
  (forall n c, JsMap.get n (classes s) = Some c -> srcPath c <> path) ->
  Inv (snd (_addSrc path src s)).
Proof.
  intros HI Hcanon Hno. pose proof HI as [Hex Htr Hres]. unfold _addSrc.
  destruct (parseScript src) as [t|]; [|exact HI].
  destruct (_parseClasses path t (classes s)) as [e|classes'] eqn:P;
    [exact HI|].
  apply _parseClasses_inr in P as (Hcls & _ & Hconf).
  assert (Hown : forall c, In c classes' -> srcPath c = path).
  { intros c Hc. rewrite Hcls in Hc. eapply extracted_srcPath, Hc. }
  pose proof (fresh_names path (classes s) classes' Hno Hconf) as Hfresh.
  simpl. split.
  - intros p si Hp n. simpl in *. rewrite get_set_classes.
    destruct (eq_dec path p) as [<-|Hne].
    + rewrite get_set_same in Hp. injection Hp as <-. simpl.
      destruct (last_named n classes') as [c|] eqn:L.
      * apply last_named_some in L as [Hin Hn]. split.
        -- intros _. exists c. auto.
        -- intros _. rewrite <- Hn. now apply in_map.
      * split.
        -- intros Hin. now apply last_named_none in L.
        -- intros (c & Hc & Hp). now apply Hno in Hc.
    + rewrite get_set_other in Hp by assumption.
      destruct (last_named n classes') as [c|] eqn:L.
      * apply last_named_some in L as [Hin Hn]. split.
        -- intros Hn'. apply (Hex p si Hp) in Hn' as (c' & Hc' & _).
           rewrite Hfresh in Hc'; [discriminate|].
           rewrite <- Hn. now apply in_map.
        -- intros (c' & [= <-] & Hp'). apply Hown in Hin. congruence.
      * apply (Hex p si Hp).
  - intros n c. simpl. rewrite get_set_classes.
    destruct (last_named n classes') as [c'|] eqn:L.
    + intros [= <-]. apply last_named_some in L as [Hin _].
      rewrite (Hown _ Hin), get_set_same. eauto.
    + intros Hc. destruct (Htr n c Hc) as [si Hsi].
      destruct (eq_dec path (srcPath c)) as [<-|Hne].
      * rewrite get_set_same. eauto.
      * rewrite get_set_other by assumption. eauto.
  - intros p si. simpl.
    destruct (eq_dec path p) as [<-|Hne]; [auto|].
    rewrite get_set_other by assumption. apply Hres.
Qed.

Lemma checkFile_Inv fs path s : Inv s -> Inv (snd (checkFile fs path s)).
Proof.
  intros HI. unfold checkFile.
  destruct (path =? resolve path) eqn:A; simpl; [|exact HI].
  apply String.eqb_eq in A.
  pose proof (_removeSrc_Inv path s HI) as HI1.
  destruct (fs path) as [src|code].
  - apply _addSrc_Inv; [exact HI1 | congruence |].
    now apply _removeSrc_no_owner.
  - destruct (code =? "ENOENT"); exact HI1.
Qed.

(** The two lists stay maps: no key occurs twice. *)
Lemma keys_set_NoDup {K V : Type} `{EqDec K} (k : K) (v : V) m :
  NoDup (JsMap.keys m) -> NoDup (JsMap.keys (JsMap.set k v m)).
Proof.
  destruct (JsMap.get k m) as [v0|] eqn:G.
  - assert (Hk : JsMap.keys (JsMap.set k v m) = JsMap.keys m);
      [|now rewrite Hk].
    revert G. unfold JsMap.keys.
    induction m as [|[k' v'] m IH]; simpl; [discriminate|].
    destruct (eq_dec k k'); simpl; [reflexivity|].
    intros G. now rewrite IH.
  - rewrite (set_absent k v m G). unfold JsMap.keys.
    rewrite map_app. simpl. intros Hnd.
    apply NoDup_app; [exact Hnd | repeat constructor; tauto |].
    intros x Hx [Heq|[]]. subst x.
    destruct (in_keys_get k m Hx) as [v1 Hv1]. congruence.
Qed.

Lemma keys_delete_NoDup {K V : Type} `{EqDec K} (k : K)
    (m : list (K * V)) :
  NoDup (JsMap.keys m) -> NoDup (JsMap.keys (JsMap.delete k m)).
Proof.
  unfold JsMap.keys, JsMap.delete.
  induction m as [|[k' v'] m IH]; simpl; [auto|].
  intros Hnd. apply NoDup_cons_iff in Hnd as [Hnin Hnd].
  destruct (eq_dec k k'); simpl; [now apply IH|].
  constructor; [|now apply IH].
  intros Hin. apply Hnin. apply in_map_iff in Hin as (kv & <- & Hkv).
  apply filter_In in Hkv as [Hkv _]. now apply in_map.
Qed.

Lemma keys_set_classes_NoDup l :
  forall table,
  NoDup (JsMap.keys table) -> NoDup (JsMap.keys (set_classes l table)).
Proof.
  unfold set_classes.
  induction l as [|c l IH]; intros table Hnd; [exact Hnd|].
  simpl. apply IH. now apply keys_set_NoDup.
Qed.

Lemma keys_delete_classes_NoDup l :
  forall table,
  NoDup (JsMap.keys table) -> NoDup (JsMap.keys (delete_classes l table)).
Proof.
  unfold delete_classes.
  induction l as [|n l IH]; intros table Hnd; [exact Hnd|].
  simpl. apply IH. now apply keys_delete_NoDup.
Qed.

Lemma Reachable_NoDup s :
  Reachable s ->
  NoDup (JsMap.keys (srcs s)) /\ NoDup (JsMap.keys (classes s)).
Proof.
  induction 1 as [|fs path s _ [IHs IHc]]; [split; constructor|].
  unfold checkFile. destruct (path =? resolve path); simpl; [|auto].
  assert (H1 : NoDup (JsMap.keys (srcs (snd (_removeSrc path s)))) /\
               NoDup (JsMap.keys (classes (snd (_removeSrc path s))))).
  { unfold _removeSrc. destruct (JsMap.get path (srcs s)); simpl; [|auto].
    split; [now apply keys_delete_NoDup|].
    now apply keys_delete_classes_NoDup. }
  destruct H1 as [H1s H1c].
  destruct (fs path) as [src|code].
  - unfold _addSrc. destruct (parseScript src) as [t|]; [|auto].
    destruct (_parseClasses _ _ _); simpl; [auto|].
    split; [now apply keys_set_NoDup|].
    now apply keys_set_classes_NoDup.
  - destruct (code =? "ENOENT"); simpl; auto.
Qed.

Lemma Reachable_Inv s : Reachable s -> Inv s.
Proof.
  induction 1 as [|fs path s _ IH]; [apply Inv_new|].
  now apply checkFile_Inv.
Qed.
End InvariantFacts.

(** ** Checking a file twice *)

Section TwiceFacts.
Context `{Collaborators}.

Lemma _removeSrc_classes_some path s n c :
  JsMap.get n (classes (snd (_removeSrc path s))) = Some c ->
  JsMap.get n (classes s) = Some c.
Proof.
  unfold _removeSrc. destruct (JsMap.get path (srcs s)); simpl; auto.
  intros Hg. now apply get_delete_classes_some in Hg.
Qed.

(** Under the invariant the retraction of [path] is invisible to the
    records of the other paths. *)
Lemma _removeSrc_classes_iff path s n c :
  Inv s ->
  (JsMap.get n (classes (snd (_removeSrc path s))) = Some c <->
   JsMap.get n (classes s) = Some c /\ srcPath c <> path).
Proof.
  intros HI. split.
  - intros Hg. split.
    + eapply _removeSrc_classes_some, Hg.
    + eapply _removeSrc_no_owner; eauto.
  - intros [Hg Hne]. destruct HI as [Hex _ _]. unfold _removeSrc.
    destruct (JsMap.get path (srcs s)) as [si|] eqn:G; simpl; [|exact Hg].
    rewrite get_delete_classes_other; [exact Hg|].
    intros Hin. apply (Hex path si G) in Hin as (c' & Hc' & Hown).
    congruence.
Qed.

Lemma _removeSrc_srcs_other path s q :
  q <> path ->
  JsMap.get q (srcs (snd (_removeSrc path s))) = JsMap.get q (srcs s).
Proof.
  intros Hne. unfold _removeSrc.
  destruct (JsMap.get path (srcs s)); simpl; [|reflexivity].
  apply get_delete_other. congruence.
Qed.

Lemma conflicting_retracted path s candidate :
  Inv s ->
  (conflicting path (classes (snd (_removeSrc path s))) candidate <->
   conflicting path (classes s) candidate).
Proof.
  intros HI. unfold conflicting. split.
  - intros (Hd & n & prev & Hn & Hg & Hne). split; [exact Hd|].
    exists n, prev. repeat split; auto.
    eapply _removeSrc_classes_some, Hg.
  - intros (Hd & n & prev & Hn & Hg & Hne). split; [exact Hd|].
    exists n, prev. repeat split; auto.
    now apply _removeSrc_classes_iff.
Qed.

(** Retracting a file right after it was registered gives back the
    registry it was registered in. *)
Lemma _removeSrc_after_register path s classes' :
  JsMap.get path (srcs s) = None ->
  (forall n, In n (map name classes') ->
             JsMap.get n (classes s) = None) ->
  snd (_removeSrc path
         {| srcs := JsMap.set path {| clsnames := map name classes' |}
                              (srcs s);
            classes := set_classes classes' (classes s) |}) = s.
Proof.
  intros Hp Hfresh. unfold _removeSrc. simpl. rewrite get_set_same.
  simpl. rewrite delete_set_absent by assumption.
  rewrite delete_classes_set_classes by apply incl_refl.
  rewrite delete_classes_absent by assumption.
  now destruct s.
Qed.

Lemma _addSrc_after_retraction path src s :
  Inv s ->
  let s1 := snd (_removeSrc path s) in
  snd (_removeSrc path (snd (_addSrc path src s1))) = s1.
Proof.
  intros HI s1.
  assert (Hp : JsMap.get path (srcs s1) = None)
    by apply _removeSrc_srcs.
  unfold _addSrc.
  destruct (parseScript src) as [t|];
    [|now apply _removeSrc_untracked].
  destruct (_parseClasses path t (classes s1)) as [e|classes'] eqn:P;
    [now apply _removeSrc_untracked|].
  simpl. apply _removeSrc_after_register; [exact Hp|].
  apply _parseClasses_inr in P as (_ & _ & Hconf).
  apply (fresh_names path); [|exact Hconf].
  now apply _removeSrc_no_owner.
Qed.

Lemma checkFile_twice fs path s :
  Inv s ->
  checkFile fs path (snd (checkFile fs path s)) = checkFile fs path s.
Proof.
  intros HI. unfold checkFile at 2 3.
  destruct (path =? resolve path) eqn:A; simpl.
  - pose proof (_removeSrc_srcs path s) as Hp.
    destruct (fs path) as [src|code] eqn:F.
    + unfold checkFile. rewrite A, F. simpl.
      now rewrite (_addSrc_after_retraction path src s HI).
    + unfold checkFile. rewrite A, F. simpl.
      destruct (code =? "ENOENT"); simpl;
        now rewrite _removeSrc_untracked.
  - unfold checkFile. now rewrite A.
Qed.
End TwiceFacts.

(* ================================================================== *)
(** * The registry: [checkFile] *)

Section RegistryClaims.
Context `{Collaborators}.

(** C1.  In every registry a program can hold, and so after every
    completed [checkFile], each tracked path [p] lists exactly the
    names whose record in the class table is owned by [p], and every
    record of the class table is owned by a tracked path. *)
Theorem checkFile_keeps_ownership fs path s :
  Reachable s ->
  let s' := snd (checkFile fs path s) in
  (forall p si, JsMap.get p (srcs s') = Some si ->
     forall n, In n (clsnames si) <->
               exists c, JsMap.get n (classes s') = Some c /\
                         srcPath c = p) /\
  (forall n c, JsMap.get n (classes s') = Some c ->
     exists si, JsMap.get (srcPath c) (srcs s') = Some si).
Proof.
  intros Hr s'.
  destruct (checkFile_Inv fs path s (Reachable_Inv s Hr)) as [Hex Htr _].
  split; [exact Hex | exact Htr].
Qed.

(** C2.  With the files unchanged, a second [checkFile] of the same
    path ends as the first one did and leaves the registry of the
    first one, entry for entry and in the same order; the emitter then
    gives the same result. *)
Theorem checkFile_idempotent fs path s :
  Reachable s ->
  let s1 := snd (checkFile fs path s) in
  checkFile fs path s1 = (fst (checkFile fs path s), s1) /\
  genCtags (snd (checkFile fs path s1)) = genCtags s1.
Proof.
  intros Hr s1. subst s1.
  rewrite (checkFile_twice fs path s (Reachable_Inv s Hr)).
  split; [apply surjective_pairing | reflexivity].
Qed.

(** C3 (amended).  [checkFile] raises the duplicate error only when
    the file is read and parsed and one of its calls of
    [qx.Class.define] names a class that the class table holds under
    another path; and it does raise it for such a file when its calls
    of [qx.Class.define] all extract (the loop extracts a call before
    it tests its name).  A check that ended normally ends normally
    again when repeated. *)
Theorem duplicate_error_iff fs path s :
  Reachable s ->
  (fst (checkFile fs path s) = Throw DuplicateClassName ->
   exists src t,
     fs path = ReadOk src /\ parseScript src = Some t /\
     Exists (conflicting path (classes s)) (query t)) /\
  (forall src t,
     resolve path = path ->
     fs path = ReadOk src ->
     parseScript src = Some t ->
     Forall (fun c => extracts path c = true) (query t) ->
     Exists (conflicting path (classes s)) (query t) ->
     fst (checkFile fs path s) = Throw DuplicateClassName) /\
  (forall v, fst (checkFile fs path s) = Normal v ->
             fst (checkFile fs path (snd (checkFile fs path s)))
             = Normal v).
Proof.
  intros Hr. pose proof (Reachable_Inv s Hr) as HI. split; [|split].
  - unfold checkFile.
    destruct (path =? resolve path); simpl; [|discriminate].
    destruct (fs path) as [src|code] eqn:Hread;
      [|destruct (code =? "ENOENT"); discriminate].
    unfold _addSrc.
    destruct (parseScript src) as [t|] eqn:Hparse; [|discriminate].
    unfold _parseClasses.
    destruct (parse_candidates _ _ _ _) as [e|classes'] eqn:P;
      simpl; [|discriminate].
    intros [= ->]. exists src, t.
    split; [reflexivity|]. split; [exact Hparse|].
    apply parse_candidates_duplicate in P.
    eapply Exists_impl; [|exact P].
    intros c. now apply conflicting_retracted.
  - intros src t Hcanon Hread Hparse Hex Hc.
    unfold checkFile. rewrite Hcanon, String.eqb_refl, Hread. simpl.
    unfold _addSrc. rewrite Hparse. unfold _parseClasses.
    rewrite (parse_candidates_conflict path _ (query t) [] Hex);
      [reflexivity|].
    eapply Exists_impl; [|exact Hc].
    intros c. now apply conflicting_retracted.
  - intros v Hv. now rewrite checkFile_twice.
Qed.

(** C4 (amended).  When [checkFile] ends with the duplicate error,
    the registry is the one the retraction left: the path is not
    tracked; the class table holds no record of the file, neither the
    conflicting one nor those extracted before it; and the records of
    the other files, the conflicting name's among them, are as
    before. *)
Theorem duplicate_error_registers_nothing fs path s :
  Reachable s ->
  fst (checkFile fs path s) = Throw DuplicateClassName ->
  let s' := snd (checkFile fs path s) in
  s' = snd (_removeSrc path s) /\
  JsMap.get path (srcs s') = None /\
  (forall n c, JsMap.get n (classes s') = Some c -> srcPath c <> path) /\
  (forall n prev, JsMap.get n (classes s) = Some prev ->
                  srcPath prev <> path ->
                  JsMap.get n (classes s') = Some prev).
Proof.
  intros Hr Hdup s'.
  assert (Hs : s' = snd (_removeSrc path s)).
  { subst s'. revert Hdup. unfold checkFile.
    destruct (path =? resolve path); simpl; [|discriminate].
    destruct (fs path) as [src|code].
    - unfold _addSrc. destruct (parseScript src) as [t|];
        [|discriminate].
      destruct (_parseClasses _ _ _); [reflexivity | discriminate].
    - destruct (code =? "ENOENT"); discriminate. }
  pose proof (Reachable_Inv s Hr) as HI.
  rewrite Hs. split; [reflexivity|]. split; [|split].
  - apply _removeSrc_srcs.
  - now apply _removeSrc_no_owner.
  - intros n prev Hg Hne. now apply _removeSrc_classes_iff.
Qed.

(** C5.  When the file of [path] cannot be read, [checkFile] stops
    after the retraction: [path] is not tracked any more and no name
    it listed is left in the class table.  For a missing file the
    call returns [false]; any other failure is thrown. *)
Theorem checkFile_unreadable fs path s code :
  resolve path = path ->
  fs path = ReadFail code ->
  let s' := snd (checkFile fs path s) in
  s' = snd (_removeSrc path s) /\
  JsMap.get path (srcs s') = None /\
  (forall si n, JsMap.get path (srcs s) = Some si ->
                In n (clsnames si) -> JsMap.get n (classes s') = None) /\
  (code = "ENOENT" -> fst (checkFile fs path s) = Normal (VBool false)) /\
  (code <> "ENOENT" ->
   fst (checkFile fs path s) = Throw (SystemError code)).
Proof.
  intros Hcanon Hread s'. subst s'. unfold checkFile.
  rewrite Hcanon, String.eqb_refl, Hread. simpl.
  assert (Hs : snd (if code =? "ENOENT"
                    then (Normal (VBool false), snd (_removeSrc path s))
                    else (Throw (SystemError code),
                          snd (_removeSrc path s)))
               = snd (_removeSrc path s))
    by (destruct (code =? "ENOENT"); reflexivity).
  rewrite Hs. repeat split.
  - apply _removeSrc_srcs.
  - intros si n Hsi Hin. unfold _removeSrc. rewrite Hsi. simpl.
    now apply get_delete_classes_in.
  - intros ->. reflexivity.
  - intros Hne. apply String.eqb_neq in Hne. now rewrite Hne.
Qed.
End RegistryClaims.

(* ================================================================== *)
(** * The emitter: [genCtags] *)

Section SortFacts.

Lemma insert_member_perm x l : Permutation (insert_member x l) (x :: l).
Proof.
  induction l as [|y l IH]; simpl; [reflexivity|].
  destruct (lineno x <=? lineno y)%nat; [reflexivity|].
  rewrite IH. apply perm_swap.
Qed.

Lemma sort_members_perm l : Permutation (sort_members l) l.
Proof.
  induction l as [|x l IH]; simpl; [reflexivity|].
  rewrite insert_member_perm. now apply perm_skip.
Qed.








End SortFacts.

Section EmitterFacts.

Lemma mapM_inr {A B : Type} (f : A -> Exn + B) l :
  forall ys, mapM f l = inr ys -> Forall2 (fun x y => f x = inr y) l ys.
Proof.
  induction l as [|x l IH]; simpl; intros ys.
  - intros [= <-]. constructor.
  - destruct (f x) as [e|y] eqn:E; [discriminate|].
    destruct (mapM f l) as [e|ys'] eqn:M; [discriminate|].
    intros [= <-]. constructor; auto.
Qed.

Lemma mapM_total {A B : Type} (f : A -> Exn + B) l :
  Forall (fun x => exists y, f x = inr y) l -> exists ys, mapM f l = inr ys.
Proof.
  induction 1 as [|x l [y Hy] _ [ys IH]]; simpl; [eauto|].
  rewrite Hy, IH. eauto.
Qed.

Lemma collect_members_named cls m :
  members_string_named cls ->
  In m (collect_members cls) -> exists s, member_name m = VString s.
Proof.
  unfold members_string_named, collect_members.
  rewrite Forall_forall. intros Hn.
  rewrite !in_app_iff, !in_map_iff.
  intros Hin.
  destruct Hin as [Hi|[Hi|[Hi|[Hi|[Hi|Hi]]]]];
    destruct Hi as (t & <- & Ht); apply (Hn t);
    rewrite !in_app_iff; tauto.
Qed.

Lemma member_tags_total cls m s :
  member_name m = VString s -> exists r, member_tags cls m = inr r.
Proof. unfold member_tags. intros ->. simpl. eauto. Qed.

Lemma class_records_total cls :
  members_string_named cls -> exists rs, class_records cls = inr rs.
Proof.
  intros Hn. unfold class_records.
  destruct (mapM_total (member_tags cls)
              (sort_members (collect_members cls))) as [ms ->]; [|eauto].
  rewrite Forall_forall. intros m Hm.
  apply (Permutation_in _ (sort_members_perm _)) in Hm.
  destruct (collect_members_named cls m Hn Hm) as [s Hs].
  eapply member_tags_total, Hs.
Qed.

Lemma genCtags_records_total s :
  Forall members_string_named (JsMap.values (classes s)) ->
  exists rs, genCtags_records s = inr rs.
Proof.
  intros Hn. unfold genCtags_records.
  destruct (mapM_total class_records (JsMap.values (classes s)))
    as [bs ->]; [|eauto].
  eapply Forall_impl; [|exact Hn]. apply class_records_total.
Qed.

Lemma class_records_inr cls rs :
  class_records cls = inr rs ->
  exists ms, rs = class_tags cls :: extend_records cls ++ ms /\
             members_emitted cls ms.
Proof.
  unfold class_records.
  destruct (mapM _ _) as [e|ms] eqn:M; [discriminate|].
  intros [= <-]. exists ms. split; [reflexivity|].
  now apply mapM_inr.
Qed.

Lemma genCtags_records_inr s rs :
  genCtags_records s = inr rs ->
  exists blocks,
    rs = List.concat blocks /\
    Forall2 (fun cls block => class_records cls = inr block)
            (JsMap.values (classes s)) blocks.
Proof.
  unfold genCtags_records.
  destruct (mapM _ _) as [e|bs] eqn:M; [discriminate|].
  intros [= <-]. exists bs. split; [reflexivity|]. now apply mapM_inr.
Qed.
End EmitterFacts.

Section EmitterSpecFacts.

Lemma mapM_inl {A B : Type} (f : A -> Exn + B) l e :
  mapM f l = inl e -> exists x, In x l /\ f x = inl e.
Proof.
  induction l as [|x l IH]; simpl; [discriminate|].
  destruct (f x) as [e'|y] eqn:E.
  - intros [= <-]. exists x. split; [now left | exact E].
  - destruct (mapM f l) as [e'|ys]; [|discriminate].
    intros [= <-]. destruct (IH eq_refl) as (x' & Hin & Hx).
    exists x'. split; [now right | exact Hx].
Qed.

Lemma Forall2_In_l {A B : Type} (R : A -> B -> Prop) l1 l2 x :
  Forall2 R l1 l2 -> In x l1 -> exists y, In y l2 /\ R x y.
Proof.
  induction 1 as [|a b l1 l2 Hab _ IH]; simpl; [tauto|].
  intros [<-|Hin]; [eauto|].
  destruct (IH Hin) as (y & Hy & Hr). eauto.
Qed.

Lemma Forall2_In_r {A B : Type} (R : A -> B -> Prop) l1 l2 y :
  Forall2 R l1 l2 -> In y l2 -> exists x, In x l1 /\ R x y.
Proof.
  induction 1 as [|a b l1 l2 Hab _ IH]; simpl; [tauto|].
  intros [<-|Hin]; [eauto|].
  destruct (IH Hin) as (x & Hx & Hr). eauto.
Qed.

Lemma member_tags_inl cls m e : member_tags cls m = inl e -> e = TypeError.
Proof.
  unfold member_tags, access_of.
  destruct (member_name m); intros [= <-]; reflexivity.
Qed.

Lemma member_tags_inr cls m r :
  member_tags cls m = inr r ->
  (exists s, member_name m = VString s) /\ nth_error r 1 = Some (srcPath cls).
Proof.
  unfold member_tags, access_of.
  destruct (member_name m); try discriminate.
  intros [= <-]. split; [eauto | reflexivity].
Qed.

Lemma in_collect_members cls t :
  In t (include cls ++ implement cls ++ methods cls ++ properties cls ++
        statics cls ++ events cls) ->
  exists k, In (member_of k t) (collect_members cls).
Proof.
  unfold collect_members. rewrite !in_app_iff.
  intros [Hi|[Hi|[Hi|[Hi|[Hi|Hi]]]]]; eexists; rewrite !in_app_iff;
    [ left | right; left | do 2 right; left | do 3 right; left
    | do 4 right; left | do 5 right ];
    apply in_map; exact Hi.
Qed.

Lemma class_records_named cls rs :
  class_records cls = inr rs -> members_string_named cls.
Proof.
  unfold class_records.
  destruct (mapM _ _) as [e|ms] eqn:M; [discriminate|]. intros _.
  apply mapM_inr in M.
  apply Forall_forall. intros t Ht.
  apply in_collect_members in Ht as (k & Hin).
  apply (Permutation_in _ (Permutation_sym (sort_members_perm _))) in Hin.
  destruct (Forall2_In_l _ _ _ _ M Hin) as (r & _ & Hr).
  apply member_tags_inr in Hr as [Hs _]. exact Hs.
Qed.

Lemma class_records_inl cls e : class_records cls = inl e -> e = TypeError.
Proof.
  unfold class_records.
  destruct (mapM _ _) as [e'|ms] eqn:M; [|discriminate].
  intros [= <-]. apply mapM_inl in M as (m & _ & Hm).
  now apply member_tags_inl in Hm.
Qed.

Lemma append_nil_r s : (s ++ "")%string = s.
Proof. induction s as [|c s IH]; simpl; [reflexivity | now rewrite IH]. Qed.


Lemma concat_empty_cons h l :
  String.concat "" (h :: l) = (h ++ String.concat "" l)%string.
Proof. destruct l; simpl; [now rewrite append_nil_r | reflexivity]. Qed.


(** What the emitter joins is what the format description has. *)
Lemma record_line_spec fields : record_line fields = spec_line fields.
Proof. reflexivity. Qed.

Lemma header_spec : header = spec_header.
Proof. reflexivity. Qed.

Lemma class_tags_spec cls : class_tags cls = spec_class_record cls.
Proof. reflexivity. Qed.

Lemma extend_tags_spec cls x : extend_tags cls x = spec_extends_record cls x.
Proof. reflexivity. Qed.

Lemma collect_members_spec cls : collect_members cls = encountered cls.
Proof. reflexivity. Qed.

Lemma member_tags_spec cls m r :
  member_tags cls m = inr r <->
  exists nm, member_name m = VString nm /\ r = spec_member_record cls m nm.
Proof.
  unfold member_tags, access_of. split.
  - destruct (member_name m) as [| | | |nm]; try discriminate.
    intros [= <-]. exists nm. split; reflexivity.
  - intros (nm & -> & ->). reflexivity.
Qed.




Lemma genCtags_text s rs :
  genCtags_records s = inr rs ->
  genCtags s
  = Normal (spec_header ++ String.concat "" (map spec_line rs))%string.
Proof.
  intros Hr. unfold genCtags, genCtags_buf. rewrite Hr.
  rewrite concat_empty_cons, header_spec. do 3 f_equal.
Qed.








End EmitterSpecFacts.

Section EmitterClaims.


End EmitterClaims.

(* ================================================================== *)
(** * The extractor: the [members] section *)

Section ExtractorClaims.
Context `{Collaborators}.

Lemma fold_members_entry ps :
  forall cls,
  let cls' := fold_left members_entry ps cls in
  methods cls' = methods cls ++ member_methods ps /\
  properties cls' = properties cls ++ member_properties ps /\
  srcPath cls' = srcPath cls /\ name cls' = name cls /\
  bodyT cls' = bodyT cls /\ type cls' = type cls /\
  extend cls' = extend cls /\ include cls' = include cls /\
  implement cls' = implement cls /\ statics cls' = statics cls /\
  events cls' = events cls.
Proof.
  induction ps as [|prop ps IH]; intros cls; simpl.
  - rewrite !app_nil_r. repeat split.
  - specialize (IH (members_entry cls prop)). simpl in IH.
    destruct IH as (Hm & Hp & H1 & H2 & H3 & H4 & H5 & H6 & H7 & H8 & H9).
    rewrite Hm, Hp, H1, H2, H3, H4, H5, H6, H7, H8, H9.
    unfold members_entry, method_tag, property_tag, params_signature.
    destruct prop as [key value]. simpl.
    destruct value; simpl; rewrite <- ?app_assoc; repeat split.
Qed.

(** C8 (amended).  The section [members] of a class body always
    extracts.  It adds to the methods, in order, one entry per member
    whose value has the node kind [FunctionExpression], with the
    generated parameters joined by a comma and a space between
    parentheses as signature; it adds to the properties one entry per
    member with a value of any other kind, an arrow function included,
    with the generated value between an opening parenthesis followed by
    the equals sign and a closing parenthesis as signature; it changes
    nothing else of the record.  A class body that consists of this
    section yields exactly these methods and properties. *)
Theorem members_section cls key_line line ps :
  (exists cls',
     parse_section cls
       (Identifier key_line "members", ObjectExpression line ps)
     = inr cls' /\
     methods cls' = methods cls ++ member_methods ps /\
     properties cls' = properties cls ++ member_properties ps /\
     srcPath cls' = srcPath cls /\ name cls' = name cls /\
     bodyT cls' = bodyT cls /\ type cls' = type cls /\
     extend cls' = extend cls /\ include cls' = include cls /\
     implement cls' = implement cls /\ statics cls' = statics cls /\
     events cls' = events cls) /\
  (forall path n body_line,
   exists cls',
     _parseClass path n
       (Some (ObjectExpression body_line
                [(Identifier key_line "members",
                  ObjectExpression line ps)]))
     = inr cls' /\
     methods cls' = member_methods ps /\
     properties cls' = member_properties ps).
Proof.
  split.
  - exists (fold_left members_entry ps cls).
    split; [reflexivity|]. apply fold_members_entry.
  - intros path n body_line. eexists. split; [reflexivity|].
    split; apply fold_members_entry.
Qed.
End ExtractorClaims.

(* ================================================================== *)
(** * The directory index: [_rm] *)

Section DirectoryFacts.
Context `{Collaborators}.

Lemma checkFile_missing fs path s :
  resolve path = path ->
  fs path = ReadFail "ENOENT" ->
  checkFile fs path s = (Normal (VBool false), snd (_removeSrc path s)).
Proof.
  intros Hcanon Hread. unfold checkFile.
  now rewrite Hcanon, String.eqb_refl, Hread.
Qed.


Lemma retract_all_Inv paths : forall s, Inv s -> Inv (retract_all paths s).
Proof.
  induction paths as [|p paths IH]; intros s HI; [exact HI|].
  simpl. apply IH. now apply _removeSrc_Inv.
Qed.






Lemma _addSrc_srcs_other path src s q :
  q <> path ->
  JsMap.get q (srcs (snd (_addSrc path src s))) = JsMap.get q (srcs s).
Proof.
  intros Hne. unfold _addSrc.
  destruct (parseScript src) as [t|]; [|reflexivity].
  destruct (_parseClasses path t (classes s)); [reflexivity|].
  simpl. apply get_set_other. congruence.
Qed.

(** A call of [checkFile] leaves the entries of the other paths. *)
Lemma checkFile_srcs_other fs path s q :
  q <> path ->
  JsMap.get q (srcs (snd (checkFile fs path s))) = JsMap.get q (srcs s).
Proof.
  intros Hne. unfold checkFile.
  destruct (path =? resolve path); simpl; [|reflexivity].
  destruct (fs path) as [src|code].
  - rewrite _addSrc_srcs_other by assumption.
    now apply _removeSrc_srcs_other.
  - destruct (code =? "ENOENT"); simpl; now apply _removeSrc_srcs_other.
Qed.




Lemma existsb_eqb_In (p : string) l :
  existsb (String.eqb p) l = true <-> In p l.
Proof.
  rewrite existsb_exists. split.
  - intros (x & Hin & Heq). apply String.eqb_eq in Heq. now subst.
  - intros Hin. exists p. split; [exact Hin | apply String.eqb_refl].
Qed.
End DirectoryFacts.

Section DirectoryClaims.
Context `{Collaborators}.

End DirectoryClaims.

(* ================================================================== *)
(** * One file defining a class twice *)

Section SameFileFacts.
Context `{Collaborators}.

Lemma in_extracted path candidates cls :
  In cls (extracted path candidates) ->
  exists candidate, In candidate candidates /\
                    extract_call path candidate = Some (inr cls).
Proof.
  unfold extracted. rewrite in_flat_map. intros (cand & Hin & Hc).
  exists cand. split; [exact Hin|].
  destruct (extract_call path cand) as [[e|c]|]; simpl in Hc; try tauto.
  destruct Hc as [->|[]]. reflexivity.
Qed.

Lemma extracted_cons path candidate rest cls :
  extract_call path candidate = Some (inr cls) ->
  extracted path (candidate :: rest) = cls :: extracted path rest.
Proof. intros E. unfold extracted. simpl. now rewrite E. Qed.

Lemma last_named_app n l1 l2 :
  last_named n (l1 ++ l2) =
  match last_named n l2 with
  | Some c => Some c
  | None => last_named n l1
  end.
Proof.
  induction l1 as [|a l1 IH]; simpl.
  - now destruct (last_named n l2).
  - rewrite IH. now destruct (last_named n l2).
Qed.

Lemma last_named_last n c l :
  n = name c -> ~ In n (map name l) -> last_named n (c :: l) = Some c.
Proof.
  intros Hn Hnin. simpl. apply last_named_none in Hnin. rewrite Hnin.
  destruct (eq_dec n (name c)); congruence.
Qed.

(** A file whose calls all extract and conflict with no other file
    is registered. *)
Lemma checkFile_registers fs path s src t :
  Inv s ->
  resolve path = path ->
  fs path = ReadOk src ->
  parseScript src = Some t ->
  Forall (fun c => extracts path c = true) (query t) ->
  Forall (fun c => ~ conflicting path (classes s) c) (query t) ->
  let s1 := snd (_removeSrc path s) in
  let classes' := extracted path (query t) in
  checkFile fs path s =
    (Normal VUndefined,
     {| srcs := JsMap.set path {| clsnames := map name classes' |}
                          (srcs s1);
        classes := set_classes classes' (classes s1) |}).
Proof.
  intros HI Hcanon Hread Hparse Hex Hnc s1 classes'.
  unfold checkFile. rewrite Hcanon, String.eqb_refl, Hread. simpl.
  unfold _addSrc. rewrite Hparse. unfold _parseClasses.
  rewrite parse_candidates_complete; [reflexivity | exact Hex |].
  rewrite Forall_forall in *. intros cls Hcls.
  apply in_extracted in Hcls as (cand & Hin & E).
  destruct (conflictb path (classes (snd (_removeSrc path s))) cls)
    eqn:C; [|reflexivity].
  exfalso. apply (Hnc cand Hin).
  apply (conflicting_retracted path s cand HI).
  now apply (conflictb_conflicting path _ cand cls E).
Qed.
End SameFileFacts.

Section SameFileClaims.
Context `{Collaborators}.

(** C10.  Take a file that is read and parsed, whose calls of
    [qx.Class.define] all extract and conflict with no record of
    another path, and in which two calls define the same name, the
    second being the last call with that name.  [checkFile] ends
    normally; the path then lists the name of every call in order, the
    repeated name as often as it is defined; and the class table holds
    under that name the record of the second call. *)
Theorem same_file_duplicate
    fs path s src t before c1 between c2 after cls1 cls2 :
  Reachable s ->
  resolve path = path ->
  fs path = ReadOk src ->
  parseScript src = Some t ->
  query t = before ++ c1 :: between ++ c2 :: after ->
  extract_call path c1 = Some (inr cls1) ->
  extract_call path c2 = Some (inr cls2) ->
  name cls1 = name cls2 ->
  Forall (fun c => extracts path c = true) (query t) ->
  Forall (fun c => ~ conflicting path (classes s) c) (query t) ->
  ~ In (name cls2) (map name (extracted path after)) ->
  exists s',
    checkFile fs path s = (Normal VUndefined, s') /\
    JsMap.get path (srcs s') =
      Some {| clsnames :=
                map name (extracted path before) ++
                name cls2 :: map name (extracted path between) ++
                name cls2 :: map name (extracted path after) |} /\
    JsMap.get (name cls2) (classes s') = Some cls2.
Proof.
  intros Hr Hcanon Hread Hparse Hq E1 E2 Hname Hex Hnc Hlast.
  pose proof (Reachable_Inv s Hr) as HI.
  eexists. split;
    [apply (checkFile_registers fs path s src t HI Hcanon Hread Hparse
              Hex Hnc)|].
  assert (Hext : extracted path (query t) =
                 extracted path before ++
                 cls1 :: extracted path between ++
                 cls2 :: extracted path after).
  { rewrite Hq, extracted_app, (extracted_cons path c1 _ cls1 E1),
      extracted_app, (extracted_cons path c2 _ cls2 E2).
    reflexivity. }
  simpl. rewrite Hext. split.
  - rewrite get_set_same. rewrite !map_app. simpl. rewrite !map_app.
    simpl. now rewrite Hname.
  - rewrite get_set_classes.
    change (extracted path before ++
            cls1 :: extracted path between ++ cls2 :: extracted path after)
      with (extracted path before ++
            (cls1 :: extracted path between) ++
            cls2 :: extracted path after).
    rewrite !last_named_app.
    now rewrite (last_named_last (name cls2) cls2 _ eq_refl Hlast).
Qed.
End SameFileClaims.

(* ================================================================== *)
(** * More about the registry *)

Section RegistryMore.
Context `{Collaborators}.

Lemma set_app_absent {K V : Type} `{EqDec K} (k : K) (v : V) m1 m2 :
  JsMap.get k m1 = None ->
  JsMap.set k v (m1 ++ m2) = m1 ++ JsMap.set k v m2.
Proof.
  induction m1 as [|[k' v'] m1 IH]; simpl; [reflexivity|].
  destruct (eq_dec k k'); [discriminate|].
  intros Hg. now rewrite IH.
Qed.

Lemma set_classes_app_fresh l :
  forall table tail,
  (forall n, In n (map name l) -> JsMap.get n table = None) ->
  set_classes l (table ++ tail) = table ++ set_classes l tail.
Proof.
  unfold set_classes.
  induction l as [|c l IH]; intros table tail Hfresh; [reflexivity|].
  simpl. rewrite set_app_absent by (apply Hfresh; now left).
  apply IH. intros n Hn. apply Hfresh. now right.
Qed.

(** What [checkFile] does once the assertion passed and the file was
    read: the completion and the registry in terms of the retracted
    registry. *)
Lemma checkFile_read fs path s src :
  resolve path = path ->
  fs path = ReadOk src ->
  checkFile fs path s = _addSrc path src (snd (_removeSrc path s)).
Proof.
  intros Hcanon Hread. unfold checkFile.
  now rewrite Hcanon, String.eqb_refl, Hread.
Qed.

Lemma checkFile_normal_undefined fs path s s' :
  checkFile fs path s = (Normal VUndefined, s') ->
  exists src t classes',
    resolve path = path /\ fs path = ReadOk src /\
    parseScript src = Some t /\
    _parseClasses path t (classes (snd (_removeSrc path s)))
    = inr classes' /\
    s' = {| srcs := JsMap.set path {| clsnames := map name classes' |}
                      (srcs (snd (_removeSrc path s)));
            classes := set_classes classes'
                         (classes (snd (_removeSrc path s))) |}.
Proof.
  unfold checkFile.
  destruct (path =? resolve path) eqn:A; simpl; [|discriminate].
  apply String.eqb_eq in A.
  destruct (fs path) as [src|code] eqn:Hread;
    [|destruct (code =? "ENOENT"); discriminate].
  unfold _addSrc. destruct (parseScript src) as [t|] eqn:Hparse;
    [|discriminate].
  destruct (_parseClasses _ _ _) as [e|classes'] eqn:P; [discriminate|].
  intros [= <-]. exists src, t, classes'. repeat split; congruence.
Qed.

(** X1.  [checkFile] of one path leaves what the registry holds for
    every other path, however the call ends: the list of names of each
    other path and the records owned by other paths are the same
    before and after. *)
Theorem checkFile_frame fs path s :
  Reachable s ->
  let s' := snd (checkFile fs path s) in
  (forall q, q <> path ->
     JsMap.get q (srcs s') = JsMap.get q (srcs s)) /\
  (forall n c, srcPath c <> path ->
     (JsMap.get n (classes s') = Some c <->
      JsMap.get n (classes s) = Some c)).
Proof.
  intros Hr s'. pose proof (Reachable_Inv s Hr) as HI. split.
  - intros q Hq. now apply checkFile_srcs_other.
  - intros n c Hne. subst s'.
    assert (Hret : JsMap.get n (classes (snd (_removeSrc path s))) = Some c
                   <-> JsMap.get n (classes s) = Some c).
    { rewrite (_removeSrc_classes_iff path s n c HI). tauto. }
    unfold checkFile.
    destruct (path =? resolve path) eqn:A; simpl; [|tauto].
    destruct (fs path) as [src|code];
      [|destruct (code =? "ENOENT"); exact Hret].
    unfold _addSrc. destruct (parseScript src) as [t|]; [|exact Hret].
    destruct (_parseClasses _ _ _) as [e|classes'] eqn:P; [exact Hret|].
    simpl. rewrite get_set_classes, <- Hret.
    apply _parseClasses_inr in P as (Hcls & _ & Hconf).
    pose proof (fresh_names path _ classes'
                  (_removeSrc_no_owner path s HI) Hconf) as Hfresh.
    destruct (last_named n classes') as [c'|] eqn:L; [|tauto].
    apply last_named_some in L as [Hin Hn].
    assert (Hown : srcPath c' = path).
    { rewrite Hcls in Hin. eapply extracted_srcPath, Hin. }
    rewrite Hfresh by (rewrite <- Hn; now apply in_map).
    split; [intros [= <-]; contradiction | discriminate].
Qed.

(** X2.  After [checkFile] returned [undefined], the path lists the
    names of the calls of [qx.Class.define] of the text just read, in
    order, and the records it owns are those of this text, one per
    name, the last call of a name giving the record; nothing it owned
    before is left. *)
Theorem checkFile_refresh fs path s s' :
  Reachable s ->
  checkFile fs path s = (Normal VUndefined, s') ->
  exists src t,
    fs path = ReadOk src /\ parseScript src = Some t /\
    JsMap.get path (srcs s')
    = Some {| clsnames := map name (extracted path (query t)) |} /\
    (forall n c,
       JsMap.get n (classes s') = Some c /\ srcPath c = path <->
       last_named n (extracted path (query t)) = Some c).
Proof.
  intros Hr Hc. pose proof (Reachable_Inv s Hr) as HI.
  apply checkFile_normal_undefined in Hc
    as (src & t & classes' & Hcanon & Hread & Hparse & P & ->).
  apply _parseClasses_inr in P as (-> & _ & _).
  exists src, t. split; [exact Hread|]. split; [exact Hparse|]. split.
  - simpl. apply get_set_same.
  - intros n c. simpl. rewrite get_set_classes.
    destruct (last_named n (extracted path (query t))) as [c'|] eqn:L.
    + split; [tauto|]. intros [= <-]. split; [reflexivity|].
      apply last_named_some in L as [Hin _].
      eapply extracted_srcPath, Hin.
    + split; [|discriminate]. intros [Hg Hown].
      now apply (_removeSrc_no_owner path s HI) in Hg.
Qed.

(** X3.  The result of [checkFile] tells whether the path is tracked
    afterwards: it is exactly when the call returned [undefined]. *)
Theorem checkFile_tracked_iff fs path s :
  Reachable s ->
  (exists si, JsMap.get path (srcs (snd (checkFile fs path s))) = Some si)
  <-> fst (checkFile fs path s) = Normal VUndefined.
Proof.
  intros Hr. pose proof (Reachable_Inv s Hr) as HI.
  pose proof (_removeSrc_srcs path s) as Hnone.
  unfold checkFile. destruct (path =? resolve path) eqn:A; simpl.
  - destruct (fs path) as [src|code].
    + unfold _addSrc. destruct (parseScript src) as [t|]; simpl.
      * destruct (_parseClasses _ _ _); simpl.
        -- rewrite Hnone. split; [intros [si Hsi]|]; discriminate.
        -- rewrite get_set_same. split; eauto.
      * rewrite Hnone. split; [intros [si Hsi]|]; discriminate.
    + destruct (code =? "ENOENT"); simpl; rewrite Hnone;
        (split; [intros [si Hsi]|]; discriminate).
  - split; [|discriminate]. intros [si Hsi].
    destruct HI as [_ _ Hres]. apply Hres in Hsi.
    apply String.eqb_neq in A. congruence.
Qed.

(** X4.  The errors of [checkFile].  A failed assertion leaves the
    registry as it was.  Every other error leaves the retracted
    registry, and it is the code of the failed read, other than a
    missing file, or a syntax error of the parser, or a type error of
    the extractor, or the duplicate error. *)
Theorem checkFile_errors fs path s e :
  fst (checkFile fs path s) = Throw e ->
  (e = AssertionError /\ resolve path <> path /\
   snd (checkFile fs path s) = s) \/
  (resolve path = path /\
   snd (checkFile fs path s) = snd (_removeSrc path s) /\
   ((exists code, e = SystemError code /\ fs path = ReadFail code /\
                  code <> "ENOENT") \/
    (exists src, e = SyntaxError /\ fs path = ReadOk src /\
                 parseScript src = None) \/
    (exists src t, (e = TypeError \/ e = DuplicateClassName) /\
                   fs path = ReadOk src /\ parseScript src = Some t /\
                   _parseClasses path t
                     (classes (snd (_removeSrc path s))) = inl e))).
Proof.
  unfold checkFile. destruct (path =? resolve path) eqn:A; simpl.
  - apply String.eqb_eq in A. symmetry in A.
    destruct (fs path) as [src|code] eqn:Hread.
    + unfold _addSrc. destruct (parseScript src) as [t|] eqn:Hparse.
      * destruct (_parseClasses _ _ _) as [e'|classes'] eqn:P;
          simpl; [|discriminate].
        intros [= ->]. right. repeat split; auto.
        right. right. exists src, t. repeat split; auto.
        unfold _parseClasses in P. clear Hparse.
        revert P. generalize (@nil ClassInfo).
        induction (query t) as [|cand rest IH]; intros acc;
          [discriminate|].
        rewrite parse_candidates_cons.
        destruct (extract_call path cand) as [[e1|cls]|] eqn:E.
        -- intros [= ->]. left. eapply extract_call_error, E.
        -- destruct (conflictb _ _ cls); [intros [= <-]; now right|].
           apply IH.
        -- apply IH.
      * simpl. intros [= <-]. right. repeat split; auto.
        right. left. exists src. auto.
    + destruct (code =? "ENOENT") eqn:C; simpl; [discriminate|].
      intros [= <-]. right. repeat split; auto.
      left. exists code. repeat split. now apply String.eqb_neq.
  - intros [= <-]. left. repeat split.
    apply String.eqb_neq in A. congruence.
Qed.

(** X5.  A file that was registered is the last one of the registry:
    [checkFile] that returned [undefined] leaves the other paths and
    their records in their order and puts the path and its records
    behind them. *)
Theorem checkFile_order fs path s s' :
  Reachable s ->
  checkFile fs path s = (Normal VUndefined, s') ->
  exists classes',
    srcs s' = srcs (snd (_removeSrc path s))
              ++ [(path, {| clsnames := map name classes' |})] /\
    classes s' = classes (snd (_removeSrc path s))
                 ++ set_classes classes' [] /\
    JsMap.get path (srcs (snd (_removeSrc path s))) = None /\
    (forall n c, JsMap.get n (classes (snd (_removeSrc path s))) = Some c ->
                 srcPath c <> path).
Proof.
  intros Hr Hc. pose proof (Reachable_Inv s Hr) as HI.
  apply checkFile_normal_undefined in Hc
    as (src & t & classes' & Hcanon & Hread & Hparse & P & ->).
  exists classes'. simpl.
  pose proof (_removeSrc_srcs path s) as Hnone.
  split; [now apply set_absent|]. split; [|split].
  - apply _parseClasses_inr in P as (_ & _ & Hconf).
    pose proof (fresh_names path _ classes'
                  (_removeSrc_no_owner path s HI) Hconf) as Hfresh.
    rewrite <- (app_nil_r (classes (snd (_removeSrc path s)))) at 1.
    now apply set_classes_app_fresh.
  - exact Hnone.
  - now apply _removeSrc_no_owner.
Qed.
End RegistryMore.

(* ================================================================== *)
(** * More about the extractor *)

Section ExtractorMore.
Context `{Collaborators}.

Ltac key_cases k :=
  repeat match goal with
         | |- context [k =? ?lit] =>
             let E := fresh "E" in
             destruct (k =? lit) eqn:E;
             [apply String.eqb_eq in E; subst k; cbn|]
         end.

Lemma fold_push_statics ps :
  forall c,
  let c' := fold_left (fun c p => push_statics c (plain_tag p)) ps c in
  statics c' = statics c ++ map plain_tag ps /\
  srcPath c' = srcPath c /\ name c' = name c /\ bodyT c' = bodyT c /\
  type c' = type c /\ extend c' = extend c /\ include c' = include c /\
  implement c' = implement c /\ methods c' = methods c /\
  properties c' = properties c /\ events c' = events c.
Proof.
  induction ps as [|p ps IH]; intros c; simpl.
  - rewrite app_nil_r. repeat split.
  - specialize (IH (push_statics c (plain_tag p))). simpl in IH.
    destruct IH as (H0 & H1 & H2 & H3 & H4 & H5 & H6 & H7 & H8 & H9 & H10).
    rewrite H0, H1, H2, H3, H4, H5, H6, H7, H8, H9, H10.
    rewrite <- app_assoc. repeat split.
Qed.

Lemma fold_push_properties ps :
  forall c,
  let c' := fold_left (fun c p => push_properties c (plain_tag p)) ps c in
  properties c' = properties c ++ map plain_tag ps /\
  srcPath c' = srcPath c /\ name c' = name c /\ bodyT c' = bodyT c /\
  type c' = type c /\ extend c' = extend c /\ include c' = include c /\
  implement c' = implement c /\ methods c' = methods c /\
  statics c' = statics c /\ events c' = events c.
Proof.
  induction ps as [|p ps IH]; intros c; simpl.
  - rewrite app_nil_r. repeat split.
  - specialize (IH (push_properties c (plain_tag p))). simpl in IH.
    destruct IH as (H0 & H1 & H2 & H3 & H4 & H5 & H6 & H7 & H8 & H9 & H10).
    rewrite H0, H1, H2, H3, H4, H5, H6, H7, H8, H9, H10.
    rewrite <- app_assoc. repeat split.
Qed.

Lemma fold_push_events ps :
  forall c,
  let c' := fold_left (fun c p => push_events c (plain_tag p)) ps c in
  events c' = events c ++ map plain_tag ps /\
  srcPath c' = srcPath c /\ name c' = name c /\ bodyT c' = bodyT c /\
  type c' = type c /\ extend c' = extend c /\ include c' = include c /\
  implement c' = implement c /\ methods c' = methods c /\
  properties c' = properties c /\ statics c' = statics c.
Proof.
  induction ps as [|p ps IH]; intros c; simpl.
  - rewrite app_nil_r. repeat split.
  - specialize (IH (push_events c (plain_tag p))). simpl in IH.
    destruct IH as (H0 & H1 & H2 & H3 & H4 & H5 & H6 & H7 & H8 & H9 & H10).
    rewrite H0, H1, H2, H3, H4, H5, H6, H7, H8, H9, H10.
    rewrite <- app_assoc. repeat split.
Qed.

Lemma parse_section_effect c t c1 :
  parse_section c t = inr c1 -> section_effect c t c1.
Proof.
  unfold parse_section, section_effect, section_methods,
    section_properties, section_statics, section_events, key_is,
    each_property, entries.
  destruct t as [key valT]. simpl.
  destruct (node_name key) as [k|];
    [|intros [= <-]; rewrite !app_nil_r; repeat split].
  key_cases k;
    try (intros [= <-]; simpl; rewrite ?app_nil_r; repeat split).
  - destruct (ref_tags valT) as [e|tags]; [discriminate|].
    intros [= <-]. simpl. rewrite ?app_nil_r. repeat split.
  - destruct (ref_tags valT) as [e|tags]; [discriminate|].
    intros [= <-]. simpl. rewrite ?app_nil_r. repeat split.
  - destruct (special_method "[constructor]" valT); [discriminate|].
    intros [= <-]. simpl. rewrite ?app_nil_r. repeat split.
  - destruct (special_method "[destructor]" valT); [discriminate|].
    intros [= <-]. simpl. rewrite ?app_nil_r. repeat split.
  - destruct (node_properties valT) as [ps|]; [|discriminate].
    intros [= <-].
    destruct (fold_push_statics ps c)
      as (H0 & H1 & H2 & H3 & H4 & H5 & H6 & H7 & H8 & H9 & H10).
    rewrite H0, H1, H2, H3, H4, H5, H6, H7, H8, H9, H10.
    rewrite ?app_nil_r. repeat split.
  - destruct (node_properties valT) as [ps|]; [|discriminate].
    intros [= <-].
    destruct (fold_members_entry ps c)
      as (H0 & H1 & H2 & H3 & H4 & H5 & H6 & H7 & H8 & H9 & H10).
    rewrite H0, H1, H2, H3, H4, H5, H6, H7, H8, H9, H10.
    rewrite ?app_nil_r. repeat split.
  - destruct (node_properties valT) as [ps|]; [|discriminate].
    intros [= <-].
    destruct (fold_push_properties ps c)
      as (H0 & H1 & H2 & H3 & H4 & H5 & H6 & H7 & H8 & H9 & H10).
    rewrite H0, H1, H2, H3, H4, H5, H6, H7, H8, H9, H10.
    rewrite ?app_nil_r. repeat split.
  - destruct (node_properties valT) as [ps|]; [|discriminate].
    intros [= <-].
    destruct (fold_push_events ps c)
      as (H0 & H1 & H2 & H3 & H4 & H5 & H6 & H7 & H8 & H9 & H10).
    rewrite H0, H1, H2, H3, H4, H5, H6, H7, H8, H9, H10.
    rewrite ?app_nil_r. repeat split.
Qed.
Lemma foldM_parse_section_effect props :
  forall c c',
  foldM parse_section props c = inr c' -> sections_effect c props c'.
Proof.
  induction props as [|t props IH]; intros c c'; simpl.
  - intros [= <-]. unfold sections_effect. simpl.
    rewrite !app_nil_r. repeat split.
  - destruct (parse_section c t) as [e|c1] eqn:E; [discriminate|].
    intros Hrest. apply IH in Hrest. apply parse_section_effect in E.
    unfold sections_effect, section_effect in *. simpl.
    destruct Hrest as (R1 & R2 & R3 & R4 & R5 & R6 & R7 & R8 & R9 & R10
                       & R11).
    destruct E as (E1 & E2 & E3 & E4 & E5 & E6 & E7 & E8 & E9 & E10 & E11).
    rewrite R1, R2, R3, R4, R5, R8, R9, R10, R11.
    rewrite E1, E2, E3, E4, E5, E8, E9, E10, E11.
    rewrite <- !app_assoc.
    revert R6 R7 E6 E7.
    destruct (last_value "type" props), (last_value "extend" props),
      (last_value "include" props), (last_value "implement" props),
      (key_is "include" t), (key_is "implement" t);
      intros R6 R7 E6 E7;
      repeat split;
      try (destruct (key_is "type" t); reflexivity);
      try (destruct (key_is "extend" t); reflexivity);
      congruence.
Qed.

Lemma ref_tags_inr valT tags :
  ref_tags valT = inr tags ->
  Forall (fun m => exists t, m = ref_tag t) tags.
Proof.
  unfold ref_tags. destruct valT as [| |l elements| | | | |];
    try (intros [= <-]; repeat constructor; eexists; reflexivity).
  revert tags. induction elements as [|t elements IH]; simpl; intros tags.
  - intros [= <-]. constructor.
  - destruct t as [t|]; simpl; [|discriminate].
    destruct (mapM ref_element elements) as [e|tags']; [discriminate|].
    intros [= <-]. constructor; [eexists; reflexivity | now apply IH].
Qed.

Lemma ref_tags_ok valT :
  (exists tags, ref_tags valT = inr tags) <-> no_hole valT = true.
Proof.
  unfold ref_tags, no_hole. destruct valT as [| |l elements| | | | |];
    try solve [split; eauto].
  induction elements as [|t elements IH]; simpl; [split; eauto|].
  destruct t as [t|]; simpl.
  - rewrite <- IH. destruct (mapM ref_element elements) as [e|tags'].
    + split; intros [tags Ht]; discriminate.
    + split; eauto.
  - split; [intros [tags Ht]|]; discriminate.
Qed.

Lemma parse_section_ok c t :
  (exists c1, parse_section c t = inr c1) <-> section_ok t = true.
Proof.
  unfold parse_section, section_ok, key_is, each_property, special_method.
  destruct t as [key valT]. simpl.
  destruct (node_name key) as [k|]; [|simpl; split; eauto].
  key_cases k;
    try (split; [reflexivity | eauto]);
    try (destruct (node_params valT);
         split; solve [eauto | discriminate | intros [c1 Hc]; discriminate]);
    try (destruct (node_properties valT);
         split; solve [eauto | discriminate | intros [c1 Hc]; discriminate]);
    try (rewrite <- ref_tags_ok; destruct (ref_tags valT);
         split; solve [eauto | intros [c1 Hc]; discriminate]).
Qed.

Lemma foldM_parse_section_ok props :
  forall c,
  (exists c', foldM parse_section props c = inr c') <->
  forallb section_ok props = true.
Proof.
  induction props as [|t props IH]; intros c; simpl.
  - split; eauto.
  - rewrite andb_true_iff, <- (parse_section_ok c t). split.
    + intros [c' Hc]. destruct (parse_section c t) as [e|c1] eqn:E;
        [discriminate|].
      split; [eauto|]. apply (IH c1). eauto.
    + intros [[c1 E] Hrest]. rewrite E. now apply IH.
Qed.

(** X6.  What the extractor makes of a class body, in one piece.  The
    sections [type], [extend], [include] and [implement] are
    assignments: when a key occurs more than once the last entry wins,
    and an earlier one leaves no trace.  The other sections add to
    their lists, in the order of the body: the methods are those of
    [construct], [destruct] and [members], the properties those of
    [members] and [properties].  Entries under any other key, or under
    a key that is not an identifier, add nothing. *)
Theorem _parseClass_fields path n line props cls :
  _parseClass path n (Some (ObjectExpression line props)) = inr cls ->
  srcPath cls = path /\ name cls = n /\
  bodyT cls = ObjectExpression line props /\
  type cls = match last_value "type" props with
             | Some v => Some (generate v)
             | None => None
             end /\
  extend cls = match last_value "extend" props with
               | Some v => Some (ref_tag v)
               | None => None
               end /\
  match last_value "include" props with
  | Some v => ref_tags v = inr (include cls)
  | None => include cls = []
  end /\
  match last_value "implement" props with
  | Some v => ref_tags v = inr (implement cls)
  | None => implement cls = []
  end /\
  methods cls = flat_map section_methods props /\
  properties cls = flat_map section_properties props /\
  statics cls = flat_map section_statics props /\
  events cls = flat_map section_events props.
Proof.
  unfold _parseClass. simpl. intros Hf.
  apply foldM_parse_section_effect in Hf. exact Hf.
Qed.

(** X7.  The extractor fails exactly on a body that is missing or not
    an object literal, or that has a [construct] or [destruct] whose
    value has no parameters (it is no function), or a [statics],
    [members], [properties] or [events] whose value is not an object
    literal, or an [include] or [implement] whose value is an array
    literal with a hole, as in [[MA, , MB]]; its only error is the
    type error.  The code generator is taken to return on every
    node. *)
Theorem _parseClass_succeeds_iff path n body :
  ((exists cls, _parseClass path n body = inr cls) <->
   exists line props,
     body = Some (ObjectExpression line props) /\
     forallb section_ok props = true) /\
  (forall e, _parseClass path n body = inl e -> e = TypeError).
Proof.
  split.
  - unfold _parseClass. destruct body as [b|].
    + destruct b as [| | |line0 props0| | | |]; simpl;
        try (split; [intros [cls Hc]; discriminate
                    | intros (l & ps & Hb & _); discriminate]).
      rewrite (foldM_parse_section_ok props0). split.
      * intros Hok. eauto.
      * intros (l & ps & [= <- <-] & Hok). exact Hok.
    + split; [intros [cls Hc]; discriminate
             | intros (l & ps & Hb & _); discriminate].
  - intros e. unfold _parseClass.
    destruct body as [b|]; [|congruence].
    destruct (node_properties b); [|congruence].
    apply foldM_parse_section_error.
Qed.
Lemma key_is_unique k1 k2 t :
  key_is k1 t = true -> key_is k2 t = true -> k1 = k2.
Proof.
  unfold key_is. destruct (node_name (fst t)); [|discriminate].
  rewrite !String.eqb_eq. congruence.
Qed.

Lemma key_name_string key :
  (exists s, key_name key = VString s) <-> string_key key = true.
Proof.
  destruct key as [l n|l v| | | | | |]; simpl;
    try (split; [intros [s Hs]; discriminate | discriminate]).
  - split; eauto.
  - destruct v; simpl;
      try (split; [intros [s Hs]; discriminate | discriminate]).
    split; eauto.
Qed.

Lemma ref_tags_named valT tags :
  ref_tags valT = inr tags -> Forall string_named tags.
Proof.
  intros Ht. apply ref_tags_inr in Ht.
  eapply Forall_impl; [|exact Ht].
  intros m [t ->]. eexists. reflexivity.
Qed.

Lemma special_method_tag display valT m :
  special_method display valT = inr m ->
  tag_name m = VString display /\ tag_signature m <> None.
Proof.
  unfold special_method. destruct (node_params valT); [|discriminate].
  intros [= <-]. simpl. split; [reflexivity | discriminate].
Qed.

Lemma in_member_methods ps m :
  In m (member_methods ps) ->
  exists e, In e ps /\ tag_name m = key_name (fst e) /\
            tag_signature m <> None.
Proof.
  unfold member_methods. rewrite in_flat_map. intros (e & He & Hm).
  exists e. split; [exact He|].
  destruct (snd e); simpl in Hm; try tauto.
  destruct Hm as [<-|[]]. simpl. split; [reflexivity | discriminate].
Qed.

Lemma in_member_properties ps m :
  In m (member_properties ps) ->
  exists e, In e ps /\ tag_name m = key_name (fst e).
Proof.
  unfold member_properties. rewrite in_flat_map. intros (e & He & Hm).
  exists e. split; [exact He|].
  destruct (snd e); simpl in Hm; try tauto;
    destruct Hm as [<-|[]]; reflexivity.
Qed.

Lemma member_entry_tag e ps :
  In e ps ->
  exists m, In m (member_methods ps ++ member_properties ps) /\
            tag_name m = key_name (fst e).
Proof.
  intros He. unfold member_methods, member_properties.
  destruct (snd e) eqn:V;
    eexists; (split; [apply in_or_app|]);
    try (right; apply in_flat_map; exists e; split; [exact He|];
         rewrite V; left; reflexivity);
    try (left; apply in_flat_map; exists e; split; [exact He|];
         rewrite V; left; reflexivity);
    reflexivity.
Qed.

Lemma in_member_entries e props :
  In e (member_entries props) <->
  exists t, In t props /\ In e (entries (snd t)) /\
            (key_is "statics" t = true \/ key_is "members" t = true \/
             key_is "properties" t = true \/ key_is "events" t = true).
Proof.
  unfold member_entries. rewrite in_flat_map. split.
  - intros (t & Ht & He). exists t. split; [exact Ht|].
    destruct (key_is "statics" t) eqn:K1, (key_is "members" t) eqn:K2,
      (key_is "properties" t) eqn:K3, (key_is "events" t) eqn:K4;
      simpl in He; tauto.
  - intros (t & Ht & He & Hk). exists t. split; [exact Ht|].
    destruct Hk as [K | [K | [K | K]]]; rewrite K, ?orb_true_r; exact He.
Qed.

(** In every extracted record each method has a signature, and the
    includes, implements, statics, events and the superclass
    reference have none. *)
Lemma _parseClass_signatures path n body cls :
  _parseClass path n body = inr cls ->
  Forall (fun m => tag_signature m <> None) (methods cls) /\
  Forall (fun m => tag_signature m = None)
         (include cls ++ implement cls ++ statics cls ++ events cls) /\
  (forall x, extend cls = Some x -> tag_signature x = None) /\
  (forall m, In m (collect_members cls) ->
     (kind m = "m" -> signature m <> None) /\
     (kind m = "n" \/ kind m = "i" \/ kind m = "s" \/ kind m = "e" ->
      signature m = None)).
Proof.
  intros Hp.
  assert (Hcls : exists line props,
             sections_effect (empty_class path n
                                (ObjectExpression line props)) props cls).
  { unfold _parseClass in Hp. destruct body as [b|]; [|discriminate].
    destruct b as [| | |line props| | | |]; try discriminate.
    simpl in Hp. exists line, props.
    now apply foldM_parse_section_effect. }
  destruct Hcls as (line & props & Heff).
  destruct Heff as (_ & _ & _ & _ & Hext & Hinc & Himp & Hm & _ & Hs & He).
  simpl in *.
  assert (Href : forall v tags,
             ref_tags v = inr tags ->
             Forall (fun m => tag_signature m = None) tags).
  { intros v tags Ht. apply ref_tags_inr in Ht.
    eapply Forall_impl; [|exact Ht]. intros m [t ->]. reflexivity. }
  assert (Hplain : forall ps, Forall (fun m => tag_signature m = None)
                                     (map plain_tag ps)).
  { intros ps. apply Forall_forall. intros x Hx.
    apply in_map_iff in Hx as (t & <- & _). reflexivity. }
  assert (HM : Forall (fun m => tag_signature m <> None) (methods cls)).
  { rewrite Hm. apply Forall_forall. intros m Hin.
    apply in_flat_map in Hin as (t & _ & Hin). unfold section_methods in Hin.
    destruct (key_is "construct" t).
    - destruct (special_method _ _) eqn:S; [destruct Hin|].
      destruct Hin as [<-|[]]. now apply special_method_tag in S.
    - destruct (key_is "destruct" t).
      + destruct (special_method _ _) eqn:S; [destruct Hin|].
        destruct Hin as [<-|[]]. now apply special_method_tag in S.
      + destruct (key_is "members" t); [|destruct Hin].
        apply in_member_methods in Hin as (e & _ & _ & Hsig). exact Hsig. }
  assert (HN : Forall (fun m => tag_signature m = None)
                 (include cls ++ implement cls ++ statics cls
                  ++ events cls)).
  { rewrite Hs, He. repeat (apply Forall_app; split).
    - destruct (last_value "include" props);
        [eapply Href, Hinc | rewrite Hinc; constructor].
    - destruct (last_value "implement" props);
        [eapply Href, Himp | rewrite Himp; constructor].
    - apply Forall_flat_map, Forall_forall. intros t _.
      unfold section_statics. destruct (key_is "statics" t);
        [apply Hplain | constructor].
    - apply Forall_flat_map, Forall_forall. intros t _.
      unfold section_events. destruct (key_is "events" t);
        [apply Hplain | constructor]. }
  split; [exact HM|]. split; [exact HN|]. split.
  - intros x Hx. rewrite Hext in Hx.
    destruct (last_value "extend" props); [|discriminate].
    injection Hx as <-. reflexivity.
  - rewrite Forall_forall in HM, HN.
    intros m Hin. unfold collect_members in Hin.
    rewrite !in_app_iff, !in_map_iff in Hin.
    destruct Hin as [Hi|[Hi|[Hi|[Hi|[Hi|Hi]]]]];
      destruct Hi as (t & <- & Ht); simpl;
      (split; [intros Hk | intros Hk]);
      try discriminate;
      try (destruct Hk as [Hk|[Hk|[Hk|Hk]]]; discriminate);
      try (apply HM; exact Ht);
      try (apply HN; rewrite !in_app_iff; tauto).
Qed.

(** X9.  The member names of an extracted record are all strings
    exactly when every key in its sections [statics], [members],
    [properties] and [events] is an identifier or a string literal; a
    numeric or a computed key gives a name that is no string. *)
Theorem extracted_names_iff path n line props cls :
  _parseClass path n (Some (ObjectExpression line props)) = inr cls ->
  (members_string_named cls <->
   forallb (fun e => string_key (fst e)) (member_entries props) = true).
Proof.
  unfold _parseClass. simpl. intros Hp.
  apply foldM_parse_section_effect in Hp.
  destruct Hp as (_ & _ & _ & _ & _ & Hinc & Himp & Hm & Hpr & Hs & He).
  simpl in *. unfold members_string_named.
  rewrite forallb_forall. split.
  - rewrite Forall_forall. intros Hn e Hin. apply key_name_string.
    apply in_member_entries in Hin as (t & Ht & Hin & Hk).
    assert (Hgoal : exists m,
               In m (include cls ++ implement cls ++ methods cls ++
                     properties cls ++ statics cls ++ events cls) /\
               tag_name m = key_name (fst e)).
    { rewrite Hm, Hpr, Hs, He. destruct Hk as [K|[K|[K|K]]].
      - exists (plain_tag e). split; [|reflexivity].
        rewrite !in_app_iff. do 4 right. left.
        apply in_flat_map. exists t. split; [exact Ht|].
        unfold section_statics. rewrite K. now apply in_map.
      - destruct (member_entry_tag e _ Hin) as (m & Hmm & Hname).
        exists m. split; [|exact Hname].
        apply in_app_or in Hmm. rewrite !in_app_iff.
        destruct Hmm as [Hmm|Hmm].
        + do 2 right. left. apply in_flat_map. exists t.
          split; [exact Ht|]. unfold section_methods. rewrite K.
          destruct (key_is "construct" t) eqn:K1;
            [pose proof (key_is_unique _ _ _ K K1); discriminate|].
          destruct (key_is "destruct" t) eqn:K2;
            [pose proof (key_is_unique _ _ _ K K2); discriminate|].
          exact Hmm.
        + do 3 right. left. apply in_flat_map. exists t.
          split; [exact Ht|]. unfold section_properties. now rewrite K.
      - exists (plain_tag e). split; [|reflexivity].
        rewrite !in_app_iff. do 3 right. left.
        apply in_flat_map. exists t. split; [exact Ht|].
        unfold section_properties. rewrite K.
        destruct (key_is "members" t) eqn:K1;
          [pose proof (key_is_unique _ _ _ K K1); discriminate|].
        now apply in_map.
      - exists (plain_tag e). split; [|reflexivity].
        rewrite !in_app_iff. do 5 right.
        apply in_flat_map. exists t. split; [exact Ht|].
        unfold section_events. rewrite K. now apply in_map. }
    destruct Hgoal as (m & Hmin & Hname).
    rewrite <- Hname. apply (Hn m Hmin).
  - intros Hkeys.
    assert (Hentry : forall t e,
               In t props -> In e (entries (snd t)) ->
               (key_is "statics" t = true \/ key_is "members" t = true \/
                key_is "properties" t = true \/ key_is "events" t = true) ->
               exists s, key_name (fst e) = VString s).
    { intros t e Ht Hin Hk. apply key_name_string. apply Hkeys.
      apply in_member_entries. eauto. }
    assert (Hplain : forall t,
               In t props ->
               (key_is "statics" t = true \/ key_is "members" t = true \/
                key_is "properties" t = true \/ key_is "events" t = true) ->
               Forall string_named (map plain_tag (entries (snd t)))).
    { intros t Ht Hk. apply Forall_forall. intros m Hin.
      apply in_map_iff in Hin as (e & <- & Hin). exact (Hentry t e Ht Hin Hk). }
    rewrite Hm, Hpr, Hs, He.
    repeat (apply Forall_app; split).
    + destruct (last_value "include" props);
        [eapply ref_tags_named, Hinc | rewrite Hinc; constructor].
    + destruct (last_value "implement" props);
        [eapply ref_tags_named, Himp | rewrite Himp; constructor].
    + apply Forall_forall. intros m Hin.
      apply in_flat_map in Hin as (t & Ht & Hin).
      unfold section_methods in Hin.
      destruct (key_is "construct" t).
      { destruct (special_method _ _) eqn:S; [destruct Hin|].
        destruct Hin as [<-|[]]. apply special_method_tag in S as [Hn _].
        eexists. exact Hn. }
      destruct (key_is "destruct" t).
      { destruct (special_method _ _) eqn:S; [destruct Hin|].
        destruct Hin as [<-|[]]. apply special_method_tag in S as [Hn _].
        eexists. exact Hn. }
      destruct (key_is "members" t) eqn:K; [|destruct Hin].
      apply in_member_methods in Hin as (e & He' & Hname & _).
      unfold string_named. rewrite Hname. apply (Hentry t e Ht He'). tauto.
    + apply Forall_forall. intros m Hin.
      apply in_flat_map in Hin as (t & Ht & Hin).
      unfold section_properties in Hin.
      destruct (key_is "members" t) eqn:K.
      { apply in_member_properties in Hin as (e & He' & Hname).
        unfold string_named. rewrite Hname. apply (Hentry t e Ht He').
        tauto. }
      destruct (key_is "properties" t) eqn:K2; [|destruct Hin].
      assert (Hf := Hplain t Ht (or_intror (or_intror (or_introl K2)))).
      rewrite Forall_forall in Hf. now apply Hf.
    + apply Forall_forall. intros m Hin.
      apply in_flat_map in Hin as (t & Ht & Hin).
      unfold section_statics in Hin.
      destruct (key_is "statics" t) eqn:K; [|destruct Hin].
      assert (Hf := Hplain t Ht (or_introl K)).
      rewrite Forall_forall in Hf. now apply Hf.
    + apply Forall_forall. intros m Hin.
      apply in_flat_map in Hin as (t & Ht & Hin).
      unfold section_events in Hin.
      destruct (key_is "events" t) eqn:K; [|destruct Hin].
      assert (Hf := Hplain t Ht (or_intror (or_intror (or_intror K)))).
      rewrite Forall_forall in Hf. now apply Hf.
Qed.
End ExtractorMore.

(* ================================================================== *)
(** * More on the emitter *)

Section EmitterMore.
Context `{Collaborators}.

Lemma member_records_kind cls l :
  forall ms,
  Forall (fun m => (kind m =? "c") = false) l ->
  Forall2 (fun m r => member_tags cls m = inr r) l ms ->
  filter class_kind ms = [].
Proof.
  induction l as [|m l IH]; intros ms Hk Hf.
  - inversion Hf. reflexivity.
  - inversion Hf as [|? r ? rl Hm Hrest]; subst.
    inversion Hk as [|? ? Hkm Hkl]; subst.
    simpl. rewrite (IH _ Hkl Hrest).
    unfold member_tags in Hm. destruct (access_of _); [discriminate|].
    injection Hm as <-. unfold class_kind. simpl. now rewrite Hkm.
Qed.

Lemma collect_members_not_class cls :
  Forall (fun m => (kind m =? "c") = false) (collect_members cls).
Proof.
  unfold collect_members. repeat (apply Forall_app; split);
    apply Forall_forall; intros m Hm;
    apply in_map_iff in Hm as (t & <- & _); reflexivity.
Qed.

Lemma NoDup_keys_get {K V : Type} `{EqDec K} (k : K) (v : V) m :
  NoDup (JsMap.keys m) -> In (k, v) m -> JsMap.get k m = Some v.
Proof.
  unfold JsMap.keys.
  induction m as [|[k' v'] m IH]; simpl; [tauto|].
  intros Hnd [Heq|Hin].
  - injection Heq as -> ->. destruct (eq_dec k k); congruence.
  - inversion Hnd as [|? ? Hni Hnd']; subst.
    destruct (eq_dec k k') as [->|_]; [|now apply IH].
    exfalso. apply Hni. apply in_map_iff. exists (k', v). split; auto.
Qed.

Lemma get_In {K V : Type} `{EqDec K} (k : K) (v : V) m :
  JsMap.get k m = Some v -> In (k, v) m.
Proof.
  induction m as [|[k' v'] m IH]; simpl; [discriminate|].
  destruct (eq_dec k k') as [->|_]; [intros [= ->]; now left|].
  intros Hg. right. now apply IH.
Qed.

(** Every record of a reachable registry sits under its own name. *)
Lemma Reachable_keyed s :
  Reachable s ->
  forall n c, JsMap.get n (classes s) = Some c -> name c = n.
Proof.
  induction 1 as [|fs path s _ IH]; [discriminate|].
  assert (Hrm : forall n c,
             JsMap.get n (classes (snd (_removeSrc path s))) = Some c ->
             name c = n).
  { intros n c. unfold _removeSrc.
    destruct (JsMap.get path (srcs s)); simpl; [|apply IH].
    intros Hg. apply get_delete_classes_some in Hg as [_ Hg].
    now apply IH. }
  unfold checkFile. destruct (path =? resolve path); simpl; [|exact IH].
  destruct (fs path) as [src|code];
    [|destruct (code =? "ENOENT"); exact Hrm].
  unfold _addSrc. destruct (parseScript src) as [t|]; [|exact Hrm].
  destruct (_parseClasses _ _ _) as [e|classes']; [exact Hrm|].
  simpl. intros n c. rewrite get_set_classes.
  destruct (last_named n classes') as [c'|] eqn:L; [|apply Hrm].
  intros [= <-]. now apply last_named_some in L.
Qed.

Lemma extract_call_inr path candidate cls :
  extract_call path candidate = Some (inr cls) ->
  exists nm body, _parseClass path nm body = inr cls.
Proof.
  unfold extract_call.
  destruct candidate as [| | | | | |l callee args|]; try discriminate.
  destruct (negb _); [discriminate|].
  destruct (nth_error args 0) as [arg0|]; [|discriminate].
  intros [= Hp]. eauto.
Qed.

(** Every record of a reachable registry was returned by
    [_parseClass]. *)
Lemma Reachable_extracted s :
  Reachable s ->
  forall n c, JsMap.get n (classes s) = Some c ->
  exists path nm body, _parseClass path nm body = inr c.
Proof.
  induction 1 as [|fs path s _ IH]; [discriminate|].
  assert (Hrm : forall n c,
             JsMap.get n (classes (snd (_removeSrc path s))) = Some c ->
             exists path nm body, _parseClass path nm body = inr c).
  { intros n c. unfold _removeSrc.
    destruct (JsMap.get path (srcs s)); simpl; [|apply IH].
    intros Hg. apply get_delete_classes_some in Hg as [_ Hg].
    now apply (IH n). }
  unfold checkFile. destruct (path =? resolve path); simpl; [|exact IH].
  destruct (fs path) as [src|code];
    [|destruct (code =? "ENOENT"); exact Hrm].
  unfold _addSrc. destruct (parseScript src) as [t|]; [|exact Hrm].
  destruct (_parseClasses _ _ _) as [e|classes'] eqn:P; [exact Hrm|].
  simpl. intros n c. rewrite get_set_classes.
  destruct (last_named n classes') as [c'|] eqn:L; [|apply Hrm].
  intros [= <-]. apply last_named_some in L as [Hin _].
  apply _parseClasses_inr in P as (-> & _ & _).
  apply in_extracted in Hin as (cand & _ & Hc).
  apply extract_call_inr in Hc as (nm & body & Hp). eauto.
Qed.

(** X8.  In the text written for a reachable registry every record of
    kind [m] has an eighth and last field [signature:], and every
    record of the kinds [n], [i], [s] and [e] has seven fields and so
    no [signature:] field: the extractor gives every method a
    signature and gives none to includes, implements, statics and
    events. *)
Theorem extracted_signatures s rs :
  Reachable s ->
  genCtags_records s = inr rs ->
  genCtags s
  = Normal (spec_header ++ String.concat "" (map spec_line rs))%string /\
  Forall (fun fields =>
            (nth_error fields 3 = Some "m" ->
             exists sg, skipn 7 fields = [("signature:" ++ sg)%string]) /\
            (nth_error fields 3 = Some "n" \/
             nth_error fields 3 = Some "i" \/
             nth_error fields 3 = Some "s" \/
             nth_error fields 3 = Some "e" ->
             List.length fields = 7)) rs.
Proof.
  intros HR Hr. split; [now apply genCtags_text|].
  destruct (Reachable_NoDup s HR) as [_ Hnd].
  apply genCtags_records_inr in Hr as (blocks & -> & Hb).
  apply Forall_forall. intros fields Hin.
  apply in_concat in Hin as (block & Hblock & Hin).
  destruct (Forall2_In_r _ _ _ _ Hb Hblock) as (cls & Hcin & Hc).
  assert (Hsig : forall m, In m (collect_members cls) ->
            (kind m = "m" -> signature m <> None) /\
            (kind m = "n" \/ kind m = "i" \/ kind m = "s" \/ kind m = "e" ->
             signature m = None)).
  { unfold JsMap.values in Hcin.
    apply in_map_iff in Hcin as ([n c] & Heq & Hcin). simpl in Heq. subst c.
    apply (NoDup_keys_get n cls _ Hnd) in Hcin.
    destruct (Reachable_extracted s HR n cls Hcin) as (path & nm & body & Hp).
    now apply _parseClass_signatures in Hp. }
  apply class_records_inr in Hc as (ms & -> & Hms).
  destruct Hin as [<-|Hin].
  { split; [discriminate|]. intros [K|[K|[K|K]]]; discriminate K. }
  apply in_app_or in Hin as [Hin|Hin].
  { unfold extend_records in Hin. destruct (extend cls); [|destruct Hin].
    destruct Hin as [<-|[]].
    split; [discriminate|]. intros [K|[K|[K|K]]]; discriminate K. }
  destruct (Forall2_In_r _ _ _ _ Hms Hin) as (m & Hm & Hr).
  apply (Permutation_in _ (sort_members_perm _)) in Hm.
  destruct (Hsig m Hm) as [Hmeth Hnone].
  apply member_tags_spec in Hr as (nm & _ & ->).
  unfold spec_member_record. simpl. split.
  - intros [= K]. destruct (signature m) as [sg|] eqn:S.
    + exists sg. reflexivity.
    + exfalso. now apply (Hmeth K).
  - intros K. rewrite Hnone; [reflexivity|].
    destruct K as [[= K]|[[= K]|[[= K]|[= K]]]]; auto.
Qed.

(** X10.  [genCtags] returns a text exactly when every member name of
    every registered class is a string; the only error it can throw is
    a [TypeError], raised by [startsWith] on a name that is no
    string. *)
Theorem genCtags_returns_iff s :
  ((exists text, genCtags s = Normal text) <->
   Forall members_string_named (JsMap.values (classes s))) /\
  (forall e, genCtags s = Throw e -> e = TypeError).
Proof.
  unfold genCtags, genCtags_buf. split; [split|].
  - intros [text Ht].
    destruct (genCtags_records s) as [e|rs] eqn:R; [discriminate|].
    apply genCtags_records_inr in R as (blocks & _ & Hb).
    apply Forall_forall. intros cls Hin.
    destruct (Forall2_In_l _ _ _ _ Hb Hin) as (block & _ & Hc).
    now apply class_records_named in Hc.
  - intros Hn. destruct (genCtags_records_total s Hn) as [rs ->]. eauto.
  - intros e. unfold genCtags_records.
    destruct (mapM _ _) as [e'|bs] eqn:M; [|discriminate].
    intros [= <-]. apply mapM_inl in M as (cls & _ & Hc).
    now apply class_records_inl in Hc.
Qed.

(** X11.  In the output for a reachable registry the second field of
    every record, of a class, of its superclass and of a member, is a
    path the registry tracks, and a resolved one: no record points to
    a file that was retracted. *)
Theorem genCtags_paths_tracked s rs :
  Reachable s ->
  genCtags_records s = inr rs ->
  Forall (fun fields =>
            exists p si, nth_error fields 1 = Some p /\
                         JsMap.get p (srcs s) = Some si /\
                         resolve p = p) rs.
Proof.
  intros HR Hr.
  pose proof (Reachable_Inv s HR) as [_ Htr Hres].
  destruct (Reachable_NoDup s HR) as [_ Hnd].
  apply genCtags_records_inr in Hr as (blocks & -> & Hb).
  assert (Hcls : forall cls, In cls (JsMap.values (classes s)) ->
                 exists si, JsMap.get (srcPath cls) (srcs s) = Some si /\
                            resolve (srcPath cls) = srcPath cls).
  { intros cls Hin. unfold JsMap.values in Hin.
    apply in_map_iff in Hin as ([n c] & Hc & Hin). simpl in Hc. subst c.
    apply (NoDup_keys_get n cls _ Hnd) in Hin.
    destruct (Htr n cls Hin) as [si Hsi]. exists si. split; [exact Hsi|].
    exact (Hres _ _ Hsi). }
  apply Forall_forall. intros fields Hin.
  apply in_concat in Hin as (block & Hblock & Hin).
  destruct (Forall2_In_r _ _ _ _ Hb Hblock) as (cls & Hcin & Hc).
  destruct (Hcls cls Hcin) as (si & Hsi & Hp).
  exists (srcPath cls), si. split; [|split; assumption].
  apply class_records_inr in Hc as (ms & -> & Hms).
  destruct Hin as [<-|Hin]; [reflexivity|].
  apply in_app_or in Hin as [Hin|Hin].
  - unfold extend_records in Hin. destruct (extend cls); [|destruct Hin].
    destruct Hin as [<-|[]]. reflexivity.
  - destruct (Forall2_In_r _ _ _ _ Hms Hin) as (m & _ & Hm).
    now apply member_tags_inr in Hm.
Qed.

(** X12.  In a reachable registry every class record is stored under
    its own name and no two records carry the same name, so the output
    has one class record for each registered name, in the order of
    the class table. *)
Theorem Reachable_names_unique s :
  Reachable s ->
  map name (JsMap.values (classes s)) = JsMap.keys (classes s) /\
  NoDup (map name (JsMap.values (classes s))) /\
  (forall rs, genCtags_records s = inr rs ->
     filter class_kind rs = map class_tags (JsMap.values (classes s))).
Proof.
  intros HR.
  destruct (Reachable_NoDup s HR) as [_ Hnd].
  assert (Hk : map name (JsMap.values (classes s)) = JsMap.keys (classes s)).
  { unfold JsMap.values, JsMap.keys. rewrite map_map.
    apply map_ext_in. intros [n c] Hin. simpl.
    apply (Reachable_keyed s HR). now apply NoDup_keys_get. }
  split; [exact Hk|]. split; [now rewrite Hk|].
  intros rs Hr. clear Hk Hnd HR.
  apply genCtags_records_inr in Hr as (blocks & -> & Hb).
  induction Hb as [|cls block l bs Hc _ IH]; [reflexivity|].
  simpl. rewrite filter_app, IH. clear IH.
  apply class_records_inr in Hc as (ms & -> & Hms).
  simpl. f_equal. rewrite filter_app.
  rewrite (member_records_kind cls (sort_members (collect_members cls)) ms); [|
    eapply Permutation_Forall;
      [apply Permutation_sym, sort_members_perm
      | apply collect_members_not_class] | exact Hms].
  unfold extend_records. destruct (extend cls); reflexivity.
Qed.
End EmitterMore.

(* ================================================================== *)
(** * The directory index: scanning *)

Section ScanFacts.
Context `{Collaborators} `{PathLib}.

Lemma check_each_Reachable fs paths :
  forall s, Reachable s -> Reachable (snd (check_each fs paths s)).
Proof.
  induction paths as [|p rest IH]; intros s HR; [exact HR|].
  simpl. pose proof (reach_checkFile fs p s HR) as HR'.
  destruct (checkFile fs p s) as [[v|e] s']; simpl in *; auto.
Qed.

Lemma _rm_Reachable fs path d :
  Reachable (srcm d) -> Reachable (srcm (snd (fst (_rm fs path d)))).
Proof.
  intros HR. unfold _rm.
  destruct (negb _); [exact HR|].
  pose proof (check_each_Reachable fs
    (filter (fun s => prefix path s) (JsMap.keys (srcs (srcm d))))
    (srcm d) HR) as HR'.
  destruct (check_each _ _ _) as [[v|e] s']; exact HR'.
Qed.

Lemma scan_names_Reachable disk path names :
  forall dirQ s,
  Reachable s ->
  Reachable (snd (scan_names disk path names dirQ s)).
Proof.
  induction names as [|name rest IH]; intros dirQ s HR; [exact HR|].
  simpl. destruct (statSync disk (join path name)) as [[| |]|code];
    auto.
  destruct (endsWith _ _); auto.
  pose proof (reach_checkFile (readFileSync disk) (join path name) s HR)
    as HR'.
  destruct (checkFile _ _ _) as [[v|e] s']; simpl in *; auto.
Qed.

Lemma scan_loop_Reachable fuel disk :
  forall dirQ d emitted c d' evs,
  Reachable (srcm d) ->
  scan_loop fuel disk dirQ d emitted = Some (c, d', evs) ->
  Reachable (srcm d').
Proof.
  induction fuel as [|fuel IH]; intros dirQ d emitted c d' evs HR;
    [discriminate|].
  simpl. destruct dirQ as [|path dirQ']; [intros [= _ <- _]; exact HR|].
  destruct (path =? ""); [intros [= _ <- _]; exact HR|].
  destruct (readdirSync disk path) as [names|code].
  - destruct (existsb _ _) eqn:Has; [now apply IH|]. simpl.
    pose proof (scan_names_Reachable disk path names dirQ' (srcm d) HR)
      as HR'.
    destruct (scan_names _ _ _ _ _) as [[[v|e] q] s']; simpl in HR'.
    + apply IH. exact HR'.
    + intros [= _ <- _]. exact HR'.
  - destruct (code =? "ENOENT"); [|intros [= _ <- _]; exact HR].
    pose proof (_rm_Reachable (readFileSync disk) path d HR) as HR'.
    destruct (_rm _ _ _) as [[[v|e] d1] ev1]; simpl in HR'.
    + now apply IH.
    + intros [= _ <- _]. exact HR'.
Qed.

(** X13.  [scan] and [_rm] change the registry through [checkFile]
    alone: however they end, from a reachable registry they leave a
    reachable one, so ownership stays exact, every record keeps a
    tracked owner and no name or path occurs twice. *)
Theorem scan_keeps_registry fs path d :
  Reachable (srcm d) ->
  let after_rm := snd (fst (_rm fs path d)) in
  (Reachable (srcm after_rm) /\ Inv (srcm after_rm)) /\
  (forall fuel disk c d' evs,
     scan fuel disk path d = Some (c, d', evs) ->
     Reachable (srcm d') /\ Inv (srcm d') /\
     NoDup (JsMap.keys (srcs (srcm d'))) /\
     NoDup (JsMap.keys (classes (srcm d')))).
Proof.
  intros HR. split.
  - pose proof (_rm_Reachable fs path d HR) as HR'.
    split; [exact HR' | now apply Reachable_Inv].
  - intros fuel disk c d' evs. unfold scan.
    destruct (negb _).
    + intros [= _ <- _]. split; [exact HR|].
      split; [now apply Reachable_Inv | now apply Reachable_NoDup].
    + intros Hs. apply scan_loop_Reachable in Hs; [|exact HR].
      split; [exact Hs|].
      split; [now apply Reachable_Inv | now apply Reachable_NoDup].
Qed.

Lemma In_dirs_add p path ds :
  In p (dirs_add path ds) <-> In p ds \/ p = path.
Proof.
  unfold dirs_add. destruct (existsb _ _) eqn:E.
  - apply existsb_eqb_In in E. split; [tauto|].
    intros [Hp| ->]; assumption.
  - rewrite in_app_iff. simpl. intuition.
Qed.

Lemma NoDup_dirs_add path ds : NoDup ds -> NoDup (dirs_add path ds).
Proof.
  intros Hnd. unfold dirs_add. destruct (existsb _ _) eqn:E; [exact Hnd|].
  assert (Hni : ~ In path ds).
  { intros Hin. apply existsb_eqb_In in Hin. congruence. }
  clear E. induction ds as [|a ds IH]; simpl.
  - constructor; [tauto | constructor].
  - inversion Hnd as [|? ? Ha Hds]; subst. constructor.
    + rewrite in_app_iff. simpl. intros [Hin|[Heq|[]]]; [tauto|].
      apply Hni. now left.
    + apply IH; [exact Hds|]. intros Hin. apply Hni. now right.
Qed.

Lemma _rm_dirs fs path d :
  dirs (snd (fst (_rm fs path d))) =
  if existsb (String.eqb path) (dirs d)
  then filter (fun s => negb (prefix path s)) (dirs d)
  else dirs d.
Proof.
  unfold _rm. destruct (existsb _ _); simpl; [|reflexivity].
  destruct (check_each _ _ _) as [[v|e] s']; reflexivity.
Qed.

Lemma _rm_events fs path d c d' evs :
  _rm fs path d = (c, d', evs) ->
  (evs = [] \/ evs = [EvRm path]) /\
  (forall b, c = Normal b ->
     forall p, In p (dirs d) ->
       In p (dirs d') \/ (In (EvRm path) evs /\ prefix path p = true)).
Proof.
  unfold _rm. destruct (existsb _ _); simpl.
  - destruct (check_each _ _ _) as [[v|e] s'];
      intros [= <- <- <-]; (split; [auto|]); intros b Hb; [|discriminate].
    intros p Hp. simpl. destruct (prefix path p) eqn:P.
    + right. split; [now left | reflexivity].
    + left. apply filter_In. split; [exact Hp|]. now rewrite P.
  - intros [= <- <- <-]. split; [auto|]. intros b _ p Hp. now left.
Qed.

(** The events of the loop and the index, turn after turn. *)
Ltac no_new_event :=
  split; [auto|]; split; [intros ? []|]; split; [intros ? []|];
  split; [auto; try discriminate | auto].

Lemma scan_loop_events fuel disk :
  forall dirQ d emitted c d' evs,
  scan_loop fuel disk dirQ d emitted = Some (c, d', evs) ->
  exists new,
    evs = emitted ++ new /\
    (forall p, In p (dirs d') -> In p (dirs d) \/ In (EvAdd p) new) /\
    (forall p, In (EvAdd p) new ->
       p <> "" /\ exists names, readdirSync disk p = ReaddirOk names) /\
    (forall r, In (EvRm r) new ->
       r <> "" /\ readdirSync disk r = ReaddirFail "ENOENT") /\
    (c = Normal tt ->
     forall p, In p (dirs d) ->
       In p (dirs d') \/
       exists r, In (EvRm r) new /\ prefix r p = true) /\
    (NoDup (dirs d) -> NoDup (dirs d')).
Proof.
  induction fuel as [|fuel IH]; intros dirQ d emitted c d' evs;
    [discriminate|].
  assert (Hstop : Some (Normal tt, d, emitted) = Some (c, d', evs) ->
    exists new,
      evs = emitted ++ new /\
      (forall p, In p (dirs d') -> In p (dirs d) \/ In (EvAdd p) new) /\
      (forall p, In (EvAdd p) new ->
         p <> "" /\ exists names, readdirSync disk p = ReaddirOk names) /\
      (forall r, In (EvRm r) new ->
         r <> "" /\ readdirSync disk r = ReaddirFail "ENOENT") /\
      (c = Normal tt ->
       forall p, In p (dirs d) ->
         In p (dirs d') \/
         exists r, In (EvRm r) new /\ prefix r p = true) /\
      (NoDup (dirs d) -> NoDup (dirs d'))).
  { intros [= <- <- <-]. exists []. rewrite app_nil_r.
    split; [reflexivity|]. no_new_event. }
  simpl. destruct dirQ as [|path dirQ']; [exact Hstop|].
  destruct (path =? "") eqn:Hempty; [exact Hstop|]. clear Hstop.
  apply String.eqb_neq in Hempty.
  destruct (readdirSync disk path) as [names|code] eqn:Hrd.
  - destruct (existsb _ _) eqn:Has; [apply IH|]. simpl.
    destruct (scan_names _ _ _ _ _) as [[[v|e] q] s'].
    + intros Hs. apply IH in Hs.
      destruct Hs as (new & -> & Hd & Ha & Hr & Hn & Hnd). simpl in *.
      exists (EvAdd path :: new). rewrite <- app_assoc. simpl.
      split; [reflexivity|]. split; [|split; [|split; [|split]]].
      * intros p Hp. destruct (Hd p Hp) as [Hin|Hin]; [|auto].
        apply In_dirs_add in Hin as [Hin| ->]; auto.
      * intros p [[= <-]|Hp]; [split; eauto | auto].
      * intros r [[=]|Hp]; auto.
      * intros Hc p Hp.
        destruct (Hn Hc p) as [Hin|(r & Hin & Hpre)].
        -- apply In_dirs_add. now left.
        -- now left.
        -- right. exists r. split; [now right | exact Hpre].
      * intros Hd0. apply Hnd. now apply NoDup_dirs_add.
    + intros [= <- <- <-]. exists []. rewrite app_nil_r. simpl.
      split; [reflexivity|]. no_new_event.
  - destruct (code =? "ENOENT") eqn:Hcode.
    + apply String.eqb_eq in Hcode. subst code.
      pose proof (_rm_dirs (readFileSync disk) path d) as Hdirs.
      destruct (_rm (readFileSync disk) path d) as [[c1 d1] ev1] eqn:Hrm.
      simpl in Hdirs.
      apply _rm_events in Hrm as [Hev Hlost].
      assert (Hsub : forall p, In p (dirs d1) -> In p (dirs d)).
      { intros p. rewrite Hdirs. destruct (existsb _ _); [|auto].
        rewrite filter_In. tauto. }
      assert (Hnd1 : NoDup (dirs d) -> NoDup (dirs d1)).
      { rewrite Hdirs. destruct (existsb _ _); [|auto].
        apply NoDup_filter. }
      assert (Hrm_ev : forall r, In (EvRm r) ev1 -> r = path).
      { intros r. destruct Hev as [-> | ->]; simpl; [tauto|].
        intros [[= <-]|[]]. reflexivity. }
      assert (Hno_add : forall p, ~ In (EvAdd p) ev1).
      { intros p. destruct Hev as [-> | ->]; simpl; [tauto|].
        intros [[=]|[]]. }
      destruct c1 as [v|e].
      * intros Hs. apply IH in Hs.
        destruct Hs as (new & -> & Hd & Ha & Hr & Hn & Hnd).
        exists (ev1 ++ new). rewrite app_assoc.
        split; [reflexivity|]. split; [|split; [|split; [|split]]].
        -- intros p Hp. destruct (Hd p Hp) as [Hin|Hin].
           ++ left. now apply Hsub.
           ++ right. apply in_or_app. now right.
        -- intros p Hp. apply in_app_or in Hp as [Hp|Hp]; [|auto].
           now apply Hno_add in Hp.
        -- intros r Hp. apply in_app_or in Hp as [Hp|Hp]; [|auto].
           apply Hrm_ev in Hp. subst r. auto.
        -- intros Hc p Hp.
           destruct (Hlost v eq_refl p Hp) as [Hin|[Hin Hpre]].
           ++ destruct (Hn Hc p Hin) as [Hin'|(r & Hin' & Hpre)];
                [now left|].
              right. exists r. split; [|exact Hpre].
              apply in_or_app. now right.
           ++ right. exists path. split; [|exact Hpre].
              apply in_or_app. now left.
        -- auto.
      * intros [= <- <- <-]. exists ev1.
        split; [reflexivity|]. split; [|split; [|split; [|split]]].
        -- intros p Hp. left. now apply Hsub.
        -- intros p Hp. now apply Hno_add in Hp.
        -- intros r Hp. apply Hrm_ev in Hp. subst r. auto.
        -- discriminate.
        -- exact Hnd1.
    + intros [= <- <- <-]. exists []. rewrite app_nil_r.
      split; [reflexivity|]. no_new_event.
Qed.

(** X14.  The events of a scan that ends and the index.  A directory
    of the index afterwards was there before or has an add event; an
    add event names a path that is not empty and could be listed, an
    rm event one that is not empty and whose listing failed as
    missing; when the scan returns, every directory of the index
    before is still there or its path starts, as a string, with the
    path of an rm event, which is the test [startsWith] of [_rm]: the
    directory need not lie under that path, a sibling [/r/sub2] leaves
    the index with [/r/sub]; and an index without repetition stays
    so. *)
Theorem scan_events fuel disk path d c d' evs :
  scan fuel disk path d = Some (c, d', evs) ->
  (forall p, In p (dirs d') -> In p (dirs d) \/ In (EvAdd p) evs) /\
  (forall p, In (EvAdd p) evs ->
     p <> "" /\ exists names, readdirSync disk p = ReaddirOk names) /\
  (forall r, In (EvRm r) evs ->
     r <> "" /\ readdirSync disk r = ReaddirFail "ENOENT") /\
  (c = Normal tt ->
   forall p, In p (dirs d) ->
     In p (dirs d') \/ exists r, In (EvRm r) evs /\ prefix r p = true) /\
  (NoDup (dirs d) -> NoDup (dirs d')).
Proof.
  unfold scan. destruct (negb _).
  - intros [= <- <- <-]. no_new_event.
  - intros Hs. apply scan_loop_events in Hs.
    destruct Hs as (new & -> & Hrest). exact Hrest.
Qed.

(** X15.  Two cases in which [scan] does nothing and reports
    nothing: the directory is in the index already and can still be
    listed, so it is not read again and files new in it are not
    picked up; or it is missing and was never in the index. *)
Theorem scan_silent fuel disk path d :
  resolve path = path ->
  path <> "" ->
  (In path (dirs d) /\
   exists names, readdirSync disk path = ReaddirOk names) \/
  (~ In path (dirs d) /\ readdirSync disk path = ReaddirFail "ENOENT") ->
  scan (S (S fuel)) disk path d = Some (Normal tt, d, []).
Proof.
  intros Hres Hne Hcase. unfold scan.
  replace (path =? resolve path) with true
    by (symmetry; apply String.eqb_eq; congruence).
  simpl. apply String.eqb_neq in Hne. rewrite Hne.
  destruct Hcase as [[Hin [names ->]]|[Hni ->]].
  - apply existsb_eqb_In in Hin. rewrite Hin. reflexivity.
  - simpl. unfold _rm.
    destruct (existsb (String.eqb path) (dirs d)) eqn:E.
    + apply existsb_eqb_In in E. contradiction.
    + reflexivity.
Qed.

Lemma scan_names_flat disk path names :
  forall dirQ s,
  Forall (fun name =>
            exists st, statSync disk (join path name) = StatOk st /\
                       st <> IsDirectory) names ->
  scan_names disk path names dirQ s =
  (fst (check_each (readFileSync disk) (js_files disk path names) s),
   dirQ,
   snd (check_each (readFileSync disk) (js_files disk path names) s)).
Proof.
  unfold js_files.
  induction names as [|name rest IH]; intros dirQ s Hflat; [reflexivity|].
  inversion Hflat as [|? ? (st & Hst & Hnd) Hrest]; subst.
  simpl. rewrite Hst.
  destruct st; [contradiction| |now apply IH].
  destruct (endsWith _ _); [|now apply IH].
  simpl. destruct (checkFile _ _ _) as [[v|e] s']; [now apply IH|].
  reflexivity.
Qed.

(** X16.  A scan of a directory that is new to the index and holds
    no directory checks its files whose path ends in [.js], in the
    order of the listing, as [check_each] does.  When no check throws
    the directory is added at the end of the index with one add
    event; when one throws, the scan throws the same, the directory
    is not added and no event is emitted, though the files checked so
    far stay changed in the registry. *)
Theorem scan_flat fuel disk path names d :
  resolve path = path ->
  path <> "" ->
  ~ In path (dirs d) ->
  readdirSync disk path = ReaddirOk names ->
  Forall (fun name =>
            exists st, statSync disk (join path name) = StatOk st /\
                       st <> IsDirectory) names ->
  scan (S (S fuel)) disk path d =
  match check_each (readFileSync disk) (js_files disk path names)
                   (srcm d) with
  | (Normal _, s') =>
      Some (Normal tt, {| dirs := dirs d ++ [path]; srcm := s' |},
            [EvAdd path])
  | (Throw e, s') =>
      Some (Throw e, {| dirs := dirs d; srcm := s' |}, [])
  end.
Proof.
  intros Hres Hne Hni Hrd Hflat. unfold scan.
  replace (path =? resolve path) with true
    by (symmetry; apply String.eqb_eq; congruence).
  simpl. apply String.eqb_neq in Hne. rewrite Hne, Hrd.
  destruct (existsb (String.eqb path) (dirs d)) eqn:E.
  { apply existsb_eqb_In in E. contradiction. }
  rewrite (scan_names_flat disk path names [] (srcm d) Hflat).
  destruct (check_each _ _ _) as [[v|e] s']; simpl; [|reflexivity].
  unfold dirs_add. rewrite E. reflexivity.
Qed.

Lemma prefix_refl s : prefix s s = true.
Proof. induction s as [|a s IH]; simpl; [reflexivity|].
  destruct (ascii_dec a a); [exact IH | congruence].
Qed.

(** X17.  After [_rm] of an indexed path, however it ended, no path
    of the index starts with that path, and a second [_rm] of it
    returns [false], changes nothing and emits nothing, whatever the
    files hold by then. *)
Theorem _rm_twice fs fs' path d :
  In path (dirs d) ->
  let d' := snd (fst (_rm fs path d)) in
  (forall p, In p (dirs d') -> In p (dirs d) /\ prefix path p = false) /\
  _rm fs' path d' = (Normal false, d', []).
Proof.
  intros Hin d'.
  assert (Hd : dirs d' = filter (fun s => negb (prefix path s)) (dirs d)).
  { unfold d'. rewrite _rm_dirs.
    apply existsb_eqb_In in Hin. now rewrite Hin. }
  assert (Hp : forall p, In p (dirs d') ->
                         In p (dirs d) /\ prefix path p = false).
  { intros p. rewrite Hd, filter_In.
    destruct (prefix path p); simpl; intuition congruence. }
  split; [exact Hp|].
  unfold _rm at 1.
  destruct (existsb (String.eqb path) (dirs d')) eqn:E; [|reflexivity].
  apply existsb_eqb_In in E. apply Hp in E as [_ E].
  rewrite prefix_refl in E. discriminate.
Qed.

End ScanFacts.

(* ================================================================== *)
(** * The program *)

Section MainFacts.
Context `{Collaborators}.

Lemma checkFile_tracked_readable fs path s p si :
  JsMap.get p (srcs (snd (checkFile fs path s))) = Some si ->
  (p = path /\ exists src, fs path = ReadOk src) \/
  JsMap.get p (srcs s) = Some si.
Proof.
  destruct (string_dec p path) as [->|Hne];
    [|rewrite checkFile_srcs_other by exact Hne; auto].
  unfold checkFile. destruct (path =? resolve path); simpl; [|auto].
  destruct (fs path) as [src|code]; [eauto|].
  destruct (code =? "ENOENT"); simpl; rewrite _removeSrc_srcs;
    discriminate.
Qed.

Lemma check_each_tracked fs paths :
  forall s p si,
  JsMap.get p (srcs (snd (check_each fs paths s))) = Some si ->
  (In p paths /\ exists src, fs p = ReadOk src) \/
  exists si', JsMap.get p (srcs s) = Some si'.
Proof.
  induction paths as [|q rest IH]; intros s p si; simpl; [eauto|].
  destruct (checkFile fs q s) as [[v|e] s'] eqn:C; simpl.
  - intros Hg. apply IH in Hg as [[Hin Hsrc]|[si' Hg]]; [left; auto|].
    replace s' with (snd (checkFile fs q s)) in Hg by now rewrite C.
    apply checkFile_tracked_readable in Hg as [[-> Hsrc]|Hg]; eauto.
  - intros Hg.
    replace s' with (snd (checkFile fs q s)) in Hg by now rewrite C.
    apply checkFile_tracked_readable in Hg as [[-> Hsrc]|Hg]; eauto.
Qed.

Lemma _parseClasses_error path t table e :
  _parseClasses path t table = inl e ->
  e = TypeError \/ e = DuplicateClassName.
Proof.
  unfold _parseClasses. generalize (@nil ClassInfo).
  induction (query t) as [|cand rest IH]; intros acc; [discriminate|].
  rewrite parse_candidates_cons.
  destruct (extract_call path cand) as [[e1|cls]|] eqn:E.
  - intros [= ->]. left. eapply extract_call_error, E.
  - destruct (conflictb _ _ cls); [intros [= <-]; now right|]. apply IH.
  - apply IH.
Qed.

Lemma checkFile_throw fs path s e :
  fst (checkFile fs path s) = Throw e ->
  (e = AssertionError /\ resolve path <> path) \/
  (exists code, e = SystemError code /\ fs path = ReadFail code /\
                code <> "ENOENT") \/
  e = SyntaxError \/ e = TypeError \/ e = DuplicateClassName.
Proof.
  unfold checkFile. destruct (path =? resolve path) eqn:A; simpl.
  - destruct (fs path) as [src|code].
    + unfold _addSrc. destruct (parseScript src) as [t|].
      * destruct (_parseClasses _ _ _) as [e'|classes'] eqn:P;
          simpl; [|discriminate].
        intros [= ->]. apply _parseClasses_error in P. tauto.
      * simpl. intros [= <-]. tauto.
    + destruct (code =? "ENOENT") eqn:C; simpl; [discriminate|].
      intros [= <-]. right. left. exists code.
      repeat split. now apply String.eqb_neq.
  - intros [= <-]. left. split; [reflexivity|].
    apply String.eqb_neq in A. congruence.
Qed.

Lemma check_each_throw fs paths :
  forall s e,
  fst (check_each fs paths s) = Throw e ->
  exists p s0, In p paths /\ fst (checkFile fs p s0) = Throw e.
Proof.
  induction paths as [|q rest IH]; intros s e; simpl; [discriminate|].
  destruct (checkFile fs q s) as [[v|e'] s'] eqn:C; simpl.
  - intros Ht. apply IH in Ht as (p & s0 & Hin & Hp). eauto.
  - intros [= <-]. exists q, s. split; [now left | now rewrite C].
Qed.

Lemma check_each_app fs l1 l2 s :
  check_each fs (l1 ++ l2) s =
  match check_each fs l1 s with
  | (Throw e, s') => (Throw e, s')
  | (Normal _, s') => check_each fs l2 s'
  end.
Proof.
  revert s. induction l1 as [|q l1 IH]; intros s; [reflexivity|].
  simpl. destruct (checkFile fs q s) as [[v|e] s']; [apply IH|reflexivity].
Qed.

Lemma genCtags_throw s e : genCtags s = Throw e -> e = TypeError.
Proof.
  unfold genCtags, genCtags_buf, genCtags_records.
  destruct (mapM _ _) as [e'|bs] eqn:M; [|discriminate].
  intros [= <-]. apply mapM_inl in M as (cls & _ & Hc).
  now apply class_records_inl in Hc.
Qed.

(** X18.  With a [resolve] that returns resolved paths, the program
    never fails on the assertion of [checkFile].  It ends in an
    error only for an argument that cannot be read for another
    reason than being missing, or with a syntax error, a type error
    or the duplicate error. *)
Theorem main_errors fs args e :
  (forall p, resolve (resolve p) = resolve p) ->
  main fs args = Throw e ->
  (exists a code, In a args /\ fs (resolve a) = ReadFail code /\
                  code <> "ENOENT" /\ e = SystemError code) \/
  e = SyntaxError \/ e = TypeError \/ e = DuplicateClassName.
Proof.
  intros Hidem. unfold main, main_registry.
  destruct (check_each fs (map resolve args) new_SrcMgr) as [[v|e'] sm]
    eqn:C.
  - destruct (genCtags sm) as [text|e'] eqn:G; [discriminate|].
    intros [= <-]. apply genCtags_throw in G. tauto.
  - intros [= <-].
    assert (Ht : fst (check_each fs (map resolve args) new_SrcMgr)
                 = Throw e') by now rewrite C.
    apply check_each_throw in Ht as (p & s0 & Hin & Hp).
    apply in_map_iff in Hin as (a & <- & Hin).
    apply checkFile_throw in Hp
      as [[_ Hres]|[(code & -> & Hread & Hcode)|Hrest]].
    + now rewrite Hidem in Hres.
    + left. exists a, code. auto.
    + tauto.
Qed.

(** X19.  Every record the program prints belongs to a file named on
    the command line that could be read: its second field is the
    resolved path of an argument. *)
Theorem main_records_from_args fs args sm rs :
  main_registry fs args = (Normal tt, sm) ->
  genCtags_records sm = inr rs ->
  Forall (fun fields =>
            exists a src, In a args /\
                          nth_error fields 1 = Some (resolve a) /\
                          fs (resolve a) = ReadOk src) rs.
Proof.
  unfold main_registry. intros Hm Hr.
  assert (HR : Reachable sm).
  { replace sm with (snd (check_each fs (map resolve args) new_SrcMgr))
      by now rewrite Hm.
    apply check_each_Reachable. constructor. }
  pose proof (Reachable_Inv sm HR) as [_ Htr _].
  destruct (Reachable_NoDup sm HR) as [_ Hnd].
  apply genCtags_records_inr in Hr as (blocks & -> & Hb).
  assert (Hcls : forall cls, In cls (JsMap.values (classes sm)) ->
                 exists a src, In a args /\ srcPath cls = resolve a /\
                               fs (resolve a) = ReadOk src).
  { intros cls Hin. unfold JsMap.values in Hin.
    apply in_map_iff in Hin as ([n c] & Hc & Hin). simpl in Hc. subst c.
    apply (NoDup_keys_get n cls _ Hnd) in Hin.
    destruct (Htr n cls Hin) as [si Hsi].
    replace sm with (snd (check_each fs (map resolve args) new_SrcMgr))
      in Hsi by now rewrite Hm.
    apply check_each_tracked in Hsi as [[Hp [src Hsrc]]|[si' Hsi]];
      [|discriminate].
    apply in_map_iff in Hp as (a & Ha & Hp).
    exists a, src. rewrite Ha. auto. }
  apply Forall_forall. intros fields Hin.
  apply in_concat in Hin as (block & Hblock & Hin).
  destruct (Forall2_In_r _ _ _ _ Hb Hblock) as (cls & Hcin & Hc).
  destruct (Hcls cls Hcin) as (a & src & Ha & Hp & Hsrc).
  exists a, src. split; [exact Ha|]. split; [|exact Hsrc].
  rewrite <- Hp.
  apply class_records_inr in Hc as (ms & -> & Hms).
  destruct Hin as [<-|Hin]; [reflexivity|].
  apply in_app_or in Hin as [Hin|Hin].
  - unfold extend_records in Hin. destruct (extend cls); [|destruct Hin].
    destruct Hin as [<-|[]]. reflexivity.
  - destruct (Forall2_In_r _ _ _ _ Hms Hin) as (m & _ & Hm').
    now apply member_tags_inr in Hm'.
Qed.

(** X20.  An argument that names no file is passed over in silence:
    wherever it stands among the arguments, the program prints, or
    throws, what it does without it. *)
Theorem main_skips_missing fs before a rest :
  (forall p, resolve (resolve p) = resolve p) ->
  fs (resolve a) = ReadFail "ENOENT" ->
  main fs (before ++ a :: rest) = main fs (before ++ rest).
Proof.
  intros Hidem Hmiss. unfold main, main_registry.
  rewrite !map_app, !check_each_app. simpl.
  destruct (check_each fs (map resolve before) new_SrcMgr) as [[v|e] s1]
    eqn:C; [|reflexivity].
  assert (Hnone : JsMap.get (resolve a) (srcs s1) = None).
  { destruct (JsMap.get (resolve a) (srcs s1)) as [si|] eqn:G;
      [|reflexivity].
    replace s1 with (snd (check_each fs (map resolve before) new_SrcMgr))
      in G by now rewrite C.
    apply check_each_tracked in G as [[_ [src Hsrc]]|[si' G]];
      [congruence | discriminate]. }
  rewrite (checkFile_missing fs (resolve a) s1 (Hidem a) Hmiss).
  now rewrite (_removeSrc_untracked _ _ Hnone).
Qed.
End MainFacts.

(* ================================================================== *)
(** * The claims at work in the small world *)

#[local] Existing Instance Sample.collab.

(** C1 at work: [/F1.js] is registered, then [/twice.js] is checked. *)
Lemma checkFile_keeps_ownership_witness :
  Reachable Sample.after_F1 /\
  ownership_exact
    (snd (checkFile Sample.sample_fs "/twice.js" Sample.after_F1)) /\
  owners_tracked
    (snd (checkFile Sample.sample_fs "/twice.js" Sample.after_F1)).
Proof.
  split; [apply reach_checkFile, reach_new|].
  exact (@checkFile_keeps_ownership Sample.collab Sample.sample_fs
           "/twice.js" Sample.after_F1 (reach_checkFile _ _ _ reach_new)).
Defined.

(** C2 at work: [/Foo.js] checked twice after [/F1.js]. *)
Lemma checkFile_idempotent_witness :
  Reachable Sample.after_F1 /\
  checkFile Sample.sample_fs "/Foo.js"
    (snd (checkFile Sample.sample_fs "/Foo.js" Sample.after_F1))
  = (Normal VUndefined,
     snd (checkFile Sample.sample_fs "/Foo.js" Sample.after_F1)) /\
  genCtags
    (snd (checkFile Sample.sample_fs "/Foo.js"
            (snd (checkFile Sample.sample_fs "/Foo.js" Sample.after_F1))))
  = genCtags (snd (checkFile Sample.sample_fs "/Foo.js" Sample.after_F1)).
Proof.
  split; [apply reach_checkFile, reach_new|].
  exact (@checkFile_idempotent Sample.collab Sample.sample_fs "/Foo.js"
           Sample.after_F1 (reach_checkFile _ _ _ reach_new)).
Defined.

(** C3 as claimed fails: [/named_ctor.js] defines [X], which
    [/F1.js] owns, with [construct: Ctor]; the extractor throws on the
    constructor before the name is tested, and the error is not the
    duplicate error. *)
Lemma extractor_error_comes_first :
  Sample.sample_fs "/named_ctor.js" = ReadOk "named_ctor" /\
  parseScript "named_ctor" = Some Sample.prog_named_ctor /\
  Exists (conflicting "/named_ctor.js" (classes Sample.after_F1))
         (query Sample.prog_named_ctor) /\
  fst (checkFile Sample.sample_fs "/named_ctor.js" Sample.after_F1)
  = Throw TypeError /\
  fst (checkFile Sample.sample_fs "/named_ctor.js" Sample.after_F1)
  <> Throw DuplicateClassName.
Proof.
  split; [reflexivity|]. split; [reflexivity|]. split; [|split].
  - apply Exists_cons_hd. split; [reflexivity|].
    exists (VString "X"), Sample.F1_cls. repeat split. discriminate.
  - reflexivity.
  - discriminate.
Qed.

(** C3 at work: [/F1.js] and [/F2.js] both define [X]; the check of
    [/F2.js] after [/F1.js] raises the duplicate error. *)
Lemma duplicate_error_iff_witness :
  Reachable Sample.after_F1 /\
  resolve "/F2.js" = "/F2.js" /\
  Sample.sample_fs "/F2.js" = ReadOk "F2" /\
  parseScript "F2" = Some Sample.prog_F2 /\
  Forall (fun c => extracts "/F2.js" c = true) (query Sample.prog_F2) /\
  Exists (conflicting "/F2.js" (classes Sample.after_F1))
         (query Sample.prog_F2) /\
  fst (checkFile Sample.sample_fs "/F2.js" Sample.after_F1)
  = Throw DuplicateClassName.
Proof.
  assert (Hr : Reachable Sample.after_F1)
    by apply reach_checkFile, reach_new.
  assert (Hex : Forall (fun c => extracts "/F2.js" c = true)
                       (query Sample.prog_F2))
    by (repeat constructor).
  assert (Hc : Exists (conflicting "/F2.js" (classes Sample.after_F1))
                      (query Sample.prog_F2)).
  { apply Exists_cons_tl, Exists_cons_hd. split; [reflexivity|].
    exists (VString "X"), Sample.F1_cls. repeat split. discriminate. }
  repeat (split; [first [exact Hr | exact Hex | exact Hc | reflexivity]|]).
  destruct (@duplicate_error_iff Sample.collab Sample.sample_fs "/F2.js"
              Sample.after_F1 Hr) as (_ & Hif & _).
  exact (Hif "F2" Sample.prog_F2 eq_refl eq_refl eq_refl Hex Hc).
Defined.

(** C4 as claimed fails: in [/F2.js] the class [A] is extracted before
    the conflicting [X], the check raises the duplicate error, and [A]
    is not in the class table. *)
Lemma earlier_records_do_not_remain :
  fst (checkFile Sample.sample_fs "/F2.js" Sample.after_F1)
  = Throw DuplicateClassName /\
  In Sample.F2_cls_A
     (extracted "/F2.js"
        [Sample.define_call 1 "A" (ObjectExpression 1 [])]) /\
  JsMap.get (VString "A")
    (classes (snd (checkFile Sample.sample_fs "/F2.js" Sample.after_F1)))
  = None /\
  ~ earlier_records_remain Sample.sample_fs "/F2.js" Sample.after_F1.
Proof.
  split; [reflexivity|]. split; [now left|]. split; [reflexivity|].
  intros Hc.
  specialize (Hc eq_refl "F2" Sample.prog_F2
                 [Sample.define_call 1 "A" (ObjectExpression 1 [])]
                 (Sample.define_call 3 "X" (ObjectExpression 3 [])) []
                 eq_refl eq_refl eq_refl).
  assert (Hconf : conflicting "/F2.js" (classes Sample.after_F1)
                    (Sample.define_call 3 "X" (ObjectExpression 3 []))).
  { split; [reflexivity|]. exists (VString "X"), Sample.F1_cls.
    repeat split. discriminate. }
  specialize (Hc Hconf Sample.F2_cls_A (or_introl eq_refl)).
  discriminate Hc.
Qed.

(** C4 (amended) at work on the same check. *)
Lemma duplicate_error_registers_nothing_witness :
  Reachable Sample.after_F1 /\
  fst (checkFile Sample.sample_fs "/F2.js" Sample.after_F1)
  = Throw DuplicateClassName /\
  snd (checkFile Sample.sample_fs "/F2.js" Sample.after_F1)
  = snd (_removeSrc "/F2.js" Sample.after_F1) /\
  JsMap.get "/F2.js"
    (srcs (snd (checkFile Sample.sample_fs "/F2.js" Sample.after_F1)))
  = None /\
  (forall n c,
     JsMap.get n
       (classes (snd (checkFile Sample.sample_fs "/F2.js" Sample.after_F1)))
     = Some c -> srcPath c <> "/F2.js") /\
  (forall n prev,
     JsMap.get n (classes Sample.after_F1) = Some prev ->
     srcPath prev <> "/F2.js" ->
     JsMap.get n
       (classes (snd (checkFile Sample.sample_fs "/F2.js" Sample.after_F1)))
     = Some prev).
Proof.
  split; [apply reach_checkFile, reach_new|]. split; [reflexivity|].
  exact (@duplicate_error_registers_nothing Sample.collab
           Sample.sample_fs "/F2.js" Sample.after_F1
           (reach_checkFile _ _ _ reach_new) eq_refl).
Defined.

(** C5 at work: [/F1.js] is registered and then deleted. *)
Lemma checkFile_unreadable_witness :
  resolve "/F1.js" = "/F1.js" /\
  Sample.sample_fs_after "/F1.js" = ReadFail "ENOENT" /\
  checkFile Sample.sample_fs_after "/F1.js" Sample.after_F1
  = (Normal (VBool false), snd (_removeSrc "/F1.js" Sample.after_F1)) /\
  JsMap.get "/F1.js"
    (srcs (snd (checkFile Sample.sample_fs_after "/F1.js" Sample.after_F1)))
  = None /\
  JsMap.get (VString "X")
    (classes (snd (checkFile Sample.sample_fs_after "/F1.js"
                     Sample.after_F1)))
  = None.
Proof.
  destruct (@checkFile_unreadable Sample.collab Sample.sample_fs_after
              "/F1.js" Sample.after_F1 "ENOENT" eq_refl eq_refl)
    as (Hs & Hp & Hn & Hmissing & _).
  split; [reflexivity|]. split; [reflexivity|]. split; [|split].
  - rewrite (surjective_pairing (checkFile _ _ _)).
    now rewrite Hs, (Hmissing eq_refl).
  - exact Hp.
  - apply (Hn {| clsnames := [VString "X"] |} (VString "X") eq_refl).
    now left.
Defined.





(** C8 as claimed fails: the member [f: (x) => x] has a function as
    value, a node with parameters, yet the extractor records no method
    for it and a property with the value as signature. *)
Lemma arrow_member_is_a_property :
  snd Sample.arrow_member
  = ArrowFunctionExpression 4 [Identifier 4 "x"] "x" /\
  node_params (snd Sample.arrow_member) = Some [Identifier 4 "x"] /\
  exists cls',
    parse_section (empty_class "/a.js" (VString "A") (ObjectExpression 1 []))
      (Identifier 3 "members", ObjectExpression 3 [Sample.arrow_member])
    = inr cls' /\
    methods cls' = [] /\
    properties cls' =
      [{| tag_name := VString "f"; tag_t := snd Sample.arrow_member;
          tag_signature := Some "(=(x) => x)" |}].
Proof.
  split; [reflexivity|]. split; [reflexivity|].
  eexists. split; [reflexivity|]. split; reflexivity.
Qed.



(** C10 at work: [/twice.js] defines [X] twice. *)
Lemma same_file_duplicate_witness :
  Reachable new_SrcMgr /\
  query Sample.prog_twice
  = [] ++ Sample.define_call 1 "X" Sample.twice_body1
       :: [] ++ Sample.define_call 5 "X" Sample.twice_body2 :: [] /\
  exists s',
    checkFile Sample.sample_fs "/twice.js" new_SrcMgr
    = (Normal VUndefined, s') /\
    JsMap.get "/twice.js" (srcs s')
    = Some {| clsnames := [VString "X"; VString "X"] |} /\
    JsMap.get (VString "X") (classes s') = Some Sample.twice_cls2.
Proof.
  split; [apply reach_new|]. split; [reflexivity|].
  apply (@same_file_duplicate Sample.collab Sample.sample_fs "/twice.js"
           new_SrcMgr "twice" Sample.prog_twice
           [] (Sample.define_call 1 "X" Sample.twice_body1)
           [] (Sample.define_call 5 "X" Sample.twice_body2) []
           Sample.twice_cls1 Sample.twice_cls2
           reach_new eq_refl eq_refl eq_refl eq_refl eq_refl eq_refl
           eq_refl).
  - repeat constructor.
  - repeat constructor; intros (_ & n & prev & _ & Hg & _);
      discriminate Hg.
  - simpl. tauto.
Defined.

(* ================================================================== *)
(** * The further properties at work in the small world *)

#[local] Existing Instance Sample.sample_join.

(** X1 at work: [/Foo.js] is checked after [/F1.js]. *)
Lemma checkFile_frame_witness :
  Reachable Sample.after_F1 /\
  (forall q, q <> "/Foo.js" ->
     JsMap.get q (srcs Sample.after_F1_Foo)
     = JsMap.get q (srcs Sample.after_F1)) /\
  (forall n c, srcPath c <> "/Foo.js" ->
     (JsMap.get n (classes Sample.after_F1_Foo) = Some c <->
      JsMap.get n (classes Sample.after_F1) = Some c)).
Proof.
  split; [apply reach_checkFile, reach_new|].
  exact (@checkFile_frame Sample.collab Sample.sample_fs "/Foo.js"
           Sample.after_F1 (reach_checkFile _ _ _ reach_new)).
Defined.

(** X2 at work on the same check. *)
Lemma checkFile_refresh_witness :
  Reachable Sample.after_F1 /\
  checkFile Sample.sample_fs "/Foo.js" Sample.after_F1
  = (Normal VUndefined, Sample.after_F1_Foo) /\
  exists src t,
    Sample.sample_fs "/Foo.js" = ReadOk src /\ parseScript src = Some t /\
    JsMap.get "/Foo.js" (srcs Sample.after_F1_Foo)
    = Some {| clsnames := map name (extracted "/Foo.js" (query t)) |} /\
    (forall n c,
       JsMap.get n (classes Sample.after_F1_Foo) = Some c /\
       srcPath c = "/Foo.js" <->
       last_named n (extracted "/Foo.js" (query t)) = Some c).
Proof.
  split; [apply reach_checkFile, reach_new|]. split; [reflexivity|].
  exact (@checkFile_refresh Sample.collab Sample.sample_fs "/Foo.js"
           Sample.after_F1 Sample.after_F1_Foo
           (reach_checkFile _ _ _ reach_new) eq_refl).
Defined.

(** X3 at work on the same check. *)
Lemma checkFile_tracked_iff_witness :
  Reachable Sample.after_F1 /\
  ((exists si, JsMap.get "/Foo.js" (srcs Sample.after_F1_Foo) = Some si)
   <-> fst (checkFile Sample.sample_fs "/Foo.js" Sample.after_F1)
       = Normal VUndefined).
Proof.
  split; [apply reach_checkFile, reach_new|].
  exact (@checkFile_tracked_iff Sample.collab Sample.sample_fs "/Foo.js"
           Sample.after_F1 (reach_checkFile _ _ _ reach_new)).
Defined.

(** X4 at work: the check of [/F2.js] after [/F1.js] raises the
    duplicate error and leaves the retracted registry. *)
Lemma checkFile_errors_witness :
  fst (checkFile Sample.sample_fs "/F2.js" Sample.after_F1)
  = Throw DuplicateClassName /\
  resolve "/F2.js" = "/F2.js" /\
  snd (checkFile Sample.sample_fs "/F2.js" Sample.after_F1)
  = snd (_removeSrc "/F2.js" Sample.after_F1).
Proof.
  split; [reflexivity|].
  destruct (@checkFile_errors Sample.collab Sample.sample_fs "/F2.js"
              Sample.after_F1 DuplicateClassName eq_refl)
    as [[He _]|(Hres & Hs & _)]; [discriminate He|].
  split; [exact Hres | exact Hs].
Defined.

(** X5 at work: [/Foo.js] goes to the end of both tables. *)
Lemma checkFile_order_witness :
  Reachable Sample.after_F1 /\
  checkFile Sample.sample_fs "/Foo.js" Sample.after_F1
  = (Normal VUndefined, Sample.after_F1_Foo) /\
  exists classes',
    srcs Sample.after_F1_Foo
    = srcs (snd (_removeSrc "/Foo.js" Sample.after_F1))
      ++ [("/Foo.js", {| clsnames := map name classes' |})] /\
    classes Sample.after_F1_Foo
    = classes (snd (_removeSrc "/Foo.js" Sample.after_F1))
      ++ set_classes classes' [] /\
    JsMap.get "/Foo.js" (srcs (snd (_removeSrc "/Foo.js" Sample.after_F1)))
    = None /\
    (forall n c,
       JsMap.get n (classes (snd (_removeSrc "/Foo.js" Sample.after_F1)))
       = Some c -> srcPath c <> "/Foo.js").
Proof.
  split; [apply reach_checkFile, reach_new|]. split; [reflexivity|].
  exact (@checkFile_order Sample.collab Sample.sample_fs "/Foo.js"
           Sample.after_F1 Sample.after_F1_Foo
           (reach_checkFile _ _ _ reach_new) eq_refl).
Defined.

(** X6 at work: the record of [app.Foo]. *)
Lemma _parseClass_fields_witness :
  _parseClass "/Foo.js" (VString "app.Foo")
    (Some (ObjectExpression 1 Sample.Foo_props)) = inr Sample.Foo_cls /\
  extend Sample.Foo_cls
  = match last_value "extend" Sample.Foo_props with
    | Some v => Some (ref_tag v)
    | None => None
    end /\
  methods Sample.Foo_cls = flat_map section_methods Sample.Foo_props /\
  properties Sample.Foo_cls
  = flat_map section_properties Sample.Foo_props.
Proof.
  split; [reflexivity|].
  destruct (@_parseClass_fields Sample.collab "/Foo.js" (VString "app.Foo")
              1 Sample.Foo_props Sample.Foo_cls eq_refl)
    as (_ & _ & _ & _ & He & _ & _ & Hm & Hp & _).
  split; [exact He|]. split; [exact Hm | exact Hp].
Defined.

(** X8 at work: the records of [/Foo.js]. *)
Lemma extracted_signatures_witness :
  Reachable Sample.after_Foo /\
  exists rs,
    genCtags_records Sample.after_Foo = inr rs /\
    genCtags Sample.after_Foo
    = Normal (spec_header ++ String.concat "" (map spec_line rs))%string /\
    map (fun fields => (nth 3 fields "", skipn 7 fields)) rs
    = [ ("c", []); ("x", []); ("m", ["signature:()"]);
        ("p", ["signature:(=null)"]) ] /\
    Forall (fun fields =>
              (nth_error fields 3 = Some "m" ->
               exists sg, skipn 7 fields = [("signature:" ++ sg)%string]) /\
              (nth_error fields 3 = Some "n" \/
               nth_error fields 3 = Some "i" \/
               nth_error fields 3 = Some "s" \/
               nth_error fields 3 = Some "e" ->
               List.length fields = 7)) rs.
Proof.
  split; [apply reach_checkFile, reach_new|].
  exists [class_tags Sample.Foo_cls;
          extend_tags Sample.Foo_cls (ref_tag (OtherNode 2 "qx.core.Object"));
          [ "bar"; "/Foo.js"; line_field 4; "m"; "line:4"; "ctype:app.Foo";
            "access:public"; "signature:()" ];
          [ "baz"; "/Foo.js"; line_field 5; "p"; "line:5"; "ctype:app.Foo";
            "access:public"; "signature:(=null)" ]].
  split; [reflexivity|].
  destruct (@extracted_signatures Sample.collab Sample.after_Foo _
              (reach_checkFile _ _ _ reach_new) eq_refl) as [Ht Hf].
  split; [exact Ht|]. split; [reflexivity | exact Hf].
Defined.

(** X9 at work on the same record. *)
Lemma extracted_names_iff_witness :
  _parseClass "/Foo.js" (VString "app.Foo")
    (Some (ObjectExpression 1 Sample.Foo_props)) = inr Sample.Foo_cls /\
  (members_string_named Sample.Foo_cls <->
   forallb (fun e => string_key (fst e))
           (member_entries Sample.Foo_props) = true).
Proof.
  split; [reflexivity|].
  exact (@extracted_names_iff Sample.collab "/Foo.js" (VString "app.Foo")
           1 Sample.Foo_props Sample.Foo_cls eq_refl).
Defined.

(** X11 at work: the records of [/Foo.js]. *)
Lemma genCtags_paths_tracked_witness :
  Reachable Sample.after_Foo /\
  exists rs,
    genCtags_records Sample.after_Foo = inr rs /\
    Forall (fun fields =>
              exists p si, nth_error fields 1 = Some p /\
                           JsMap.get p (srcs Sample.after_Foo) = Some si /\
                           resolve p = p) rs.
Proof.
  split; [apply reach_checkFile, reach_new|].
  exists [class_tags Sample.Foo_cls;
          extend_tags Sample.Foo_cls (ref_tag (OtherNode 2 "qx.core.Object"));
          [ "bar"; "/Foo.js"; line_field 4; "m"; "line:4"; "ctype:app.Foo";
            "access:public"; "signature:()" ];
          [ "baz"; "/Foo.js"; line_field 5; "p"; "line:5"; "ctype:app.Foo";
            "access:public"; "signature:(=null)" ]].
  split; [reflexivity|].
  exact (@genCtags_paths_tracked Sample.collab Sample.after_Foo _
           (reach_checkFile _ _ _ reach_new) eq_refl).
Defined.

(** X12 at work on the registry of [/F1.js] and [/Foo.js]. *)
Lemma Reachable_names_unique_witness :
  Reachable Sample.after_F1_Foo /\
  map name (JsMap.values (classes Sample.after_F1_Foo))
  = JsMap.keys (classes Sample.after_F1_Foo) /\
  NoDup (map name (JsMap.values (classes Sample.after_F1_Foo))) /\
  (forall rs, genCtags_records Sample.after_F1_Foo = inr rs ->
     filter class_kind rs
     = map class_tags (JsMap.values (classes Sample.after_F1_Foo))).
Proof.
  split; [apply reach_checkFile, reach_checkFile, reach_new|].
  exact (@Reachable_names_unique Sample.collab Sample.after_F1_Foo
           (reach_checkFile _ _ _ (reach_checkFile _ _ _ reach_new))).
Defined.

(** X13 at work: the index of [/r] after [/r/sub] was deleted. *)
Lemma scan_keeps_registry_witness :
  Reachable (srcm Sample.after_scan) /\
  (let after_rm :=
     snd (fst (_rm Sample.sample_fs_after "/r/sub" Sample.after_scan)) in
   (Reachable (srcm after_rm) /\ Inv (srcm after_rm)) /\
   (forall fuel disk c d' evs,
      scan fuel disk "/r/sub" Sample.after_scan = Some (c, d', evs) ->
      Reachable (srcm d') /\ Inv (srcm d') /\
      NoDup (JsMap.keys (srcs (srcm d'))) /\
      NoDup (JsMap.keys (classes (srcm d'))))).
Proof.
  split; [apply reach_checkFile, reach_checkFile, reach_new|].
  exact (@scan_keeps_registry Sample.collab Sample.sample_join
           Sample.sample_fs_after "/r/sub" Sample.after_scan
           (reach_checkFile _ _ _ (reach_checkFile _ _ _ reach_new))).
Defined.

(** X14 at work: a scan of [/r] from a new index. *)
Lemma scan_events_witness :
  scan 5 Sample.sample_disk "/r" Sample.new_DirMgr
  = Some (Normal tt, Sample.scanned,
          [EvAdd "/r"; EvAdd "/r/sub"; EvAdd "/r/other"]) /\
  (forall p, In p (dirs Sample.scanned) ->
     In p (dirs Sample.new_DirMgr) \/
     In (EvAdd p) [EvAdd "/r"; EvAdd "/r/sub"; EvAdd "/r/other"]) /\
  (forall p, In (EvAdd p) [EvAdd "/r"; EvAdd "/r/sub"; EvAdd "/r/other"] ->
     p <> "" /\
     exists names, readdirSync Sample.sample_disk p = ReaddirOk names) /\
  (forall r, In (EvRm r) [EvAdd "/r"; EvAdd "/r/sub"; EvAdd "/r/other"] ->
     r <> "" /\ readdirSync Sample.sample_disk r = ReaddirFail "ENOENT") /\
  (Normal tt = Normal tt ->
   forall p, In p (dirs Sample.new_DirMgr) ->
     In p (dirs Sample.scanned) \/
     exists r, In (EvRm r) [EvAdd "/r"; EvAdd "/r/sub"; EvAdd "/r/other"]
               /\ prefix r p = true) /\
  (NoDup (dirs Sample.new_DirMgr) -> NoDup (dirs Sample.scanned)).
Proof.
  split; [reflexivity|].
  exact (@scan_events Sample.collab Sample.sample_join 5 Sample.sample_disk
           "/r" Sample.new_DirMgr (Normal tt) Sample.scanned
           [EvAdd "/r"; EvAdd "/r/sub"; EvAdd "/r/other"] eq_refl).
Defined.

(** X15 at work: a second scan of [/r]. *)
Lemma scan_silent_witness :
  resolve "/r" = "/r" /\ "/r" <> "" /\
  In "/r" (dirs Sample.scanned) /\
  readdirSync Sample.sample_disk "/r" = ReaddirOk ["sub"; "other"] /\
  scan 2 Sample.sample_disk "/r" Sample.scanned
  = Some (Normal tt, Sample.scanned, []).
Proof.
  split; [reflexivity|]. split; [discriminate|].
  split; [now left|]. split; [reflexivity|].
  apply (@scan_silent Sample.collab Sample.sample_join 0 Sample.sample_disk
           "/r" Sample.scanned eq_refl).
  - discriminate.
  - left. split; [now left|]. exists ["sub"; "other"]. reflexivity.
Defined.

(** X16 at work: a scan of [/r/sub], which holds one file. *)
Lemma scan_flat_witness :
  resolve "/r/sub" = "/r/sub" /\ "/r/sub" <> "" /\
  ~ In "/r/sub" (dirs Sample.new_DirMgr) /\
  readdirSync Sample.sample_disk "/r/sub" = ReaddirOk ["f.js"] /\
  Forall (fun name =>
            exists st,
              statSync Sample.sample_disk (join "/r/sub" name) = StatOk st /\
              st <> IsDirectory) ["f.js"] /\
  js_files Sample.sample_disk "/r/sub" ["f.js"] = ["/r/sub/f.js"] /\
  scan 2 Sample.sample_disk "/r/sub" Sample.new_DirMgr
  = match check_each (readFileSync Sample.sample_disk)
            (js_files Sample.sample_disk "/r/sub" ["f.js"])
            (srcm Sample.new_DirMgr) with
    | (Normal _, s') =>
        Some (Normal tt,
              {| dirs := dirs Sample.new_DirMgr ++ ["/r/sub"]; srcm := s' |},
              [EvAdd "/r/sub"])
    | (Throw e, s') =>
        Some (Throw e, {| dirs := dirs Sample.new_DirMgr; srcm := s' |}, [])
    end.
Proof.
  assert (Hflat : Forall (fun name =>
            exists st,
              statSync Sample.sample_disk (join "/r/sub" name) = StatOk st /\
              st <> IsDirectory) ["f.js"]).
  { constructor; [|constructor]. exists IsFile.
    split; [reflexivity | discriminate]. }
  split; [reflexivity|]. split; [discriminate|].
  split; [intros []|]. split; [reflexivity|]. split; [exact Hflat|].
  split; [reflexivity|].
  apply (@scan_flat Sample.collab Sample.sample_join 0 Sample.sample_disk
           "/r/sub" ["f.js"] Sample.new_DirMgr eq_refl).
  - discriminate.
  - intros [].
  - reflexivity.
  - exact Hflat.
Defined.

(** X17 at work: [/r/sub] is retracted twice. *)
Lemma _rm_twice_witness :
  In "/r/sub" (dirs Sample.after_scan) /\
  (let d' :=
     snd (fst (_rm Sample.sample_fs_after "/r/sub" Sample.after_scan)) in
   (forall p, In p (dirs d') ->
      In p (dirs Sample.after_scan) /\ prefix "/r/sub" p = false) /\
   _rm Sample.sample_fs "/r/sub" d' = (Normal false, d', [])).
Proof.
  split; [now left|].
  exact (@_rm_twice Sample.collab Sample.sample_fs_after Sample.sample_fs
           "/r/sub" Sample.after_scan (or_introl eq_refl)).
Defined.

(** X18 at work: [/locked.js] cannot be read. *)
Lemma main_errors_witness :
  (forall p, resolve (resolve p) = resolve p) /\
  main Sample.sample_fs ["/locked.js"] = Throw (SystemError "EACCES") /\
  ((exists a code,
      In a ["/locked.js"] /\
      Sample.sample_fs (resolve a) = ReadFail code /\
      code <> "ENOENT" /\ SystemError "EACCES" = SystemError code) \/
   SystemError "EACCES" = SyntaxError \/
   SystemError "EACCES" = TypeError \/
   SystemError "EACCES" = DuplicateClassName).
Proof.
  split; [reflexivity|]. split; [reflexivity|].
  exact (@main_errors Sample.collab Sample.sample_fs ["/locked.js"]
           (SystemError "EACCES") (fun p => eq_refl) eq_refl).
Defined.

(** X19 at work: the program on [/F1.js] and [/Foo.js]. *)
Lemma main_records_from_args_witness :
  main_registry Sample.sample_fs ["/F1.js"; "/Foo.js"]
  = (Normal tt, Sample.after_F1_Foo) /\
  exists rs,
    genCtags_records Sample.after_F1_Foo = inr rs /\
    Forall (fun fields =>
              exists a src,
                In a ["/F1.js"; "/Foo.js"] /\
                nth_error fields 1 = Some (resolve a) /\
                Sample.sample_fs (resolve a) = ReadOk src) rs.
Proof.
  split; [reflexivity|].
  exists (class_tags Sample.F1_cls ::
          [class_tags Sample.Foo_cls;
           extend_tags Sample.Foo_cls
             (ref_tag (OtherNode 2 "qx.core.Object"));
           [ "bar"; "/Foo.js"; line_field 4; "m"; "line:4"; "ctype:app.Foo";
             "access:public"; "signature:()" ];
           [ "baz"; "/Foo.js"; line_field 5; "p"; "line:5"; "ctype:app.Foo";
             "access:public"; "signature:(=null)" ]]).
  split; [reflexivity|].
  exact (@main_records_from_args Sample.collab Sample.sample_fs
           ["/F1.js"; "/Foo.js"] Sample.after_F1_Foo _ eq_refl eq_refl).
Defined.

(** X20 at work: [/nothing.js] names no file. *)
Lemma main_skips_missing_witness :
  (forall p, resolve (resolve p) = resolve p) /\
  Sample.sample_fs (resolve "/nothing.js") = ReadFail "ENOENT" /\
  main Sample.sample_fs (["/F1.js"] ++ "/nothing.js" :: ["/Foo.js"])
  = main Sample.sample_fs (["/F1.js"] ++ ["/Foo.js"]).
Proof.
  split; [reflexivity|]. split; [reflexivity|].
  exact (@main_skips_missing Sample.collab Sample.sample_fs ["/F1.js"]
           "/nothing.js" ["/Foo.js"] (fun p => eq_refl) eq_refl).
Defined.
